(** * nengo_ocl: ragged-batch kernel templates, the LIF rules and the probe ring

    A shallow embedding of [nengo_ocl/clra_nonlinearities.py] (the kernels
    rendered by [_plan_template], [plan_lif], [plan_lif_rate] and
    [plan_probes], and [_indent]) and, of [nengo_ocl/sim_ocl.py], of the
    probe driver ([run_steps], [drain_probe_buffers], [probe_data]), of
    the planning of the direct-mode operators ([plan_SimDirect]) and of
    the dictionary of plan dependencies ([__init__],
    [plandict_op_group]).

    Device scalars are kept abstract in the template part, are real
    numbers in the LIF rule and reals with infinities and NaN in the rate
    rule and in the LIF kernel as it is rendered, which divide by zero:
    rounding of IEEE floats is not modelled.
    Buffer offsets and work-item coordinates are natural numbers; the
    [int32] counters of the probe kernel are integers with their
    wrap-around written out.

    A launch of a template kernel is the list of stores its work-items
    issue, taken in the order of their ids: input and parameter buffers are
    [const] and only read, output buffers are only written, and an output
    that shares its buffer with an input ([plan_SimLIF] passes [V] and [W]
    as both) is read and written by an element at that element's offsets
    only.  Dictionaries are lists in the order Python iterates them. *)

From Stdlib Require Import List Arith Lia Bool ZArith Reals Lra.
From Stdlib Require String DecimalString DecimalNat.
From Stdlib Require Import Permutation.
Import ListNotations.

Set Implicit Arguments.

(* ===================================================================== *)
(** ** The elementwise kernel template ([_plan_template])                 *)
(* ===================================================================== *)

Module Template.

Section Kernel.

(** [V] is the scalar type of the device buffers, [L] the state of the
    variables declared by the caller's [declares] text. *)
Variable V : Type.
Variable L : Type.

(** A device-resident ragged array as the kernels see it: the per-row
    start offsets, the per-row lengths and the flat buffer. *)
Record ragged : Type := Ragged {
  cl_starts : list nat;
  cl_shape0s : list nat;
  cl_buf : nat -> V
}.

(** [a[n]] on an [int] argument array.  Every such read in the kernels is
    guarded by [n < N], except the ones of the prefix walk, modelled
    apart with [nth_error]. *)
Definition idx (l : list nat) (n : nat) : nat := nth n l 0.

(** The private variables of one work-item: one per input, output and
    parameter name (numbered in the order the dictionaries are iterated)
    and the caller's declared variables. *)
Record regs : Type := Regs {
  r_in : nat -> V;
  r_out : nat -> V;
  r_par : nat -> V;
  r_loc : L
}.

(** A store [in_<name>[addr] = value] to the [k]-th output buffer. *)
Record store : Type := Store {
  st_var : nat;
  st_addr : nat;
  st_val : V
}.

(** One evaluation of the core text: the coordinates it ran at, the
    private variables it started from (both kept for reasoning only) and
    the stores that followed it. *)
Record event : Type := Event {
  ev_n : nat;
  ev_m : nat;
  ev_regs : regs;
  ev_stores : list store
}.

Variable core_text : regs -> regs.
Variable ivars : list ragged.
Variable ovars : list (list nat).
Variable pvars : list ragged.
Variable lengths : list nat.

Definition N : nat := length lengths.

(** *** Block regime ([n_elements == 0]) *)

(** [${type} ${name} = in_${name}[${offset} + m];] *)
Definition block_load_in (junk : nat -> V) (m n : nat) : nat -> V :=
  fun k =>
    match nth_error ivars k with
    | Some a => cl_buf a (idx (cl_starts a) n + m)
    | None => junk k
    end.

(** [const ${type} ${name} = (${name}_shape0s[n] > 1) ?
      in_${name}[${offset} + m] : in_${name}[${offset}];] *)
Definition block_load_par (junk : nat -> V) (m n : nat) : nat -> V :=
  fun k =>
    match nth_error pvars k with
    | Some a =>
        if 1 <? idx (cl_shape0s a) n
        then cl_buf a (idx (cl_starts a) n + m)
        else cl_buf a (idx (cl_starts a) n)
    | None => junk k
    end.

(** [in_${name}[${offset} + m] = ${name};] for every output. *)
Definition block_stores (r : regs) (m n : nat) : list store :=
  map (fun k => Store k (idx (nth k ovars []) n + m) (r_out r k))
      (seq 0 (length ovars)).

(** The work-item at [(m, n)]; [junk] is what its uninitialised private
    variables happen to hold. *)
Definition block_item (junk : regs) (m n : nat) : list event :=
  let M := idx lengths n in
  if M <=? m then []
  else
    let r := {| r_in := block_load_in (r_in junk) m n;
                r_out := r_out junk;
                r_par := block_load_par (r_par junk) m n;
                r_loc := r_loc junk |} in
    [Event n m r (block_stores (core_text r) m n)].

(** [gsize = (int(np.max(base.shape0s)), int(N))] *)
Definition block_gsize : nat * nat := (fold_right Nat.max 0 lengths, N).

(** The whole launch, work-items taken in the order of their linear id
    (dimension 0 fastest). *)
Definition block_kernel (junk : nat -> nat -> regs) : list event :=
  flat_map (fun n =>
              flat_map (fun m => block_item (junk m n) m n)
                       (seq 0 (fst block_gsize)))
           (seq 0 (snd block_gsize)).

(** *** Flattened regime ([n_elements >= 1]) *)

Variable n_elements : nat.

(** [while (m >= lengths[n]) { m -= lengths[n]; n++; }]; a read past the
    end of [lengths] is a stuck walk. *)
Fixpoint walk (fuel m n : nat) : option (nat * nat) :=
  match fuel with
  | 0 => None
  | S fuel' =>
      match nth_error lengths n with
      | None => None
      | Some l => if l <=? m then walk fuel' (m - l) (S n) else Some (m, n)
      end
  end.

(** The pointers [cur_<name>] (as offsets into their buffers) and the
    flags [<name>_isvector] of a work-item, each family indexed by the
    number of its variable, next to the coordinates and the private
    variables. *)
Record wstate : Type := WState {
  w_n : nat;
  w_m : nat;
  cur_in : nat -> nat;
  cur_out : nat -> nat;
  cur_par : nat -> nat;
  isvector : nat -> bool;
  w_regs : regs
}.

Definition par_starts (k n : nat) : nat :=
  match nth_error pvars k with
  | Some a => idx (cl_starts a) n
  | None => 0
  end.

Definition par_shape0s (k n : nat) : nat :=
  match nth_error pvars k with
  | Some a => idx (cl_shape0s a) n
  | None => 0
  end.

Definition in_starts (k n : nat) : nat :=
  match nth_error ivars k with
  | Some a => idx (cl_starts a) n
  | None => 0
  end.

Definition out_starts (k n : nat) : nat := idx (nth k ovars []) n.

(** The declarations after the walk:
    [cur_${name} = in_${name} + ${offset} + m] for inputs and outputs,
    [cur_${name} = in_${name} + ${offset}], the flag and
    [if (${name}_isvector) cur_${name} += m] for parameters. *)
Definition flat_init (junk : regs) (m n : nat) : wstate :=
  let isv := fun k => 1 <? par_shape0s k n in
  {| w_n := n; w_m := m;
     cur_in := fun k => in_starts k n + m;
     cur_out := fun k => out_starts k n + m;
     cur_par := fun k => if isv k then par_starts k n + m
                         else par_starts k n;
     isvector := isv;
     w_regs := junk |}.

(** [${name} = *cur_${name};] for inputs and
    [if ((${ii} == 0) || ${name}_isvector) ${name} = *cur_${name};]
    for parameters. *)
Definition flat_load (ii : nat) (st : wstate) : regs :=
  let r := w_regs st in
  {| r_in := fun k =>
       match nth_error ivars k with
       | Some a => cl_buf a (cur_in st k)
       | None => r_in r k
       end;
     r_out := r_out r;
     r_par := fun k =>
       match nth_error pvars k with
       | Some a =>
           if (ii =? 0) || isvector st k
           then cl_buf a (cur_par st k)
           else r_par r k
       | None => r_par r k
       end;
     r_loc := r_loc r |}.

(** [*cur_${name} = ${name};] for every output. *)
Definition flat_stores (st : wstate) (r : regs) : list store :=
  map (fun k => Store k (cur_out st k) (r_out r k))
      (seq 0 (length ovars)).

(** The block rendered for [ii + 1 < n_elements]: [m++], then either the
    move to the next row (leaving the kernel when there is none) or the
    increment of the pointers.  [None] is [return]. *)
Definition flat_advance (st : wstate) (r : regs) : option wstate :=
  let m := S (w_m st) in
  let n := w_n st in
  if idx lengths n <=? m then
    let n := S n in
    let m := 0 in
    if N <=? n then None
    else
      let cp := fun k => par_starts k n in
      let isv := fun k => 1 <? par_shape0s k n in
      Some {| w_n := n; w_m := m;
              cur_in := fun k => in_starts k n;
              cur_out := fun k => out_starts k n;
              cur_par := cp;
              isvector := isv;
              w_regs :=
                {| r_in := r_in r; r_out := r_out r;
                   r_par := fun k =>
                     match nth_error pvars k with
                     | Some a =>
                         if negb (isv k) then cl_buf a (cp k)
                         else r_par r k
                     | None => r_par r k
                     end;
                   r_loc := r_loc r |} |}
  else
    Some {| w_n := n; w_m := m;
            cur_in := fun k => S (cur_in st k);
            cur_out := fun k => S (cur_out st k);
            cur_par := fun k => if isvector st k then S (cur_par st k)
                                else cur_par st k;
            isvector := isvector st;
            w_regs := r |}.

Definition set_regs (st : wstate) (r : regs) : wstate :=
  {| w_n := w_n st; w_m := w_m st;
     cur_in := cur_in st; cur_out := cur_out st; cur_par := cur_par st;
     isvector := isvector st; w_regs := r |}.

(** The unrolled [% for ii in range(n_elements)] loop from iteration
    [ii] on, [todo] iterations being left. *)
Fixpoint flat_loop (todo ii : nat) (st : wstate) : list event :=
  match todo with
  | 0 => []
  | S todo' =>
      let r1 := flat_load ii st in
      let r2 := core_text r1 in
      let ev := Event (w_n st) (w_m st) r1 (flat_stores st r2) in
      if ii + 1 <? n_elements then
        match flat_advance st r2 with
        | None => [ev]
        | Some st' => ev :: flat_loop todo' (S ii) st'
        end
      else ev :: flat_loop todo' (S ii) (set_regs st r2)
  end.

(** The work-item [gid]: the prefix walk, [if (n >= ${N}) return;], the
    declarations and the unrolled loop. *)
Definition flat_item (junk : regs) (gid : nat) : option (list event) :=
  match walk (S N) (gid * n_elements) 0 with
  | None => None
  | Some (m, n) =>
      if N <=? n then Some []
      else Some (flat_loop n_elements 0 (flat_init junk m n))
  end.

(** [gsize = (int(np.ceil(np.sum(base.shape0s) / float(n_elements))),)] *)
Definition flat_gsize : nat :=
  (list_sum lengths + n_elements - 1) / n_elements.

Fixpoint flat_items (junk : nat -> regs) (gids : list nat)
  : option (list event) :=
  match gids with
  | [] => Some []
  | gid :: rest =>
      match flat_item (junk gid) gid, flat_items junk rest with
      | Some e, Some es => Some (e ++ es)
      | _, _ => None
      end
  end.

Definition flat_kernel (junk : nat -> regs) : option (list event) :=
  flat_items junk (seq 0 flat_gsize).

(** What a launch leaves in the output buffers: its stores, in order. *)
Definition stores_of (evs : list event) : list store :=
  flat_map (@ev_stores) evs.

(** Output memory: buffer number and offset to value. *)
Definition memory : Type := nat -> nat -> V.

Definition write (mem : memory) (s : store) : memory :=
  fun k a =>
    if (k =? st_var s) && (a =? st_addr s) then st_val s else mem k a.

Definition apply_stores (mem : memory) (l : list store) : memory :=
  fold_left write l mem.

Definition coords (evs : list event) : list (nat * nat) :=
  map (fun e => (ev_n e, ev_m e)) evs.

(** *** Reference points for the proofs *)

(** The elements of the batch from [(n, m)] on, row by row. *)
Definition row_from (n m : nat) : list (nat * nat) :=
  map (fun m' => (n, m')) (seq m (idx lengths n - m)).

Definition rows_from (n : nat) : list (nat * nat) :=
  flat_map (fun n' => row_from n' 0) (seq n (N - n)).

Definition elems_from (n m : nat) : list (nat * nat) :=
  row_from n m ++ rows_from (S n).

Definition elems : list (nat * nat) := rows_from 0.

(** The private variables of the Block work-item at [(m, n)]. *)
Definition block_regs (junk : regs) (m n : nat) : regs :=
  {| r_in := block_load_in (r_in junk) m n;
     r_out := r_out junk;
     r_par := block_load_par (r_par junk) m n;
     r_loc := r_loc junk |}.

(** The pointers and flags of a Flattened work-item agree with its
    coordinates; after the first iteration the scalar parameters are
    loaded. *)
Definition consistent (ii : nat) (st : wstate) : Prop :=
  (forall k, cur_in st k = in_starts k (w_n st) + w_m st) /\
  (forall k, cur_out st k = out_starts k (w_n st) + w_m st) /\
  (forall k, isvector st k = (1 <? par_shape0s k (w_n st))) /\
  (forall k, cur_par st k =
             if isvector st k then par_starts k (w_n st) + w_m st
             else par_starts k (w_n st)) /\
  (w_m st < idx lengths (w_n st) \/ w_m st = 0) /\
  (ii <> 0 ->
   forall k a, nth_error pvars k = Some a -> isvector st k = false ->
               r_par (w_regs st) k = cl_buf a (par_starts k (w_n st))).

(** An evaluation of the core text started from the values of its own
    coordinates and was followed by the stores of its results there. *)
Definition loaded (e : event) : Prop :=
  (forall k a, nth_error ivars k = Some a ->
     r_in (ev_regs e) k = cl_buf a (idx (cl_starts a) (ev_n e) + ev_m e)) /\
  (forall k a, nth_error pvars k = Some a ->
     r_par (ev_regs e) k =
     if 1 <? idx (cl_shape0s a) (ev_n e)
     then cl_buf a (idx (cl_starts a) (ev_n e) + ev_m e)
     else cl_buf a (idx (cl_starts a) (ev_n e))) /\
  (ev_m e < idx lengths (ev_n e) \/ ev_m e = 0) /\
  ev_stores e = block_stores (core_text (ev_regs e)) (ev_m e) (ev_n e).

(** The parameter protocol at one evaluation: a row of length 1 gives its
    single value, a row as long as the base row gives the element of the
    evaluation's own offset. *)
Definition broadcast (e : event) : Prop :=
  forall k a, nth_error pvars k = Some a ->
    (idx (cl_shape0s a) (ev_n e) = 1 ->
     r_par (ev_regs e) k = cl_buf a (idx (cl_starts a) (ev_n e))) /\
    (idx (cl_shape0s a) (ev_n e) = idx lengths (ev_n e) ->
     r_par (ev_regs e) k = cl_buf a (idx (cl_starts a) (ev_n e) + ev_m e)).

(** The stores after an evaluation are the results of the core text on the
    variables it started from, at the evaluation's own offsets. *)
Definition stored (e : event) : Prop :=
  ev_stores e = block_stores (core_text (ev_regs e)) (ev_m e) (ev_n e).

Ltac projs :=
  cbn [w_n w_m cur_in cur_out cur_par isvector w_regs
       r_in r_out r_par r_loc ev_n ev_m ev_regs ev_stores
       flat_init set_regs flat_load block_regs].

(** *** Every evaluation of the core text starts from its own row *)

Section Broadcast.

(** The core text leaves the parameter variables alone: the Block regime
    declares them [const]. *)
Hypothesis core_const_par :
  forall r k, k < length pvars -> r_par (core_text r) k = r_par r k.

Lemma consistent_init junk m n :
  m < idx lengths n -> consistent 0 (flat_init junk m n).
Proof.
  intros Hm. unfold consistent; projs.
  repeat split; auto; intros; congruence.
Qed.

Lemma scalar_kept ii st k a :
  consistent ii st ->
  nth_error pvars k = Some a ->
  isvector st k = false ->
  r_par (core_text (flat_load ii st)) k = cl_buf a (par_starts k (w_n st)).
Proof.
  intros (Hin & Hout & Hv & Hp & Hm & Hs) Hk Hv'.
  rewrite core_const_par by (apply nth_error_Some; congruence).
  projs. rewrite Hk, Hv', orb_false_r.
  destruct (ii =? 0) eqn:Hii.
  - rewrite Hp, Hv'. reflexivity.
  - apply Hs; auto. apply Nat.eqb_neq in Hii. exact Hii.
Qed.

Lemma consistent_advance ii st st' :
  consistent ii st ->
  flat_advance st (core_text (flat_load ii st)) = Some st' ->
  consistent (S ii) st'.
Proof.
  intros Hc Hadv. pose proof Hc as (Hin & Hout & Hv & Hp & Hm & Hs).
  unfold flat_advance in Hadv.
  destruct (idx lengths (w_n st) <=? S (w_m st)) eqn:Hrow.
  - destruct (N <=? S (w_n st)); [discriminate|].
    injection Hadv as <-. unfold consistent; projs.
    repeat split; auto.
    + intros k. destruct (1 <? par_shape0s k (S (w_n st))); lia.
    + intros _ k a Hk Hv'. rewrite Hk, Hv'. reflexivity.
  - injection Hadv as <-. apply Nat.leb_gt in Hrow.
    unfold consistent; projs. repeat split; auto.
    + intros k. rewrite Hin. lia.
    + intros k. rewrite Hout. lia.
    + intros k. rewrite Hp. destruct (isvector st k); lia.
    + intros _ k a Hk Hv'. eapply scalar_kept; eauto.
Qed.

Lemma consistent_set_regs ii st :
  consistent ii st ->
  consistent (S ii) (set_regs st (core_text (flat_load ii st))).
Proof.
  intros Hc. pose proof Hc as (Hin & Hout & Hv & Hp & Hm & Hs).
  unfold consistent; projs. repeat split; auto.
  intros _ k a Hk Hv'. eapply scalar_kept; eauto.
Qed.

Lemma flat_stores_block st r :
  (forall k, cur_out st k = out_starts k (w_n st) + w_m st) ->
  flat_stores st r = block_stores r (w_m st) (w_n st).
Proof.
  intros H. unfold flat_stores, block_stores.
  apply map_ext. intros k. rewrite H. reflexivity.
Qed.

Lemma flat_event_loaded ii st :
  consistent ii st ->
  loaded (Event (w_n st) (w_m st) (flat_load ii st)
                (flat_stores st (core_text (flat_load ii st)))).
Proof.
  intros (Hin & Hout & Hv & Hp & Hm & Hs).
  unfold loaded; projs. repeat split; auto.
  - intros k a Hk. rewrite Hk, Hin. unfold in_starts. rewrite Hk. reflexivity.
  - intros k a Hk. rewrite Hk.
    assert (Hsh : par_shape0s k (w_n st) = idx (cl_shape0s a) (w_n st))
      by (unfold par_shape0s; rewrite Hk; reflexivity).
    assert (Hst : par_starts k (w_n st) = idx (cl_starts a) (w_n st))
      by (unfold par_starts; rewrite Hk; reflexivity).
    rewrite <- Hsh, <- Hst, <- Hv.
    destruct (isvector st k) eqn:Hvk.
    + rewrite orb_true_r, Hp, Hvk. reflexivity.
    + rewrite orb_false_r. destruct (ii =? 0) eqn:Hii.
      * rewrite Hp, Hvk. reflexivity.
      * apply Hs; auto. apply Nat.eqb_neq in Hii. exact Hii.
  - apply flat_stores_block. exact Hout.
Qed.

Lemma flat_loop_loaded todo : forall ii st,
  consistent ii st -> Forall loaded (flat_loop todo ii st).
Proof.
  induction todo as [|todo IH]; intros ii st Hc; cbn [flat_loop].
  - constructor.
  - pose proof (flat_event_loaded Hc) as Hev.
    destruct (ii + 1 <? n_elements).
    + destruct (flat_advance st (core_text (flat_load ii st))) as [st'|] eqn:Hadv.
      * constructor; [exact Hev|]. apply IH.
        eapply consistent_advance; eauto.
      * constructor; [exact Hev|constructor].
    + constructor; [exact Hev|]. apply IH. apply consistent_set_regs; auto.
Qed.

Lemma block_item_loaded junk m n : Forall loaded (block_item junk m n).
Proof.
  unfold block_item. destruct (idx lengths n <=? m) eqn:Hm; constructor;
    [|constructor].
  apply Nat.leb_gt in Hm.
  unfold loaded; projs. repeat split; auto.
  - intros k a Hk. unfold block_load_in. rewrite Hk. reflexivity.
  - intros k a Hk. unfold block_load_par. rewrite Hk. reflexivity.
Qed.

End Broadcast.

(** *** The prefix walk and the launch geometry *)

Lemma skipn_idx n : n < N -> skipn n lengths = idx lengths n :: skipn (S n) lengths.
Proof.
  unfold N, idx. revert n. induction lengths as [|l ls IH]; intros n Hn.
  - cbn in Hn. lia.
  - destruct n as [|n]; [reflexivity|]. cbn in Hn.
    cbn [skipn nth]. rewrite IH by lia. reflexivity.
Qed.

Lemma nth_error_idx n : n < N -> nth_error lengths n = Some (idx lengths n).
Proof. intros Hn. apply nth_error_nth'. exact Hn. Qed.

Lemma rows_from_step n :
  n < N -> rows_from n = row_from n 0 ++ rows_from (S n).
Proof.
  intros Hn. unfold rows_from.
  replace (N - n) with (S (N - S n)) by lia. reflexivity.
Qed.

Lemma rows_from_end n : N <= n -> rows_from n = [].
Proof.
  intros Hn. unfold rows_from. replace (N - n) with 0 by lia. reflexivity.
Qed.

Lemma length_row_from n m : length (row_from n m) = idx lengths n - m.
Proof. unfold row_from. rewrite length_map, length_seq. reflexivity. Qed.

Lemma skipn_row_from n m : skipn m (row_from n 0) = row_from n m.
Proof.
  unfold row_from. rewrite skipn_map, skipn_seq. rewrite Nat.sub_0_r.
  reflexivity.
Qed.

Lemma row_from_step n m :
  m < idx lengths n -> row_from n m = (n, m) :: row_from n (S m).
Proof.
  intros Hm. unfold row_from.
  replace (idx lengths n - m) with (S (idx lengths n - S m)) by lia.
  reflexivity.
Qed.

Lemma row_from_end n m : idx lengths n <= m -> row_from n m = [].
Proof.
  intros Hm. unfold row_from. replace (idx lengths n - m) with 0 by lia.
  reflexivity.
Qed.

Lemma length_rows_from n : length (rows_from n) = list_sum (skipn n lengths).
Proof.
  remember (N - n) as d eqn:Hd. revert n Hd.
  induction d as [|d IH]; intros n Hd.
  - rewrite rows_from_end by lia. rewrite skipn_all2 by (fold N; lia).
    reflexivity.
  - rewrite rows_from_step, skipn_idx by lia.
    rewrite length_app, length_row_from, IH by lia.
    change (list_sum (idx lengths n :: skipn (S n) lengths))
      with (idx lengths n + list_sum (skipn (S n) lengths)). lia.
Qed.

Lemma length_elems : length elems = list_sum lengths.
Proof. unfold elems. rewrite length_rows_from. reflexivity. Qed.

(** The walk from [(m, n)] stops on the element [m] places after the start
    of row [n], whatever the lengths of the rows in between. *)
Lemma walk_spec fuel : forall m n,
  N - n < fuel ->
  m < list_sum (skipn n lengths) ->
  exists m' n',
    walk fuel m n = Some (m', n') /\ n' < N /\ m' < idx lengths n' /\
    skipn m (rows_from n) = elems_from n' m'.
Proof.
  induction fuel as [|fuel IH]; intros m n Hf Hm; [lia|].
  assert (Hn : n < N).
  { destruct (Nat.lt_ge_cases n N) as [|Hge]; [assumption|].
    rewrite skipn_all2 in Hm by (fold N; lia). cbn in Hm. lia. }
  cbn [walk]. rewrite nth_error_idx by exact Hn.
  rewrite skipn_idx in Hm by exact Hn.
  change (m < idx lengths n + list_sum (skipn (S n) lengths)) in Hm.
  rewrite rows_from_step by exact Hn.
  destruct (idx lengths n <=? m) eqn:Hrow.
  - apply Nat.leb_le in Hrow.
    destruct (IH (m - idx lengths n) (S n)) as (m' & n' & Hw & Hn' & Hm' & Hsk);
      [lia|lia|].
    exists m', n'. repeat split; auto.
    rewrite skipn_app, length_row_from, Nat.sub_0_r.
    rewrite skipn_all2 by (rewrite length_row_from; lia).
    exact Hsk.
  - apply Nat.leb_gt in Hrow. exists m, n. repeat split; auto.
    rewrite skipn_app, length_row_from, Nat.sub_0_r.
    replace (m - idx lengths n) with 0 by lia.
    rewrite skipn_row_from. reflexivity.
Qed.

Lemma gid_in_range gid :
  1 <= n_elements -> gid < flat_gsize -> gid * n_elements < list_sum lengths.
Proof.
  unfold flat_gsize. intros Hne Hg.
  pose proof (Nat.Div0.mul_div_le (list_sum lengths + n_elements - 1) n_elements).
  nia.
Qed.

Lemma flat_gsize_covers :
  1 <= n_elements -> list_sum lengths <= flat_gsize * n_elements.
Proof.
  unfold flat_gsize. intros Hne.
  pose proof (Nat.div_mod_eq (list_sum lengths + n_elements - 1) n_elements).
  pose proof (Nat.mod_upper_bound (list_sum lengths + n_elements - 1) n_elements).
  nia.
Qed.

Lemma idx_le_max n : idx lengths n <= fst block_gsize.
Proof.
  unfold block_gsize, idx; cbn [fst]. revert n.
  induction lengths as [|l ls IH]; intros n.
  - destruct n; cbn; lia.
  - destruct n as [|n]; cbn [nth fold_right]; [lia|].
    specialize (IH n). lia.
Qed.

(** Cutting a list in chunks of [c] and gluing the chunks back. *)
Lemma chunks_glue (A : Type) (c : nat) : forall k (l : list A),
  length l <= k * c ->
  flat_map (fun g => firstn c (skipn (g * c) l)) (seq 0 k) = l.
Proof.
  induction k as [|k IH]; intros l Hl.
  - destruct l; [reflexivity|cbn in Hl; lia].
  - cbn [seq flat_map]. rewrite <- seq_shift, flat_map_concat_map, map_map.
    rewrite <- flat_map_concat_map.
    rewrite (flat_map_ext _ (fun g => firstn c (skipn (g * c) (skipn c l)))).
    + rewrite IH by (rewrite length_skipn; lia).
      cbn [Nat.mul skipn]. apply firstn_skipn.
    + intros g. rewrite skipn_skipn. f_equal. f_equal. lia.
Qed.

(** A row of work-items of which those past [len] return at once. *)
Lemma guarded_row (A : Type) (f : nat -> list A) (g : nat -> A) (len G : nat) :
  len <= G ->
  (forall m, m < len -> f m = [g m]) ->
  (forall m, len <= m -> f m = []) ->
  flat_map f (seq 0 G) = map g (seq 0 len).
Proof.
  intros HG Hlt Hge.
  replace G with (len + (G - len)) by lia.
  rewrite seq_app, flat_map_app.
  assert (H2 : flat_map f (seq (0 + len) (G - len)) = []).
  { generalize (0 + len) (Nat.le_refl (0 + len)) (Nat.le_add_l len 0).
    intros a _ Ha. revert a Ha.
    induction (G - len) as [|d IH]; intros a Ha; [reflexivity|].
    cbn [seq flat_map]. rewrite Hge by lia. apply IH. lia. }
  assert (H1 : flat_map f (seq 0 len) = map g (seq 0 len)).
  { clear Hge HG H2. induction len as [|len IH]; [reflexivity|].
    rewrite seq_S, flat_map_app, map_app. cbn [flat_map map]. 
    rewrite IH by (intros; apply Hlt; lia).
    rewrite Hlt by lia. reflexivity. }
  rewrite H1, H2. apply app_nil_r.
Qed.

Lemma block_kernel_loaded junk : Forall loaded (block_kernel junk).
Proof.
  unfold block_kernel. apply Forall_flat_map, Forall_forall. intros n _.
  apply Forall_flat_map, Forall_forall. intros m _.
  apply block_item_loaded.
Qed.

(** The Block launch evaluates the core text once on every element. *)
Lemma block_kernel_coords junk : coords (block_kernel junk) = elems.
Proof.
  unfold block_kernel, coords, elems, rows_from.
  cbn [snd]. rewrite Nat.sub_0_r.
  rewrite flat_map_concat_map, concat_map, map_map, <- flat_map_concat_map.
  apply flat_map_ext. intros n.
  rewrite flat_map_concat_map, concat_map, map_map, <- flat_map_concat_map.
  unfold row_from. rewrite Nat.sub_0_r.
  apply guarded_row.
  - apply idx_le_max.
  - intros m Hm. unfold block_item.
    destruct (idx lengths n <=? m) eqn:E; [apply Nat.leb_le in E; lia|].
    reflexivity.
  - intros m Hm. unfold block_item.
    destruct (idx lengths n <=? m) eqn:E; [|apply Nat.leb_gt in E; lia].
    reflexivity.
Qed.

(** *** The two regimes visit the same elements and store the same values *)

Section Regimes.

Hypothesis core_const_par :
  forall r k, k < length pvars -> r_par (core_text r) k = r_par r k.

Hypothesis n_elements_pos : 1 <= n_elements.

(** Every work-item of the Flattened launch runs to its end, and each of
    its evaluations is loaded from its own coordinates. *)
Lemma flat_item_runs junk gid :
  gid < flat_gsize ->
  exists m n,
    n < N /\ m < idx lengths n /\
    skipn (gid * n_elements) elems = elems_from n m /\
    flat_item junk gid = Some (flat_loop n_elements 0 (flat_init junk m n)) /\
    Forall loaded (flat_loop n_elements 0 (flat_init junk m n)).
Proof.
  intros Hg. apply gid_in_range in Hg; [|exact n_elements_pos].
  destruct (@walk_spec (S N) (gid * n_elements) 0) as (m & n & Hw & Hn & Hm & Hsk);
    [lia|exact Hg|].
  exists m, n. repeat split; auto.
  - unfold flat_item. rewrite Hw.
    destruct (N <=? n) eqn:HN; [apply Nat.leb_le in HN; lia|reflexivity].
  - apply flat_loop_loaded; [exact core_const_par|].
    apply consistent_init. exact Hm.
Qed.

Lemma flat_items_run junk gids :
  Forall (fun gid => gid < flat_gsize) gids ->
  exists evs, flat_items junk gids = Some evs /\ Forall loaded evs.
Proof.
  induction gids as [|gid gids IH]; intros Hall.
  - exists []. split; [reflexivity|constructor].
  - inversion Hall as [|? ? Hg Hrest]; subst.
    destruct (IH Hrest) as (evs & Hevs & Hl).
    destruct (flat_item_runs (junk gid) Hg) as (m & n & _ & _ & _ & Hi & Hli).
    eexists. cbn [flat_items]. rewrite Hi, Hevs. split; [reflexivity|].
    apply Forall_app. split; assumption.
Qed.

Lemma flat_kernel_runs junk :
  exists evs, flat_kernel junk = Some evs /\ Forall loaded evs.
Proof.
  apply flat_items_run. apply Forall_forall. intros gid Hin.
  apply in_seq in Hin. lia.
Qed.

(** No row is empty. *)
Hypothesis rows_nonempty : Forall (fun l => 1 <= l) lengths.

Lemma row_nonempty n : n < N -> 1 <= idx lengths n.
Proof.
  intros Hn. rewrite Forall_forall in rows_nonempty.
  apply rows_nonempty. apply nth_In. exact Hn.
Qed.

Lemma elems_from_next_row n m :
  n < N -> m < idx lengths n -> idx lengths n <= S m -> S n < N ->
  elems_from n m = (n, m) :: elems_from (S n) 0.
Proof.
  intros Hn Hm Hrow Hn'. unfold elems_from.
  rewrite row_from_step, row_from_end by assumption.
  rewrite (@rows_from_step (S n)) by assumption. reflexivity.
Qed.

Lemma elems_from_last n m :
  m < idx lengths n -> idx lengths n <= S m -> N <= S n ->
  elems_from n m = [(n, m)].
Proof.
  intros Hm Hrow Hn'. unfold elems_from.
  rewrite row_from_step, row_from_end, rows_from_end by assumption.
  reflexivity.
Qed.

Lemma elems_from_same_row n m :
  S m < idx lengths n -> elems_from n m = (n, m) :: elems_from n (S m).
Proof.
  intros Hm. unfold elems_from. rewrite row_from_step by lia. reflexivity.
Qed.

(** A chunk walks over the next [n_elements] elements of the batch. *)
Lemma flat_loop_coords todo : forall ii st,
  todo + ii = n_elements ->
  w_n st < N -> w_m st < idx lengths (w_n st) ->
  coords (flat_loop todo ii st) = firstn todo (elems_from (w_n st) (w_m st)).
Proof.
  induction todo as [|todo IH]; intros ii st Hii Hn Hm; [reflexivity|].
  cbn [flat_loop].
  destruct (ii + 1 <? n_elements) eqn:Hlast.
  - unfold flat_advance.
    destruct (idx lengths (w_n st) <=? S (w_m st)) eqn:Hrow.
    + apply Nat.leb_le in Hrow.
      destruct (N <=? S (w_n st)) eqn:HN.
      * apply Nat.leb_le in HN. rewrite elems_from_last by assumption.
        cbn. destruct todo; reflexivity.
      * apply Nat.leb_gt in HN.
        rewrite elems_from_next_row by assumption.
        cbn [coords map firstn ev_n ev_m]. f_equal.
        apply (IH (S ii)); projs; [lia|exact HN|].
        apply row_nonempty. exact HN.
    + apply Nat.leb_gt in Hrow.
      rewrite elems_from_same_row by assumption.
      cbn [coords map firstn ev_n ev_m]. f_equal.
      apply (IH (S ii)); projs; [lia|exact Hn|exact Hrow].
  - apply Nat.ltb_ge in Hlast. assert (todo = 0) by lia. subst todo.
    unfold elems_from. rewrite row_from_step by exact Hm. reflexivity.
Qed.

Lemma flat_items_coords junk gids :
  Forall (fun gid => gid < flat_gsize) gids ->
  exists evs,
    flat_items junk gids = Some evs /\ Forall loaded evs /\
    coords evs =
    flat_map (fun g => firstn n_elements (skipn (g * n_elements) elems)) gids.
Proof.
  induction gids as [|gid gids IH]; intros Hall.
  - exists []. repeat split; constructor.
  - inversion Hall as [|? ? Hg Hrest]; subst.
    destruct (IH Hrest) as (evs & Hevs & Hl & Hc).
    destruct (flat_item_runs (junk gid) Hg) as (m & n & Hn & Hm & Hsk & Hi & Hli).
    eexists. cbn [flat_items]. rewrite Hi, Hevs. split; [reflexivity|].
    split; [apply Forall_app; split; assumption|].
    unfold coords in *. rewrite map_app, Hc. cbn [flat_map]. f_equal.
    rewrite Hsk. apply (@flat_loop_coords n_elements 0); projs; auto.
Qed.

(** The Flattened launch evaluates the core text once on every element,
    in the order of the batch. *)
Lemma flat_kernel_coords junk :
  exists evs,
    flat_kernel junk = Some evs /\ Forall loaded evs /\ coords evs = elems.
Proof.
  destruct (@flat_items_coords junk (seq 0 flat_gsize)) as (evs & He & Hl & Hc).
  { apply Forall_forall. intros gid Hin. apply in_seq in Hin. lia. }
  exists evs. repeat split; auto.
  rewrite Hc. apply chunks_glue.
  rewrite length_elems. apply flat_gsize_covers. exact n_elements_pos.
Qed.

(** The results of the core text depend on the element's inputs and
    parameters only. *)
Hypothesis core_elementwise :
  forall r r',
    (forall k, k < length ivars -> r_in r k = r_in r' k) ->
    (forall k, k < length pvars -> r_par r k = r_par r' k) ->
    forall k, k < length ovars -> r_out (core_text r) k = r_out (core_text r') k.

Lemma loaded_stores j0 e :
  loaded e ->
  ev_stores e =
  block_stores (core_text (block_regs j0 (ev_m e) (ev_n e))) (ev_m e) (ev_n e).
Proof.
  intros (Hi & Hp & _ & Hs). rewrite Hs. unfold block_stores.
  apply map_ext_in. intros k Hk. apply in_seq in Hk. f_equal.
  apply core_elementwise; [| |lia].
  - intros k' Hk'. apply nth_error_Some in Hk'.
    destruct (nth_error ivars k') as [a|] eqn:E; [|congruence].
    rewrite (Hi _ _ E). projs. unfold block_load_in. rewrite E. reflexivity.
  - intros k' Hk'. apply nth_error_Some in Hk'.
    destruct (nth_error pvars k') as [a|] eqn:E; [|congruence].
    rewrite (Hp _ _ E). projs. unfold block_load_par. rewrite E. reflexivity.
Qed.

Lemma stores_by_coords j0 evs :
  Forall loaded evs ->
  stores_of evs =
  flat_map (fun c => block_stores (core_text (block_regs j0 (snd c) (fst c)))
                                  (snd c) (fst c))
           (coords evs).
Proof.
  induction 1 as [|e evs He _ IH]; [reflexivity|].
  unfold stores_of, coords in *. cbn [flat_map map fst snd].
  rewrite IH, <- (loaded_stores j0 He). reflexivity.
Qed.

(** On a batch without empty rows the Flattened launch issues the stores of
    the Block launch, value for value and in the same order. *)
Lemma flat_block_stores junkf junkb :
  exists evs,
    flat_kernel junkf = Some evs /\
    stores_of evs = stores_of (block_kernel junkb).
Proof.
  destruct (flat_kernel_coords junkf) as (evs & He & Hl & Hc).
  exists evs. split; [exact He|].
  rewrite (stores_by_coords (junkb 0 0) Hl).
  rewrite (stores_by_coords (junkb 0 0) (block_kernel_loaded junkb)).
  rewrite Hc, block_kernel_coords. reflexivity.
Qed.

End Regimes.

Lemma loaded_broadcast e : loaded e -> broadcast e /\ stored e.
Proof.
  intros (_ & Hp & Hm & Hs). split; [|exact Hs].
  intros k a Hk. rewrite (Hp _ _ Hk). split; intros Hlen.
  - rewrite Hlen. reflexivity.
  - destruct (1 <? idx (cl_shape0s a) (ev_n e)) eqn:Hv; [reflexivity|].
    apply Nat.ltb_ge in Hv. f_equal. lia.
Qed.

End Kernel.

(** On a batch without empty rows the two regimes leave the same output
    memory, whatever it held before. *)
Lemma flat_block_memory (V L : Type) (core_text : regs V L -> regs V L)
    (ivars : list (ragged V)) (ovars : list (list nat))
    (pvars : list (ragged V)) (lengths : list nat) (n_elements : nat)
    (junkf : nat -> regs V L) (junkb : nat -> nat -> regs V L) :
  (forall r k, k < length pvars -> r_par (core_text r) k = r_par r k) ->
  (forall r r',
      (forall k, k < length ivars -> r_in r k = r_in r' k) ->
      (forall k, k < length pvars -> r_par r k = r_par r' k) ->
      forall k, k < length ovars ->
                r_out (core_text r) k = r_out (core_text r') k) ->
  1 <= n_elements ->
  Forall (fun l => 1 <= l) lengths ->
  exists evs,
    flat_kernel core_text ivars ovars pvars lengths n_elements junkf = Some evs /\
    forall mem,
      apply_stores mem (stores_of evs) =
      apply_stores mem
        (stores_of (block_kernel core_text ivars ovars pvars lengths junkb)).
Proof.
  intros Hconst Helem Hne Hpos.
  destruct (@flat_block_stores V L core_text ivars ovars pvars lengths
              n_elements Hconst Hne Hpos Helem junkf junkb)
    as (evs & Hrun & Hst).
  exists evs. split; [exact Hrun|]. intros mem. rewrite Hst. reflexivity.
Qed.

(** Where the broadcast is right.  In both regimes every evaluation of the
    core text finds, in each parameter variable, the single value of a
    parameter row of length 1 and the element at the evaluation's own
    offset of a parameter row as long as the base row, and its results are
    what is stored at that offset of that row.  The Block launch evaluates
    every element of every row once; the Flattened launch runs every
    work-item to its end and, on a batch without empty rows, evaluates the
    same elements in the same order.  With an empty row the evaluations of
    the Flattened launch need not be those of the elements of the batch
    (see the batch of rows 1, 0 and 1 below).  The core text does not
    assign to the parameter variables. *)
Theorem parameter_broadcast (V L : Type) (core_text : regs V L -> regs V L)
    (ivars : list (ragged V)) (ovars : list (list nat))
    (pvars : list (ragged V)) (lengths : list nat) (n_elements : nat)
    (junkf : nat -> regs V L) (junkb : nat -> nat -> regs V L) :
  (forall r k, k < length pvars -> r_par (core_text r) k = r_par r k) ->
  1 <= n_elements ->
  (Forall (fun e => broadcast pvars lengths e /\ stored core_text ovars e)
          (block_kernel core_text ivars ovars pvars lengths junkb) /\
   coords (block_kernel core_text ivars ovars pvars lengths junkb)
   = elems lengths) /\
  exists evs,
    flat_kernel core_text ivars ovars pvars lengths n_elements junkf = Some evs /\
    Forall (fun e => broadcast pvars lengths e /\ stored core_text ovars e) evs /\
    (Forall (fun l => 1 <= l) lengths -> coords evs = elems lengths).
Proof.
  intros Hconst Hne. split; [split|].
  - eapply Forall_impl; [|apply block_kernel_loaded].
    intros e He. eapply loaded_broadcast; eauto.
  - apply block_kernel_coords.
  - destruct (@flat_kernel_runs V L core_text ivars ovars pvars lengths
                n_elements Hconst Hne junkf)
      as (evs & Hrun & Hl).
    exists evs. split; [exact Hrun|]. split.
    + eapply Forall_impl; [|exact Hl].
      intros e He. eapply loaded_broadcast; eauto.
    + intros Hpos.
      destruct (@flat_kernel_coords V L core_text ivars ovars pvars lengths
                  n_elements Hconst Hne Hpos junkf)
        as (evs' & Hrun' & _ & Hc).
      congruence.
Qed.

End Template.

(* ===================================================================== *)
(** ** The template on a small batch                                      *)
(* ===================================================================== *)

Module TemplateExample.

Import Template.

(** One input [j], one output [r], one parameter [p] of one value per row,
    and the core text [r = j + p;]. *)
Definition core_add (r : regs nat unit) : regs nat unit :=
  {| r_in := r_in r;
     r_out := fun _ => r_in r 0 + r_par r 0;
     r_par := r_par r;
     r_loc := r_loc r |}.

Definition junk0 : regs nat unit :=
  {| r_in := fun _ => 0; r_out := fun _ => 0; r_par := fun _ => 0;
     r_loc := tt |}.

Definition buffer (l : list nat) : nat -> nat := fun a => nth a l 0.

(** Three rows of lengths 1, 0 and 1, packed one after the other. *)
Definition lengths_gap : list nat := [1; 0; 1].
Definition J_gap : ragged nat := Ragged [0; 1; 1] lengths_gap (buffer [10; 20]).
Definition R_gap : list nat := [0; 1; 1].
Definition P_gap : ragged nat :=
  Ragged [0; 1; 2] [1; 1; 1] (buffer [100; 200; 300]).

(** Three rows of lengths 1, 2 and 3; the parameter is a scalar for the
    first two rows and a vector for the third. *)
Definition lengths_full : list nat := [1; 2; 3].
Definition J_full : ragged nat :=
  Ragged [0; 1; 3] lengths_full (buffer [10; 20; 21; 30; 31; 32]).
Definition R_full : list nat := [0; 1; 3].
Definition P_full : ragged nat :=
  Ragged [0; 1; 2] [1; 1; 3] (buffer [100; 200; 300; 301; 302]).

Definition zero_memory : memory nat := fun _ _ => 0.

Lemma core_add_const_par (pvars : list (ragged nat)) :
  forall r k, k < length pvars -> r_par (core_add r) k = r_par r k.
Proof. intros r k _. reflexivity. Qed.

Lemma core_add_elementwise :
  forall r r' : regs nat unit,
    (forall k, k < length [J_full] -> r_in r k = r_in r' k) ->
    (forall k, k < length [P_full] -> r_par r k = r_par r' k) ->
    forall k, k < length [R_full] ->
              r_out (core_add r) k = r_out (core_add r') k.
Proof.
  intros r r' Hi Hp k _. cbn [core_add r_out].
  rewrite (Hi 0), (Hp 0) by (cbn; lia). reflexivity.
Qed.

Example flat_full_stores :
  option_map (@stores_of nat unit)
    (flat_kernel core_add [J_full] [R_full] [P_full] lengths_full 4
                 (fun _ => junk0))
  = Some [Store 0 0 110; Store 0 1 220; Store 0 2 221;
          Store 0 3 330; Store 0 4 332; Store 0 5 334].
Proof. reflexivity. Qed.

Example flat_block_memory_full :
  exists evs,
    flat_kernel core_add [J_full] [R_full] [P_full] lengths_full 4
                (fun _ => junk0) = Some evs /\
    forall mem,
      apply_stores mem (stores_of evs) =
      apply_stores mem
        (stores_of (block_kernel core_add [J_full] [R_full] [P_full]
                                 lengths_full (fun _ _ => junk0))).
Proof.
  apply flat_block_memory.
  - apply core_add_const_par.
  - apply core_add_elementwise.
  - lia.
  - repeat constructor.
Qed.

(** The broadcast on the batch of rows 1, 2 and 3, in chunks of 4. *)
Lemma parameter_broadcast_witness :
  (Forall (fun e => broadcast [P_full] lengths_full e /\
                    stored core_add [R_full] e)
          (block_kernel core_add [J_full] [R_full] [P_full] lengths_full
                        (fun _ _ => junk0)) /\
   coords (block_kernel core_add [J_full] [R_full] [P_full] lengths_full
                        (fun _ _ => junk0))
   = elems lengths_full) /\
  exists evs,
    flat_kernel core_add [J_full] [R_full] [P_full] lengths_full 4
                (fun _ => junk0) = Some evs /\
    Forall (fun e => broadcast [P_full] lengths_full e /\
                     stored core_add [R_full] e) evs /\
    (Forall (fun l => 1 <= l) lengths_full -> coords evs = elems lengths_full).
Proof.
  apply (@parameter_broadcast nat unit core_add [J_full] [R_full] [P_full]
           lengths_full 4 (fun _ => junk0) (fun _ _ => junk0)).
  - intros r k _. reflexivity.
  - lia.
Defined.

(** C1 (the code departs from the specification).  Rows of lengths 1, 0 and 1 with
    [n_elements = 2]: the only work-item of the Flattened launch moves from
    the end of row 0 to row 1, which is empty, and spends its second
    iteration there, at the offset where row 2 starts and with the
    parameter of row 1.  The Block launch computes element 0 of row 2 with
    the parameter of row 2.  The two output buffers differ at that
    element. *)
Theorem flat_misses_element_after_empty_row :
  option_map (@stores_of nat unit)
    (flat_kernel core_add [J_gap] [R_gap] [P_gap] lengths_gap 2
                 (fun _ => junk0))
  = Some [Store 0 0 110; Store 0 1 220] /\
  stores_of (block_kernel core_add [J_gap] [R_gap] [P_gap] lengths_gap
                          (fun _ _ => junk0))
  = [Store 0 0 110; Store 0 1 320] /\
  option_map (@coords nat unit)
    (flat_kernel core_add [J_gap] [R_gap] [P_gap] lengths_gap 2
                 (fun _ => junk0))
  = Some [(0, 0); (1, 0)] /\
  elems lengths_gap = [(0, 0); (2, 0)] /\
  apply_stores zero_memory [Store 0 0 110; Store 0 1 220] 0 1 = 220 /\
  apply_stores zero_memory [Store 0 0 110; Store 0 1 320] 0 1 = 320.
Proof. repeat split; reflexivity. Qed.

(** C4 (the code departs from the specification).  Rows of lengths 1, 0
    and 1, a parameter with one value per row, 100, 200 and 300, and
    [n_elements = 2].  The elements of the batch are element 0 of row 0
    and element 0 of row 2, and the Block launch computes them with 100
    and with 300, the single values of their rows.  The only work-item of
    the Flattened launch leaves row 0 by [if (m >= lengths[n])], taken
    once, lands on row 1, which is empty, reloads the scalar there and
    evaluates the core text with 200: no evaluation is made for element 0
    of row 2, none finds 300 in the parameter variable, and the value
    stored at the offset of that element, [20 + 200], was computed with the
    single value of another row. *)
Theorem flat_takes_parameter_of_empty_row :
  option_map (map (fun e => (ev_n e, ev_m e, r_par (ev_regs e) 0)))
    (flat_kernel core_add [J_gap] [R_gap] [P_gap] lengths_gap 2
                 (fun _ => junk0))
  = Some [(0, 0, 100); (1, 0, 200)] /\
  map (fun e => (ev_n e, ev_m e, r_par (ev_regs e) 0))
      (block_kernel core_add [J_gap] [R_gap] [P_gap] lengths_gap
                    (fun _ _ => junk0))
  = [(0, 0, 100); (2, 0, 300)] /\
  elems lengths_gap = [(0, 0); (2, 0)] /\
  idx (cl_shape0s P_gap) 2 = 1 /\
  cl_buf P_gap (idx (cl_starts P_gap) 2) = 300 /\
  cl_buf J_gap (idx (cl_starts J_gap) 2 + 0) = 20 /\
  option_map (fun evs => apply_stores zero_memory (stores_of evs) 0
                                      (idx R_gap 2 + 0))
    (flat_kernel core_add [J_gap] [R_gap] [P_gap] lengths_gap 2
                 (fun _ => junk0))
  = Some (20 + 200) /\
  apply_stores zero_memory
    (stores_of (block_kernel core_add [J_gap] [R_gap] [P_gap] lengths_gap
                             (fun _ _ => junk0)))
    0 (idx R_gap 2 + 0)
  = 20 + 300.
Proof. repeat split; reflexivity. Qed.

(** With [n_elements = 1] no work-item crosses a row and the same batch is
    computed as in the Block regime: the prefix walk steps over the empty
    row. *)
Example flat_walk_skips_empty_row :
  option_map (@stores_of nat unit)
    (flat_kernel core_add [J_gap] [R_gap] [P_gap] lengths_gap 1
                 (fun _ => junk0))
  = Some [Store 0 0 110; Store 0 1 320].
Proof. reflexivity. Qed.

End TemplateExample.

(* ===================================================================== *)
(** ** The LIF update rule ([plan_lif])                                   *)
(* ===================================================================== *)

Module LIF.

Local Open Scope R_scope.

(** [a < b] on device scalars, as a C condition. *)
Definition Rltb (a b : R) : bool := if Rlt_dec a b then true else false.

(** The variables of the core text: the inputs [j], [v], [w], the
    parameters [tau], [ref], the declared [spiked], [dV], [overshoot] and
    the outputs [ov], [ow], [os]. *)
Record vars : Type := Vars {
  j : R; v : R; w : R;
  tau : R; ref : R;
  spiked : bool; dV : R; overshoot : R;
  ov : R; ow : R; os : R
}.

(** [V_threshold=1.] *)
Definition V_threshold : R := 1.

(** [if (v < 0 || w > 2*${dt}) v = 0;
     else if (w > ${dt}) v *= 1.0 - (w - ${dt}) * ${dt_inv};] *)
Definition suppress (dt dt_inv w v : R) : R :=
  if Rltb v 0 || Rltb (2 * dt) w then 0
  else if Rltb dt w then v * (1 - (w - dt) * dt_inv)
  else v.

(** The text rendered for one [ii] of [% for ii in range(upsample)];
    [dt] and [dt_inv] are the values of [textconf]. *)
Definition substep (dt dt_inv : R) (s : vars) : vars :=
  let dV1 := (dt / tau s) * (j s - v s) in
  let v1 := v s + dV1 in
  let v2 := suppress dt dt_inv (w s) v1 in
  if Rltb V_threshold v2 then
    let overshoot1 := dt * (v2 - V_threshold) / dV1 in
    {| j := j s; v := 0; w := ref s - overshoot1 + dt;
       tau := tau s; ref := ref s;
       spiked := true; dV := dV1; overshoot := overshoot1;
       ov := ov s; ow := ow s; os := os s |}
  else
    {| j := j s; v := v2; w := w s - dt;
       tau := tau s; ref := ref s;
       spiked := spiked s; dV := dV1; overshoot := overshoot s;
       ov := ov s; ow := ow s; os := os s |}.

(** Whether the sub-step started from [s] takes the branch of the spike. *)
Definition crosses (dt dt_inv : R) (s : vars) : bool :=
  Rltb V_threshold
       (suppress dt dt_inv (w s) (v s + (dt / tau s) * (j s - v s))).

Fixpoint substeps (n : nat) (dt dt_inv : R) (s : vars) : vars :=
  match n with
  | O => s
  | S n' => substeps n' dt dt_inv (substep dt dt_inv s)
  end.

(** [spiked = 0;] *)
Definition clear_spiked (s : vars) : vars :=
  {| j := j s; v := v s; w := w s; tau := tau s; ref := ref s;
     spiked := false; dV := dV s; overshoot := overshoot s;
     ov := ov s; ow := ow s; os := os s |}.

(** [ov = v; ow = w; os = (spiked) ? 1.0f : 0.0f;] *)
Definition write_back (s : vars) : vars :=
  {| j := j s; v := v s; w := w s; tau := tau s; ref := ref s;
     spiked := spiked s; dV := dV s; overshoot := overshoot s;
     ov := v s; ow := w s; os := if spiked s then 1 else 0 |}.

(** The core text of [plan_lif] for a time step [dt0] and [upsample]
    sub-steps: [textconf = dict(upsample=upsample, dt=dt/upsample,
    dt_inv=upsample/dt, V_threshold=1.)]. *)
Definition sub_dt (dt0 : R) (upsample : nat) : R := dt0 / INR upsample.
Definition sub_dt_inv (dt0 : R) (upsample : nat) : R := INR upsample / dt0.

Definition lif_text (dt0 : R) (upsample : nat) (s : vars) : vars :=
  write_back
    (substeps upsample (sub_dt dt0 upsample) (sub_dt_inv dt0 upsample)
              (clear_spiked s)).

(** The state a sub-step leaves: voltage, refractory time and whether it
    spiked. *)
Definition outcome (s : vars) : R * R * bool := (v s, w s, spiked s).



(** A neuron at rest. *)
Definition rest (J tau0 ref0 : R) : vars :=
  {| j := J; v := 0; w := 0; tau := tau0; ref := ref0;
     spiked := false; dV := 0; overshoot := 0; ov := 0; ow := 0; os := 0 |}.

(** *** Facts about the sub-step *)

Lemma Rltb_true a b : a < b -> Rltb a b = true.
Proof. intros H. unfold Rltb. destruct (Rlt_dec a b); [reflexivity|lra]. Qed.

Lemma Rltb_false a b : b <= a -> Rltb a b = false.
Proof. intros H. unfold Rltb. destruct (Rlt_dec a b); [lra|reflexivity]. Qed.

(** Decide the comparisons of the goal whose outcome [lra] can tell. *)
Ltac rltb :=
  repeat match goal with
         | |- context [Rltb ?a ?b] =>
             first [ rewrite (@Rltb_true a b) by lra
                   | rewrite (@Rltb_false a b) by lra ]
         end.

Lemma Rltb_spec a b : reflect (a < b) (Rltb a b).
Proof.
  unfold Rltb. destruct (Rlt_dec a b); constructor; assumption.
Qed.

(** [dt_inv] is the inverse of the sub-step. *)
Lemma sub_dt_inv_inverse dt0 k : sub_dt_inv dt0 k = / sub_dt dt0 k.
Proof. unfold sub_dt_inv, sub_dt. rewrite Rinv_div. reflexivity. Qed.

Lemma substeps_last n dt dt_inv s :
  substeps (S n) dt dt_inv s = substep dt dt_inv (substeps n dt dt_inv s).
Proof.
  revert s. induction n as [|n IH]; intros s; [reflexivity|].
  change (substeps (S (S n)) dt dt_inv s)
    with (substeps (S n) dt dt_inv (substep dt dt_inv s)).
  rewrite IH. reflexivity.
Qed.

Lemma spiked_substep dt dt_inv s :
  spiked (substep dt dt_inv s) = spiked s || crosses dt dt_inv s.
Proof.
  unfold substep, crosses.
  destruct (Rltb V_threshold _); cbn [spiked].
  - rewrite orb_true_r. reflexivity.
  - rewrite orb_false_r. reflexivity.
Qed.

Lemma spiked_substeps n dt dt_inv : forall s,
  spiked (substeps n dt dt_inv s) = true <->
  spiked s = true \/
  exists i, (i < n)%nat /\ crosses dt dt_inv (substeps i dt dt_inv s) = true.
Proof.
  induction n as [|n IH]; intros s.
  - cbn [substeps]. split; [auto|]. intros [H|(i & Hi & _)]; [exact H|lia].
  - rewrite substeps_last, spiked_substep, orb_true_iff, IH. split.
    + intros [[H|(i & Hi & Hc)]|Hc]; auto.
      * right. exists i. split; [lia|exact Hc].
      * right. exists n. split; [lia|exact Hc].
    + intros [H|(i & Hi & Hc)]; auto.
      destruct (Nat.eq_dec i n) as [->|Hne]; auto.
      left. right. exists i. split; [lia|exact Hc].
Qed.

(** The factor of the partial suppression lies between 0 and 1. *)
Lemma suppress_nonneg dt0 k w0 v1 :
  0 <= suppress (sub_dt dt0 k) (sub_dt_inv dt0 k) w0 v1.
Proof.
  unfold suppress. rewrite sub_dt_inv_inverse.
  set (dt := sub_dt dt0 k).
  destruct (Rltb_spec v1 0) as [Hv|Hv]; cbn [orb]; [lra|].
  destruct (Rltb_spec (2 * dt) w0) as [Hw2|Hw2]; [lra|].
  destruct (Rltb_spec dt w0) as [Hw1|Hw1]; [|lra].
  assert (Hdt : 0 < dt) by lra.
  apply Rmult_le_pos; [lra|].
  assert (Hq : (w0 - dt) * / dt <= 1).
  { apply Rmult_le_reg_r with dt; [exact Hdt|].
    rewrite Rmult_assoc, Rinv_l by lra. lra. }
  lra.
Qed.

Lemma substep_range dt0 k s :
  0 <= v (substep (sub_dt dt0 k) (sub_dt_inv dt0 k) s) <= 1.
Proof.
  unfold substep.
  destruct (Rltb_spec V_threshold
              (suppress (sub_dt dt0 k) (sub_dt_inv dt0 k) (w s)
                        (v s + sub_dt dt0 k / tau s * (j s - v s))))
    as [Hc|Hc]; cbn [v].
  - lra.
  - unfold V_threshold in Hc. split; [apply suppress_nonneg|lra].
Qed.



(** C7.  After the [upsample] sub-steps the spike indicator is 1.0 if some
    sub-step took the branch of the spike and 0.0 if none did: it is one
    flag, set by any spike and cleared only before the first sub-step, so
    one tick reports one spike at most; the voltage and the refractory
    time written back are those the last sub-step left. *)
Theorem spike_indicator (dt0 : R) (upsample : nat) (s : vars) :
  let dt := sub_dt dt0 upsample in
  let dt_inv := sub_dt_inv dt0 upsample in
  let s' := lif_text dt0 upsample s in
  ((os s' = 1 /\
    exists i, (i < upsample)%nat /\
              crosses dt dt_inv (substeps i dt dt_inv (clear_spiked s)) = true)
   \/
   (os s' = 0 /\
    forall i, (i < upsample)%nat ->
              crosses dt dt_inv (substeps i dt dt_inv (clear_spiked s)) = false))
  /\ ov s' = v (substeps upsample dt dt_inv (clear_spiked s))
  /\ ow s' = w (substeps upsample dt dt_inv (clear_spiked s)).
Proof.
  intros dt dt_inv s'. subst s'. unfold lif_text. fold dt dt_inv.
  cbn [write_back os ov ow]. split; [|split; reflexivity].
  pose proof (spiked_substeps upsample dt dt_inv (clear_spiked s)) as Hs.
  destruct (spiked (substeps upsample dt dt_inv (clear_spiked s))).
  - left. split; [reflexivity|].
    destruct Hs as [Hs _]. destruct (Hs eq_refl) as [H|H]; [discriminate H|exact H].
  - right. split; [reflexivity|]. intros i Hi.
    destruct (crosses dt dt_inv (substeps i dt dt_inv (clear_spiked s))) eqn:Hc;
      [|reflexivity].
    destruct Hs as [_ Hs]. symmetry. apply Hs. right. exists i. auto.
Qed.

(** Two sub-steps of 1 ms on a resting neuron with [J = 30]: the first
    spikes, the second is suppressed by the refractory time the first one
    set; the indicator written back is 1.0. *)
Example first_substep_spikes :
  let s0 := clear_spiked (rest 30 (2 / 100) (2 / 1000)) in
  crosses (1 / 1000) 1000 s0 = true /\
  crosses (1 / 1000) 1000 (substep (1 / 1000) 1000 s0) = false /\
  os (write_back (substeps 2 (1 / 1000) 1000 s0)) = 1.
Proof.
  cbv zeta.
  assert (H1 : crosses (1 / 1000) 1000
                 (clear_spiked (rest 30 (2 / 100) (2 / 1000))) = true).
  { unfold crosses, suppress, V_threshold, clear_spiked, rest;
      cbn [j v w tau ref]. rltb. cbn [orb]. rltb. reflexivity. }
  assert (H2 : crosses (1 / 1000) 1000
                 (substep (1 / 1000) 1000
                    (clear_spiked (rest 30 (2 / 100) (2 / 1000)))) = false).
  { unfold crosses, substep, suppress, V_threshold, clear_spiked, rest;
      cbn [j v w tau ref]. rltb. cbn [orb]. rltb. cbn [j v w tau ref].
      rltb. cbn [orb]. rltb. reflexivity. }
  split; [exact H1|]. split; [exact H2|].
  cbn [write_back os substeps].
  rewrite !spiked_substep, H1, H2. reflexivity.
Qed.

End LIF.

(* ===================================================================== *)
(** ** The rate rule ([plan_lif_rate])                                    *)
(* ===================================================================== *)

Module LIFRate.

Import Template.

Local Open Scope R_scope.

(** The rule divides by a current that [max(j - 1, 0.0f)] may have made
    zero, so its scalars are the reals with the two infinities and NaN of
    the device's arithmetic.  Rounding is not modelled and every zero is
    the positive one. *)
Inductive xreal : Type :=
| Fin (x : R)
| PInf
| NInf
| NaN.

Definition xneg (a : xreal) : xreal :=
  match a with
  | Fin x => Fin (- x)
  | PInf => NInf
  | NInf => PInf
  | NaN => NaN
  end.

Definition xadd (a b : xreal) : xreal :=
  match a, b with
  | NaN, _ | _, NaN => NaN
  | Fin x, Fin y => Fin (x + y)
  | PInf, NInf | NInf, PInf => NaN
  | PInf, _ | _, PInf => PInf
  | NInf, _ | _, NInf => NInf
  end.

Definition xsub (a b : xreal) : xreal := xadd a (xneg b).

(** The infinity of the sign of [x], NaN for zero. *)
Definition signed_inf (x : R) : xreal :=
  if Rlt_dec 0 x then PInf else if Rlt_dec x 0 then NInf else NaN.

Definition xmul (a b : xreal) : xreal :=
  match a, b with
  | NaN, _ | _, NaN => NaN
  | Fin x, Fin y => Fin (x * y)
  | Fin x, PInf | PInf, Fin x => signed_inf x
  | Fin x, NInf | NInf, Fin x => signed_inf (- x)
  | PInf, PInf | NInf, NInf => PInf
  | PInf, NInf | NInf, PInf => NInf
  end.

Definition xdiv (a b : xreal) : xreal :=
  match a, b with
  | NaN, _ | _, NaN => NaN
  | Fin x, Fin y => if Req_dec_T y 0 then signed_inf x else Fin (x / y)
  | Fin _, PInf | Fin _, NInf => Fin 0
  | PInf, Fin y => if Rlt_dec y 0 then NInf else PInf
  | NInf, Fin y => if Rlt_dec y 0 then PInf else NInf
  | _, _ => NaN
  end.

Definition xlog1p (a : xreal) : xreal :=
  match a with
  | Fin x =>
      if Rlt_dec (-1) x then Fin (ln (1 + x))
      else if Rlt_dec x (-1) then NaN else NInf
  | PInf => PInf
  | NInf => NaN
  | NaN => NaN
  end.

(** OpenCL's [max]: [y] if [x < y], otherwise [x]; left undefined by the
    standard on infinities and NaN, taken as NaN here. *)
Definition xmax (a b : xreal) : xreal :=
  match a, b with
  | Fin x, Fin y => if Rlt_dec x y then Fin y else Fin x
  | _, _ => NaN
  end.

(** The variables of the template: input 0 is [j], output 0 is [r],
    parameter 0 is [tau] and parameter 1 is [ref]. *)
Definition set0 (f : nat -> xreal) (x : xreal) : nat -> xreal :=
  fun k => if (k =? 0)%nat then x else f k.

(** [j = max(j - 1, 0.0f);
     r = %(dt)e / (ref + tau * log1p(1.0/j));] *)
Definition rate_text (dt : R) (r : regs xreal unit) : regs xreal unit :=
  let j1 := xmax (xsub (r_in r 0%nat) (Fin 1)) (Fin 0) in
  let r1 :=
    xdiv (Fin dt)
         (xadd (r_par r 1%nat)
               (xmul (r_par r 0%nat) (xlog1p (xdiv (Fin 1) j1)))) in
  {| r_in := set0 (r_in r) j1;
     r_out := set0 (r_out r) r1;
     r_par := r_par r;
     r_loc := r_loc r |}.

(** The rate in the words of the specification:
    [1 / (ref + tau*log1p(1/max(J-1, 0)))]. *)
Definition rate_claimed (J tau ref : xreal) : xreal :=
  xdiv (Fin 1)
       (xadd ref (xmul tau (xlog1p (xdiv (Fin 1)
                                         (xmax (xsub J (Fin 1)) (Fin 0)))))).

(** The same for one time step: [dt / (ref + tau*log1p(1/max(J-1, 0)))]. *)
Definition rate_per_step (dt : R) (J tau ref : xreal) : xreal :=
  xdiv (Fin dt)
       (xadd ref (xmul tau (xlog1p (xdiv (Fin 1)
                                         (xmax (xsub J (Fin 1)) (Fin 0)))))).

(** The value a parameter takes at element [m] of row [n]. *)
Definition par_at (a : ragged xreal) (n m : nat) : xreal :=
  if (1 <? idx (cl_shape0s a) n)%nat
  then cl_buf a (idx (cl_starts a) n + m)%nat
  else cl_buf a (idx (cl_starts a) n).

Definition in_at (a : ragged xreal) (n m : nat) : xreal :=
  cl_buf a (idx (cl_starts a) n + m)%nat.

(** [plan_lif_rate] in the Block regime ([n_elements=0], its default):
    inputs [j=J], outputs [r=R], parameters [tau] and [ref]. *)
Definition lif_rate_block (dt : R) (J : ragged xreal) (R_starts : list nat)
    (tau ref : ragged xreal) (junk : nat -> nat -> regs xreal unit)
  : list (event xreal unit) :=
  block_kernel (rate_text dt) [J] [R_starts] [tau; ref] (cl_shape0s J) junk.

(** [plan_lif_rate] in the Flattened regime. *)
Definition lif_rate_flat (dt : R) (J : ragged xreal) (R_starts : list nat)
    (tau ref : ragged xreal) (n_elements : nat)
    (junk : nat -> regs xreal unit)
  : option (list (event xreal unit)) :=
  flat_kernel (rate_text dt) [J] [R_starts] [tau; ref] (cl_shape0s J)
              n_elements junk.

(** The stores the rule is to issue: for every element of every row, the
    rate of its current and of its row's parameters. *)
Definition rate_stores (dt : R) (J : ragged xreal) (R_starts : list nat)
    (tau ref : ragged xreal) : list (store xreal) :=
  map (fun c =>
         Store 0 (idx R_starts (fst c) + snd c)%nat
               (rate_per_step dt (in_at J (fst c) (snd c))
                              (par_at tau (fst c) (snd c))
                              (par_at ref (fst c) (snd c))))
      (elems (cl_shape0s J)).

(** *** The stores of the rule *)

Lemma rate_text_const_par dt (pvars : list (ragged xreal)) :
  forall r k, (k < length pvars)%nat -> r_par (rate_text dt r) k = r_par r k.
Proof. intros r k _. reflexivity. Qed.

Lemma rate_text_out dt r :
  r_out (rate_text dt r) 0%nat
  = rate_per_step dt (r_in r 0%nat) (r_par r 0%nat) (r_par r 1%nat).
Proof. reflexivity. Qed.

Lemma loaded_rate_stores dt J R_starts tau ref e :
  loaded (rate_text dt) [J] [R_starts] [tau; ref] (cl_shape0s J) e ->
  ev_stores e =
  [Store 0 (idx R_starts (ev_n e) + ev_m e)%nat
         (rate_per_step dt (in_at J (ev_n e) (ev_m e))
                        (par_at tau (ev_n e) (ev_m e))
                        (par_at ref (ev_n e) (ev_m e)))].
Proof.
  intros (Hi & Hp & _ & Hs). rewrite Hs.
  unfold block_stores. cbn [length seq map nth].
  rewrite rate_text_out.
  rewrite (Hi 0%nat J eq_refl), (Hp 0%nat tau eq_refl), (Hp 1%nat ref eq_refl).
  reflexivity.
Qed.

Lemma rate_stores_by_coords dt J R_starts tau ref evs :
  Forall (loaded (rate_text dt) [J] [R_starts] [tau; ref] (cl_shape0s J)) evs ->
  stores_of evs =
  map (fun c =>
         Store 0 (idx R_starts (fst c) + snd c)%nat
               (rate_per_step dt (in_at J (fst c) (snd c))
                              (par_at tau (fst c) (snd c))
                              (par_at ref (fst c) (snd c))))
      (coords evs).
Proof.
  induction 1 as [|e evs He _ IH]; [reflexivity|].
  unfold stores_of, coords in *. cbn [flat_map map fst snd].
  rewrite IH, (loaded_rate_stores He). reflexivity.
Qed.

(** The Flattened launch of the rule issues the same stores on a batch
    without empty rows. *)
Lemma lif_rate_flat_stores dt J R_starts tau ref n_elements junk :
  (1 <= n_elements)%nat ->
  Forall (fun l => (1 <= l)%nat) (cl_shape0s J) ->
  exists evs,
    lif_rate_flat dt J R_starts tau ref n_elements junk = Some evs /\
    stores_of evs = rate_stores dt J R_starts tau ref.
Proof.
  intros Hne Hpos.
  destruct (@flat_kernel_coords xreal unit (rate_text dt) [J] [R_starts]
              [tau; ref] (cl_shape0s J) n_elements
              (@rate_text_const_par dt [tau; ref]) Hne Hpos junk)
    as (evs & Hrun & Hl & Hc).
  exists evs. split; [exact Hrun|].
  rewrite (rate_stores_by_coords Hl), Hc. reflexivity.
Qed.

(** *** The rate in closed form *)

Lemma signed_inf_pos x : 0 < x -> signed_inf x = PInf.
Proof.
  intros H. unfold signed_inf. destruct (Rlt_dec 0 x); [reflexivity|lra].
Qed.

Lemma current_above J :
  1 < J -> xmax (xsub (Fin J) (Fin 1)) (Fin 0) = Fin (J - 1).
Proof.
  intros H. cbn [xsub xneg xadd xmax].
  destruct (Rlt_dec _ 0); [lra|]. reflexivity.
Qed.

Lemma current_below J :
  J <= 1 -> xmax (xsub (Fin J) (Fin 1)) (Fin 0) = Fin 0.
Proof.
  intros H. cbn [xsub xneg xadd xmax].
  destruct (Rlt_dec _ 0); [reflexivity|]. f_equal. lra.
Qed.

(** Above the threshold current the rule is the formula over the reals. *)
Lemma rate_above dt J tau ref :
  1 < J ->
  ref + tau * ln (1 + 1 / (J - 1)) <> 0 ->
  rate_per_step dt (Fin J) (Fin tau) (Fin ref)
  = Fin (dt / (ref + tau * ln (1 + 1 / (J - 1)))).
Proof.
  intros HJ Hden. unfold rate_per_step. rewrite (current_above HJ).
  cbn [xdiv]. destruct (Req_dec_T (J - 1) 0) as [E|_]; [lra|].
  assert (Hq : 0 < 1 / (J - 1)).
  { apply Rdiv_lt_0_compat; lra. }
  cbn [xlog1p]. destruct (Rlt_dec (-1) (1 / (J - 1))); [|lra].
  cbn [xmul xadd xdiv].
  destruct (Req_dec_T (ref + tau * ln (1 + 1 / (J - 1))) 0); [contradiction|].
  reflexivity.
Qed.

(** At or below it the quotient [1.0/j] is infinite and, for a positive
    [tau], the rate is zero. *)
Lemma rate_below dt J tau ref :
  J <= 1 -> 0 < tau ->
  rate_per_step dt (Fin J) (Fin tau) (Fin ref) = Fin 0.
Proof.
  intros HJ Htau. unfold rate_per_step. rewrite (current_below HJ).
  cbn [xdiv]. destruct (Req_dec_T 0 0) as [_|E]; [|contradiction].
  rewrite signed_inf_pos by lra. cbn [xlog1p xmul].
  rewrite signed_inf_pos by exact Htau. reflexivity.
Qed.

Lemma ln_2_pos : 0 < ln 2.
Proof. rewrite <- ln_1. apply ln_increasing; lra. Qed.

(** C3 (amended).  The rule writes, to every element of every row of [R],
    [dt / (ref + tau*log1p(1/max(J-1, 0)))] for the element's current and
    its row's parameters, scalar or per element: the analytic rate counted
    per time step, computed in one evaluation from the current and the
    parameters alone. *)
Theorem lif_rate_writes_rate_per_step (dt : R) (J : ragged xreal)
    (R_starts : list nat) (tau ref : ragged xreal)
    (junk : nat -> nat -> regs xreal unit) :
  stores_of (lif_rate_block dt J R_starts tau ref junk)
  = rate_stores dt J R_starts tau ref.
Proof.
  unfold lif_rate_block, rate_stores.
  rewrite (@rate_stores_by_coords dt J R_starts tau ref _
             (block_kernel_loaded (rate_text dt) [J] [R_starts] [tau; ref]
                                  (cl_shape0s J) junk)).
  rewrite block_kernel_coords. reflexivity.
Qed.

(** C3 as stated fails: for [J = 2], [tau = 0.02], [ref = 0.002] and
    [dt = 0.001] the rule computes [0.001 / (0.002 + 0.02*ln 2)], not
    [1 / (0.002 + 0.02*ln 2)]. *)
Lemma rate_not_as_claimed :
  rate_per_step (1 / 1000) (Fin 2) (Fin (2 / 100)) (Fin (2 / 1000))
  <> rate_claimed (Fin 2) (Fin (2 / 100)) (Fin (2 / 1000)).
Proof.
  pose proof ln_2_pos as Hln.
  assert (H21 : 1 + 1 / (2 - 1) = 2) by lra.
  assert (Hden : 0 < 2 / 1000 + 2 / 100 * ln 2) by nra.
  rewrite rate_above by (rewrite ?H21; lra).
  change (rate_claimed (Fin 2) (Fin (2 / 100)) (Fin (2 / 1000)))
    with (rate_per_step 1 (Fin 2) (Fin (2 / 100)) (Fin (2 / 1000))).
  rewrite rate_above by (rewrite ?H21; lra).
  rewrite H21. intros H. injection H as H.
  pose proof (Rinv_0_lt_compat _ Hden) as Hinv.
  unfold Rdiv in H. nra.
Qed.

End LIFRate.

(* ===================================================================== *)
(** ** The LIF kernel as it is rendered ([plan_lif])                      *)
(* ===================================================================== *)

Module LIFDevice.

Import LIFRate.

Local Open Scope R_scope.

(** The text of the kernel holds two decimals, [${dt}] and [${dt_inv}]:
    [textconf] computes [dt/upsample] and [upsample/dt] and the template
    engine writes each with the digits Python gives a float, so the second
    need not be the inverse of the first ([0.375] goes with
    [2.66666666667]).  The kernel divides by [tau] and by [dV], which can
    be zero: its scalars are the reals with the infinities and NaN.
    Rounding of the operations, and overflow, are not modelled. *)

(** [a < b] on the device: false when one of the two is NaN. *)
Definition xlt (a b : xreal) : bool :=
  match a, b with
  | Fin x, Fin y => if Rlt_dec x y then true else false
  | NInf, Fin _ => true
  | NInf, PInf => true
  | Fin _, PInf => true
  | _, _ => false
  end.

(** The variables of the core text, as in [LIF.vars]. *)
Record vars : Type := Vars {
  j : xreal; v : xreal; w : xreal;
  tau : xreal; ref : xreal;
  spiked : bool; dV : xreal; overshoot : xreal;
  ov : xreal; ow : xreal; os : xreal
}.

Section Kernel.

(** The division of the device.  The results below use it on finite
    operands with a divisor that is not zero, where it is the quotient;
    nothing is asked of a division by zero (its sign depends on the sign of
    the zero). *)
Variable quot : xreal -> xreal -> xreal.

(** The decimals [${dt}] and [${dt_inv}] of the rendered text. *)
Variables dt dt_inv : R.

(** [if (v < 0 || w > 2*${dt}) v = 0;
     else if (w > ${dt}) v *= 1.0 - (w - ${dt}) * ${dt_inv};] *)
Definition suppress (w0 v1 : xreal) : xreal :=
  if xlt v1 (Fin 0) || xlt (xmul (Fin 2) (Fin dt)) w0 then Fin 0
  else if xlt (Fin dt) w0
       then xmul v1 (xsub (Fin 1) (xmul (xsub w0 (Fin dt)) (Fin dt_inv)))
       else v1.

(** The text rendered for one [ii] of [% for ii in range(upsample)], with
    [${V_threshold}] rendered as [1.0]. *)
Definition substep (s : vars) : vars :=
  let dV1 := xmul (quot (Fin dt) (tau s)) (xsub (j s) (v s)) in
  let v1 := xadd (v s) dV1 in
  let v2 := suppress (w s) v1 in
  if xlt (Fin 1) v2 then
    let overshoot1 := quot (xmul (Fin dt) (xsub v2 (Fin 1))) dV1 in
    {| j := j s; v := Fin 0;
       w := xadd (xsub (ref s) overshoot1) (Fin dt);
       tau := tau s; ref := ref s;
       spiked := true; dV := dV1; overshoot := overshoot1;
       ov := ov s; ow := ow s; os := os s |}
  else
    {| j := j s; v := v2; w := xsub (w s) (Fin dt);
       tau := tau s; ref := ref s;
       spiked := spiked s; dV := dV1; overshoot := overshoot s;
       ov := ov s; ow := ow s; os := os s |}.

Fixpoint substeps (n : nat) (s : vars) : vars :=
  match n with
  | O => s
  | S n' => substeps n' (substep s)
  end.

(** [spiked = 0;] *)
Definition clear_spiked (s : vars) : vars :=
  {| j := j s; v := v s; w := w s; tau := tau s; ref := ref s;
     spiked := false; dV := dV s; overshoot := overshoot s;
     ov := ov s; ow := ow s; os := os s |}.

(** [ov = v; ow = w; os = (spiked) ? 1.0f : 0.0f;] *)
Definition write_back (s : vars) : vars :=
  {| j := j s; v := v s; w := w s; tau := tau s; ref := ref s;
     spiked := spiked s; dV := dV s; overshoot := overshoot s;
     ov := v s; ow := w s; os := if spiked s then Fin 1 else Fin 0 |}.

(** The core text for [upsample] sub-steps. *)
Definition lif_text (upsample : nat) (s : vars) : vars :=
  write_back (substeps upsample (clear_spiked s)).

(** *** The voltage a sub-step leaves *)

Lemma xlt_fin a b : xlt (Fin a) (Fin b) = true <-> a < b.
Proof.
  cbn [xlt]. destruct (Rlt_dec a b); split; intros H;
    try reflexivity; try assumption; try discriminate. contradiction.
Qed.

Lemma xlt_fin_false a b : xlt (Fin a) (Fin b) = false <-> b <= a.
Proof.
  cbn [xlt]. destruct (Rlt_dec a b); split; intros H;
    try reflexivity; try discriminate; lra.
Qed.

(** The factor of the partial suppression is not negative when the two
    decimals multiply to 1 at most. *)
Lemma factor_nonneg W :
  dt * dt_inv <= 1 -> dt < W <= 2 * dt ->
  0 <= 1 + - ((W + - dt) * dt_inv).
Proof.
  intros Hprod [H1 H2]. destruct (Rle_dec dt_inv 0) as [Hi|Hi]; nra.
Qed.

Lemma suppress_finite w0 x :
  dt * dt_inv <= 1 ->
  exists y, suppress w0 (Fin x) = Fin y /\ 0 <= y /\ (x < 0 -> y = 0).
Proof.
  intros Hprod. unfold suppress.
  destruct (xlt (Fin x) (Fin 0)) eqn:Hx; cbn [orb].
  - exists 0. split; [reflexivity|]. split; [lra|reflexivity].
  - apply xlt_fin_false in Hx.
    destruct (xlt (xmul (Fin 2) (Fin dt)) w0) eqn:H2.
    + exists 0. split; [reflexivity|]. split; lra.
    + destruct (xlt (Fin dt) w0) eqn:H1.
      * destruct w0 as [W| | |]; cbn [xmul] in H2; try discriminate.
        apply xlt_fin_false in H2. apply xlt_fin in H1.
        cbn [xsub xneg xadd xmul].
        exists (x * (1 + - ((W + - dt) * dt_inv))).
        split; [reflexivity|]. split; [|lra].
        apply Rmult_le_pos; [exact Hx|]. apply factor_nonneg; lra.
      * exists x. split; [reflexivity|]. split; lra.
Qed.

Section Division.

Hypothesis quot_finite :
  forall x y, y <> 0 -> quot (Fin x) (Fin y) = Fin (x / y).

Lemma integrated (s : vars) (J V T : R) :
  j s = Fin J -> v s = Fin V -> tau s = Fin T -> T <> 0 ->
  xadd (v s) (xmul (quot (Fin dt) (tau s)) (xsub (j s) (v s)))
  = Fin (V + dt / T * (J + - V)).
Proof.
  intros -> -> -> HT. rewrite (quot_finite dt HT). reflexivity.
Qed.

Lemma substep_finite (s : vars) (J V T : R) :
  dt * dt_inv <= 1 ->
  j s = Fin J -> v s = Fin V -> tau s = Fin T -> T <> 0 ->
  j (substep s) = Fin J /\ tau (substep s) = Fin T /\
  exists y, v (substep s) = Fin y /\ 0 <= y <= 1.
Proof.
  intros Hprod Hj Hv Ht HT. unfold substep.
  rewrite (integrated s Hj Hv Ht HT).
  destruct (suppress_finite (w s) (V + dt / T * (J + - V)) Hprod)
    as (y & Hy & Hy0 & _).
  rewrite Hy. destruct (xlt (Fin 1) (Fin y)) eqn:Hc; cbn [j tau v].
  - split; [exact Hj|]. split; [exact Ht|].
    exists 0. split; [reflexivity|lra].
  - apply xlt_fin_false in Hc. split; [exact Hj|]. split; [exact Ht|].
    exists y. split; [reflexivity|lra].
Qed.

Lemma substeps_finite n : forall (s : vars) (J V T : R),
  dt * dt_inv <= 1 ->
  j s = Fin J -> v s = Fin V -> tau s = Fin T -> T <> 0 ->
  exists y, v (substeps (S n) s) = Fin y /\ 0 <= y <= 1.
Proof.
  induction n as [|n IH]; intros s J V T Hprod Hj Hv Ht HT;
    destruct (substep_finite s Hprod Hj Hv Ht HT) as (Hj' & Ht' & y & Hy & Hr).
  - exists y. split; [exact Hy|exact Hr].
  - change (substeps (S (S n)) s) with (substeps (S n) (substep s)).
    exact (IH (substep s) J y T Hprod Hj' Hy Ht' HT).
Qed.

(** C10 (amended).  With at least one sub-step, a finite input current, a
    finite voltage, a finite [tau] that is not zero and decimals [${dt}]
    and [${dt_inv}] whose product is 1 at most, the voltage written back is
    finite and lies in [0, 1], whatever the refractory time and [ref] are;
    and a sub-step whose integrated voltage is negative leaves the voltage
    0 whatever the refractory time is. *)
Theorem output_voltage_in_range (upsample : nat) (s : vars) (J V T : R) :
  (1 <= upsample)%nat ->
  dt * dt_inv <= 1 ->
  j s = Fin J -> v s = Fin V -> tau s = Fin T -> T <> 0 ->
  (exists y, ov (lif_text upsample s) = Fin y /\ 0 <= y <= 1) /\
  forall (s0 : vars) (J0 V0 T0 : R),
    j s0 = Fin J0 -> v s0 = Fin V0 -> tau s0 = Fin T0 -> T0 <> 0 ->
    V0 + dt / T0 * (J0 - V0) < 0 ->
    v (substep s0) = Fin 0.
Proof.
  intros Hk Hprod Hj Hv Ht HT. split.
  - unfold lif_text. cbn [write_back ov].
    destruct upsample as [|n]; [lia|].
    exact (@substeps_finite n (clear_spiked s) J V T Hprod Hj Hv Ht HT).
  - intros s0 J0 V0 T0 Hj0 Hv0 Ht0 HT0 Hneg. unfold substep.
    rewrite (integrated s0 Hj0 Hv0 Ht0 HT0).
    destruct (suppress_finite (w s0) (V0 + dt / T0 * (J0 + - V0)) Hprod)
      as (y & Hy & _ & Hzero).
    rewrite Hy, Hzero by (unfold Rminus in Hneg; exact Hneg).
    assert (Hc : xlt (Fin 1) (Fin 0) = false) by (apply xlt_fin_false; lra).
    rewrite Hc. reflexivity.
Qed.

End Division.

End Kernel.

(** A neuron with the voltage [V0] and the refractory time [W0]. *)
Definition neuron (J V0 W0 tau0 ref0 : R) : vars :=
  {| j := Fin J; v := Fin V0; w := Fin W0; tau := Fin tau0; ref := Fin ref0;
     spiked := false; dV := Fin 0; overshoot := Fin 0;
     ov := Fin 0; ow := Fin 0; os := Fin 0 |}.

Lemma xdiv_finite x y : y <> 0 -> xdiv (Fin x) (Fin y) = Fin (x / y).
Proof.
  intros Hy. cbn [xdiv]. destruct (Req_dec_T y 0); [contradiction|reflexivity].
Qed.

Lemma output_voltage_in_range_witness :
  (exists y, ov (lif_text xdiv (1 / 1000) 1000 2
                          (neuron 2 0 0 (2 / 100) (2 / 1000))) = Fin y /\
             0 <= y <= 1) /\
  forall (s0 : vars) (J0 V0 T0 : R),
    j s0 = Fin J0 -> v s0 = Fin V0 -> tau s0 = Fin T0 -> T0 <> 0 ->
    V0 + (1 / 1000) / T0 * (J0 - V0) < 0 ->
    v (substep xdiv (1 / 1000) 1000 s0) = Fin 0.
Proof.
  apply (@output_voltage_in_range xdiv (1 / 1000) 1000 xdiv_finite 2
           (neuron 2 0 0 (2 / 100) (2 / 1000)) 2 0 (2 / 100));
    try reflexivity; try lia; lra.
Defined.

(** C10 as stated fails.  For a step of 0.375 with [upsample = 1] the
    text holds the decimals [0.375] and [2.66666666667], of product above
    1: a neuron with [V = J = 0.5] whose refractory time is two sub-steps
    gets the factor [1 - 0.375 * 2.66666666667], which is negative, after
    the test [v < 0], and the voltage written back is negative.  And for
    [tau = 0] and [V = J] the kernel multiplies the infinite [dt / tau] by
    zero and writes back NaN. *)
Lemma output_voltage_out_of_range :
  (exists y,
      ov (lif_text xdiv (375 / 1000) (266666666667 / 100000000000) 1
                   (neuron (1 / 2) (1 / 2) (750 / 1000) 1 (2 / 1000)))
      = Fin y /\ y < 0) /\
  ov (lif_text xdiv (1 / 1000) 1000 1 (neuron (1 / 2) (1 / 2) 0 0 (2 / 1000)))
  = NaN.
Proof.
  split.
  - exists (1 / 2 * (1 + - ((750 / 1000 + - (375 / 1000))
                            * (266666666667 / 100000000000)))).
    split; [|lra].
    unfold lif_text, neuron, clear_spiked. cbn [write_back ov substeps].
    unfold substep. cbn [j v w tau ref].
    rewrite xdiv_finite by lra. cbn [xsub xneg xadd xmul].
    unfold suppress. cbn [xmul xlt].
    destruct (Rlt_dec (1 / 2 + 375 / 1000 / 1 * (1 / 2 + - (1 / 2))) 0);
      [lra|].
    destruct (Rlt_dec (2 * (375 / 1000)) (750 / 1000)); [lra|].
    destruct (Rlt_dec (375 / 1000) (750 / 1000)); [|lra].
    cbn [orb xsub xneg xadd xmul xlt].
    destruct (Rlt_dec 1 _) as [H|_]; [lra|]. cbn [v].
    f_equal. lra.
  - unfold lif_text, neuron, clear_spiked. cbn [write_back ov substeps].
    unfold substep. cbn [j v w tau ref]. cbn [xdiv].
    destruct (Req_dec_T 0 0) as [_|H]; [|contradiction].
    rewrite signed_inf_pos by lra. cbn [xsub xneg xadd xmul].
    unfold signed_inf.
    destruct (Rlt_dec 0 (1 / 2 + - (1 / 2))); [lra|].
    destruct (Rlt_dec (1 / 2 + - (1 / 2)) 0); [lra|].
    cbn [xadd]. unfold suppress. cbn [xlt orb xmul].
    destruct (Rlt_dec (2 * (1 / 1000)) 0); [lra|].
    destruct (Rlt_dec (1 / 1000) 0); [lra|]. cbn [xlt v]. reflexivity.
Qed.

End LIFDevice.

(* ===================================================================== *)
(** ** The checks of [_plan_template]                                     *)
(* ===================================================================== *)

Module PlanBuild.

Import String.

(** What the checks read of a [CLRaggedArray]: for every row its
    [shape0s] and [shape1s] entries. *)
Record clra : Type := Clra { rows : list (nat * nat) }.

Definition len (a : clra) : nat := List.length (rows a).
Definition shape0s (a : clra) : list nat := map fst (rows a).
Definition shape1s (a : clra) : list nat := map snd (rows a).

(** A value of the [parameters] dictionary: a [CLRaggedArray], something
    [float(v)] accepts, or something on which it raises [TypeError]. *)
Inductive pvalue : Type :=
| PArray (a : clra)
| PFloat
| PBad.

Inductive error : Type :=
| IndexError
| TypeError
| ValueError
| AssertionError (msg : option string).

(** What is kept of the [Plan]: its name and its launch geometry. *)
Record plan : Type := Plan {
  plan_name : string;
  plan_gsize : list nat
}.

Definition result (A : Type) : Type := (error + A)%type.

Definition ret {A : Type} (x : A) : result A := inr x.

Definition bind {A B : Type} (m : result A) (f : A -> result B) : result B :=
  match m with
  | inl e => inl e
  | inr x => f x
  end.

Notation "x <- m ;; f" := (bind m (fun x => f))
  (at level 61, m at next level, right associativity).
Notation "m ;;; f" := (bind m (fun _ => f))
  (at level 61, right associativity).

(** [assert cond, msg] *)
Definition assert (cond : bool) (msg : option string) : result unit :=
  if cond then ret tt else inl (AssertionError msg).

Definition dec (n : nat) : string :=
  DecimalString.NilEmpty.string_of_uint (Nat.to_uint n).

(** ["%s.shape0s[%d] must be 1 or %d (not %d)" %
     (vname, i, base.shape0s[i], v.shape0s[i])] *)
Definition shape_message (vname : string) (i b a : nat) : string :=
  (vname ++ ".shape0s[" ++ dec i ++ "] must be 1 or " ++ dec b
         ++ " (not " ++ dec a ++ ")")%string.

Definition name_in (x : string) (l : list string) : bool :=
  existsb (String.eqb x) l.

(** [all_equal(a, b)] on two integer lists. *)
Definition all_equal (a b : list nat) : bool :=
  if list_eq_dec Nat.eq_dec a b then true else false.

(** The split of [parameters] into the arrays and the constants (of which
    nothing is needed here), in the order the dictionary is iterated. *)
Fixpoint split_params (ps : list (string * pvalue))
  : result (list (string * clra)) :=
  match ps with
  | [] => ret []
  | (k, PArray a) :: rest =>
      params <- split_params rest ;; ret ((k, a) :: params)
  | (_, PFloat) :: rest => split_params rest
  | (_, PBad) :: _ => inl TypeError
  end.

(** The loop over [inputs.items() + outputs.items()]. *)
Fixpoint check_io (base : clra) (avars : list string)
    (vs : list (string * clra)) : result (list string) :=
  match vs with
  | [] => ret avars
  | (vname, v) :: rest =>
      assert (negb (name_in vname avars)) (Some "Name clash"%string) ;;;
      assert (len v =? len base) None ;;;
      assert (all_equal (shape0s v) (shape0s base)) None ;;;
      assert (forallb (fun s => s =? 1) (shape1s v)) None ;;;
      check_io base (vname :: avars) rest
  end.

(** [for i in xrange(N): ...] on one parameter. *)
Fixpoint check_rows (vname : string) (base v : clra) (todo : list nat)
  : result unit :=
  match todo with
  | [] => ret tt
  | i :: rest =>
      let a := nth i (shape0s v) 0 in
      let b := nth i (shape0s base) 0 in
      assert ((a =? b) || (a =? 1)) (Some (shape_message vname i b a)) ;;;
      assert (nth i (shape1s v) 0 =? 1) None ;;;
      check_rows vname base v rest
  end.

(** The loop over [params.items()]. *)
Fixpoint check_params (base : clra) (avars : list string)
    (ps : list (string * clra)) : result (list string) :=
  match ps with
  | [] => ret avars
  | (vname, v) :: rest =>
      assert (negb (name_in vname avars)) (Some "Name clash"%string) ;;;
      assert (len v =? len base) None ;;;
      check_rows vname base v (seq 0 (len base)) ;;;
      check_params base (vname :: avars) rest
  end.

(** [gsize]: the exact count of chunks for [n_elements > 0], the longest
    row by the row count otherwise ([np.max] raises on no row). *)
Definition launch_geometry (base : clra) (n_elements : nat)
  : result (list nat) :=
  if 0 <? n_elements then
    ret [(list_sum (shape0s base) + n_elements - 1) / n_elements]
  else
    match shape0s base with
    | [] => inl ValueError
    | _ => ret [fold_right Nat.max 0 (shape0s base); len base]
    end.

(** [_plan_template], up to the plan it returns. *)
Definition plan_template (name : string) (n_elements : nat)
    (inputs outputs : list (string * clra))
    (parameters : list (string * pvalue)) : result plan :=
  match inputs with
  | [] => inl IndexError
  | (_, base) :: _ =>
      params <- split_params parameters ;;
      avars <- check_io base [] (inputs ++ outputs)%list ;;
      _ <- check_params base avars params ;;
      gsize <- launch_geometry base n_elements ;;
      ret (Plan name gsize)
  end.

(** Row [i] of parameter [v] is neither a scalar nor as long as row [i] of
    the base. *)
Definition bad_row (base v : clra) (i : nat) : Prop :=
  i < len base /\ i < len v /\
  nth i (shape0s v) 0 <> nth i (shape0s base) 0 /\
  nth i (shape0s v) 0 <> 1.

(** The other checks on a parameter pass: its name is new, it has the
    rows of the base and its rows are vectors. *)
Definition well_shaped (base v : clra) : Prop :=
  len v = len base /\ Forall (fun s => s = 1) (shape1s v).

(** Row [i] of parameter [v] passes both assertions of the loop. *)
Definition row_ok (base v : clra) (i : nat) : Prop :=
  (nth i (shape0s v) 0 = nth i (shape0s base) 0 \/ nth i (shape0s v) 0 = 1) /\
  nth i (shape1s v) 0 = 1.

(** Two ensembles of 3 and 4 neurons; [tau] has a row of 2 values for the
    second one. *)
Definition J_ex : clra := Clra [(3, 1); (4, 1)].
Definition tau_short : clra := Clra [(3, 1); (2, 1)].
(** The same with a first row that is a 3-by-2 matrix. *)
Definition tau_matrix : clra := Clra [(3, 2); (2, 1)].

(** *** Facts about the checks *)

Lemma bind_inl {A B : Type} (m : result A) (f : A -> result B) e :
  m = inl e -> bind m f = inl e.
Proof. intros ->. reflexivity. Qed.

Lemma bind_fails {A B : Type} (m : result A) (f : A -> result B) :
  (forall x, exists e, f x = inl e) -> exists e, bind m f = inl e.
Proof.
  intros Hf. destruct m as [e|x]; [exists e; reflexivity|apply Hf].
Qed.

Lemma assert_true msg : assert true msg = ret tt.
Proof. reflexivity. Qed.

Lemma check_rows_refuses vname base v i : forall todo,
  In i todo ->
  nth i (shape0s v) 0 <> nth i (shape0s base) 0 ->
  nth i (shape0s v) 0 <> 1 ->
  exists e, check_rows vname base v todo = inl e.
Proof.
  induction todo as [|i' todo IH]; intros Hin Hb H1; [destruct Hin|].
  cbn [check_rows]. destruct Hin as [->|Hin].
  - apply Nat.eqb_neq in Hb, H1. rewrite Hb, H1. cbn.
    eexists. reflexivity.
  - apply bind_fails. intros _. apply bind_fails. intros _. apply IH; auto.
Qed.

Lemma check_rows_reports vname base v i : forall n s,
  s <= i < s + n ->
  (forall i', s <= i' < i -> row_ok base v i') ->
  nth i (shape0s v) 0 <> nth i (shape0s base) 0 ->
  nth i (shape0s v) 0 <> 1 ->
  check_rows vname base v (seq s n)
  = inl (AssertionError
           (Some (shape_message vname i (nth i (shape0s base) 0)
                                (nth i (shape0s v) 0)))).
Proof.
  induction n as [|n IH]; intros s Hi Hok Hb H1; [lia|].
  cbn [seq check_rows].
  destruct (Nat.eq_dec s i) as [->|Hne].
  - apply Nat.eqb_neq in Hb, H1. rewrite Hb, H1. reflexivity.
  - destruct (Hok s) as (H0 & Hs1); [lia|].
    assert (Hc : (nth s (shape0s v) 0 =? nth s (shape0s base) 0)
                 || (nth s (shape0s v) 0 =? 1) = true).
    { apply orb_true_iff. destruct H0 as [H0|H0]; [left|right];
        apply Nat.eqb_eq; exact H0. }
    rewrite Hc, Hs1, Nat.eqb_refl. cbn [assert ret bind orb].
    apply IH; auto; try lia. intros i' Hi'. apply Hok. lia.
Qed.

Lemma check_params_app base : forall pre avars rest,
  check_params base avars (pre ++ rest)
  = bind (check_params base avars pre)
         (fun avars' => check_params base avars' rest).
Proof.
  induction pre as [|[vname v] pre IH]; intros avars rest; [reflexivity|].
  cbn [app check_params].
  destruct (assert (negb (name_in vname avars)) (Some "Name clash"%string))
    as [e|[]]; [reflexivity|].
  destruct (assert (len v =? len base) None) as [e|[]]; [reflexivity|].
  destruct (check_rows vname base v (seq 0 (len base))) as [e|[]];
    [reflexivity|].
  cbn [bind]. apply IH.
Qed.

Lemma check_params_refuses base vname v i : forall ps avars,
  In (vname, v) ps -> bad_row base v i ->
  exists e, check_params base avars ps = inl e.
Proof.
  induction ps as [|[vname' v'] ps IH]; intros avars Hin Hbad;
    [destruct Hin|].
  cbn [check_params]. destruct Hin as [E|Hin].
  - injection E as -> ->. destruct Hbad as (Hi & _ & Hb & H1).
    apply bind_fails. intros _. apply bind_fails. intros _.
    destruct (@check_rows_refuses vname base v i (seq 0 (len base)))
      as (e & He); auto.
    + apply in_seq. lia.
    + exists e. rewrite He. reflexivity.
  - do 3 (apply bind_fails; intros _). apply IH; auto.
Qed.

Lemma split_params_keeps vname v : forall parameters params,
  In (vname, PArray v) parameters ->
  split_params parameters = inr params ->
  In (vname, v) params.
Proof.
  induction parameters as [|[k pv] parameters IH]; intros params Hin Hs;
    [destruct Hin|].
  cbn [split_params] in Hs. destruct Hin as [E|Hin].
  - injection E as -> ->.
    destruct (split_params parameters) as [e|ps]; [discriminate|].
    injection Hs as <-. left. reflexivity.
  - destruct pv as [a| |]; [|eauto|discriminate].
    destruct (split_params parameters) as [e|ps]; [discriminate|].
    injection Hs as <-. right. eauto.
Qed.

(** C8 (amended).  If an array parameter has a row that is neither a
    scalar nor as long as the base row, [_plan_template] raises and builds
    no plan; and when the checks that come first pass (the constants
    convert, the inputs and outputs and the parameters before it are
    accepted, its name is new, it has as many rows as the base and its rows
    before [i], the first such row, are accepted), the error is the
    assertion whose message gives the parameter's name, the row index [i],
    the base row length and the parameter row length. *)
Theorem bad_row_refused (name : string) (n_elements : nat)
    (bname : string) (base : clra) (inputs outputs : list (string * clra))
    (parameters : list (string * pvalue))
    (vname : string) (v : clra) (i : nat) :
  In (vname, PArray v) parameters ->
  bad_row base v i ->
  (exists e,
      plan_template name n_elements ((bname, base) :: inputs) outputs
                    parameters = inl e) /\
  (forall pre post avars avars',
      split_params parameters = inr (pre ++ (vname, v) :: post)%list ->
      check_io base [] (((bname, base) :: inputs) ++ outputs)%list = inr avars ->
      check_params base avars pre = inr avars' ->
      name_in vname avars' = false ->
      len v = len base ->
      (forall i', i' < i -> row_ok base v i') ->
      plan_template name n_elements ((bname, base) :: inputs) outputs
                    parameters
      = inl (AssertionError
               (Some (shape_message vname i (nth i (shape0s base) 0)
                                    (nth i (shape0s v) 0))))).
Proof.
  intros Hin Hbad. split.
  - unfold plan_template.
    destruct (split_params parameters) as [e|params] eqn:Hs;
      [exists e; reflexivity|].
    cbn [bind]. apply bind_fails. intros avars.
    destruct (@check_params_refuses base vname v i params avars) as (e & He);
      [eapply split_params_keeps; eauto|exact Hbad|].
    exists e. rewrite He. reflexivity.
  - intros pre post avars avars' Hs Hio Hpre Hname Hlen Hok.
    unfold plan_template. rewrite Hs. cbn [bind]. rewrite Hio. cbn [bind].
    rewrite check_params_app, Hpre. cbn [bind check_params].
    rewrite Hname, Hlen, Nat.eqb_refl. cbn [negb assert ret bind].
    destruct Hbad as (Hi & _ & Hb & H1).
    rewrite (@check_rows_reports vname base v i (len base) 0); auto.
    + lia.
    + intros i' Hi'. apply Hok. lia.
Qed.

Lemma bad_row_refused_witness :
  In ("tau"%string, PArray tau_short)
     [("tau"%string, PArray tau_short); ("ref"%string, PFloat)] /\
  bad_row J_ex tau_short 1 /\
  plan_template "cl_lif_rate" 0 [("j"%string, J_ex)] [("r"%string, J_ex)]
                [("tau"%string, PArray tau_short); ("ref"%string, PFloat)]
  = inl (AssertionError (Some "tau.shape0s[1] must be 1 or 4 (not 2)"%string)).
Proof.
  assert (Hin : In ("tau"%string, PArray tau_short)
                   [("tau"%string, PArray tau_short); ("ref"%string, PFloat)])
    by (left; reflexivity).
  assert (Hbad : bad_row J_ex tau_short 1)
    by (unfold bad_row; cbn; repeat split; lia).
  split; [exact Hin|]. split; [exact Hbad|].
  apply (proj2 (@bad_row_refused "cl_lif_rate" 0 "j" J_ex [] [("r"%string, J_ex)]
                  [("tau"%string, PArray tau_short); ("ref"%string, PFloat)]
                  "tau" tau_short 1 Hin Hbad)
               [] [] ["r"%string; "j"%string] ["r"%string; "j"%string]);
    try reflexivity.
  intros i' Hi'. assert (i' = 0) by lia. subst i'.
  unfold row_ok; cbn. split; [left|]; reflexivity.
Defined.

(** C8 as stated fails when another check fails first: with a first row
    that is a matrix the error is the assertion on [shape1s], which has no
    message, although row 1 has neither length 1 nor the base length. *)
Lemma bad_row_without_message :
  bad_row J_ex tau_matrix 1 /\
  plan_template "cl_lif_rate" 0 [("j"%string, J_ex)] [("r"%string, J_ex)]
                [("tau"%string, PArray tau_matrix); ("ref"%string, PFloat)]
  = inl (AssertionError None).
Proof.
  split; [unfold bad_row; cbn; repeat split; lia|reflexivity].
Qed.

(** A configuration that passes every check. *)
Example plan_template_accepts :
  plan_template "cl_lif_rate" 10 [("j"%string, J_ex)] [("r"%string, J_ex)]
                [("tau"%string, PArray (Clra [(1, 1); (4, 1)]));
                 ("ref"%string, PFloat)]
  = inr (Plan "cl_lif_rate" [1]).
Proof. reflexivity. Qed.

End PlanBuild.

(* ===================================================================== *)
(** ** The probe ring ([plan_probes], [run_steps], [drain_probe_buffers]) *)
(* ===================================================================== *)

Module Probes.

Local Open Scope Z_scope.

(** An [int] of the kernel: 32 bits, two's complement. *)
Definition wrap32 (z : Z) : Z := (z + 2 ^ 31) mod 2 ^ 32 - 2 ^ 31.

(** [a[:k]] as Python slices a list. *)
Definition slice_to {A : Type} (k : Z) (l : list A) : list A :=
  if k <? 0 then firstn (length l - Z.to_nat (- k)) l
  else firstn (Z.to_nat k) l.

(** [l[i] = x] on a buffer; nothing is written past its end here, the
    kernel's bounds are checked where it is called. *)
Fixpoint set_nth {A : Type} (i : nat) (x : A) (l : list A) : list A :=
  match l, i with
  | [], _ => []
  | _ :: l', O => x :: l'
  | y :: l', S i' => y :: set_nth i' x l'
  end.

(** How a call of [run_steps] ends: it returns, its precondition fails, a
    kernel copies outside a ring, or the loop is still running when the
    fuel is spent. *)
Inductive outcome (A : Type) : Type :=
| Returns (a : A)
| AssertionFails
| Overflows
| OutOfFuel.

Arguments AssertionFails {A}.
Arguments Overflows {A}.
Arguments OutOfFuel {A}.

Section Sim.

(** A sample is one row vector [X[n]] of the probed signals. *)
Variable sample : Type.

(** The number of slots of every ring ([n_prealloc_probes]). *)
Variable n_prealloc : nat.

(** Row [n] of the probe plan: [periods[n]], the signal [X[n]] as the
    simulation leaves it after each of its steps, [countdowns[n]],
    [bufpositions[n]], the ring [Y[n]] and, on the host,
    [probe_outputs[probes[n]]]. *)
Record row : Type := Row {
  period : Z;
  source : nat -> sample;
  countdown : Z;
  bufposition : Z;
  ring : list sample;
  outputs : list sample
}.

(** The counters after the kernel ran on a row: the branch
    [countdown == 0] restarts the countdown and moves the position, the
    other one counts down. *)
Definition next_counters (p c b : Z) : Z * Z :=
  if c =? 0 then (wrap32 (p - 1), wrap32 (b + 1))
  else (wrap32 (c - 1), b).

(** The work-group of one row at step [t], all its work-items together:
    the copy [y[ii] = x[ii]] of the whole sample to slot [bufpos] and the
    update of the counters by work-item 0. *)
Definition row_next (t : nat) (r : row) : row :=
  let (c', b') := next_counters (period r) (countdown r) (bufposition r) in
  {| period := period r; source := source r;
     countdown := c'; bufposition := b';
     ring := if countdown r =? 0
             then set_nth (Z.to_nat (bufposition r)) (source r t) (ring r)
             else ring r;
     outputs := outputs r |}.

(** The copy stays inside the ring [Y[n]]. *)
Definition in_ring (r : row) : bool :=
  negb (countdown r =? 0) ||
  ((0 <=? bufposition r) && (bufposition r <? Z.of_nat (length (ring r)))).

(** The kernel on one row; [None] is a copy outside the row's ring. *)
Definition probe_row (t : nat) (r : row) : option row :=
  if in_ring r then Some (row_next t r) else None.

(** One launch of the kernel: every row. *)
Fixpoint probe_kernel (t : nat) (rows : list row) : option (list row) :=
  match rows with
  | [] => Some []
  | r :: rest =>
      match probe_row t r, probe_kernel t rest with
      | Some r', Some rest' => Some (r' :: rest')
      | _, _ => None
      end
  end.

(** The simulator: the number of steps done and the probe rows. *)
Record sim : Type := Sim {
  tick : nat;
  rows : list row
}.

(** One pass over the plans: the operators, which leave [X] as of step
    [tick + 1], then the probe kernel. *)
Definition step (st : sim) : option sim :=
  match probe_kernel (S (tick st)) (rows st) with
  | Some rows' => Some {| tick := S (tick st); rows := rows' |}
  | None => None
  end.

(** [self._dag.call_n_times(B)] *)
Fixpoint call_n_times (B : nat) (st : sim) : option sim :=
  match B with
  | O => Some st
  | S B' =>
      match step st with
      | Some st' => call_n_times B' st'
      | None => None
      end
  end.

(** [drain_probe_buffers] on one probe:
    [if n_buffered: probe_outputs[probe].extend(plan.Y[i][:n_buffered])],
    then [cl_bufpositions.fill(0)]. *)
Definition drain_row (r : row) : row :=
  {| period := period r; source := source r;
     countdown := countdown r; bufposition := 0;
     ring := ring r;
     outputs := if bufposition r =? 0 then outputs r
                else (outputs r ++ slice_to (bufposition r) (ring r))%list |}.

Definition drain_probe_buffers (st : sim) : sim :=
  {| tick := tick st; rows := map drain_row (rows st) |}.

(** [hasattr(self, '_cl_probe_plan')]: the model has a probe. *)
Definition has_probes (st : sim) : bool :=
  match rows st with
  | [] => false
  | _ => true
  end.

(** [self._max_steps_between_probes = n_prealloc * min(periods)] *)
Definition min_period (rs : list row) : Z :=
  match rs with
  | [] => 0
  | r :: rest => fold_right (fun r' m => Z.min (period r') m) (period r) rest
  end.

Definition max_steps_between_probes (st : sim) : Z :=
  Z.of_nat n_prealloc * min_period (rows st).

(** [B = min(N, self._max_steps_between_probes) if has_probes else N] *)
Definition batch (N : nat) (st : sim) : nat :=
  if has_probes st
  then Z.to_nat (Z.min (Z.of_nat N) (max_steps_between_probes st))
  else N.

(** The loop [while N: ...] of [run_steps]; the result carries the sizes of
    the groups of steps it ran, in order. *)
Fixpoint run_loop (fuel N : nat) (st : sim) : outcome (sim * list nat) :=
  match N with
  | O => Returns (st, [])
  | S _ =>
      match fuel with
      | O => OutOfFuel
      | S fuel' =>
          let B := batch N st in
          match call_n_times B st with
          | None => Overflows
          | Some st1 =>
              let st2 := if has_probes st then drain_probe_buffers st1
                         else st1 in
              match run_loop fuel' (N - B) st2 with
              | Returns (st3, Bs) => Returns (st3, B :: Bs)
              | other => other
              end
          end
      end
  end.

(** [run_steps(N)]: the precondition
    [assert np.all(bufpositions == 0)], then the loop. *)
Definition run_steps (fuel N : nat) (st : sim) : outcome (sim * list nat) :=
  if forallb (fun r => bufposition r =? 0) (rows st)
  then run_loop fuel N st
  else AssertionFails.

(** [run_steps(1)], [n] times in a row. *)
Fixpoint run_single_steps (fuel n : nat) (st : sim) : outcome sim :=
  match n with
  | O => Returns st
  | S n' =>
      match run_steps fuel 1 st with
      | Returns (st', _) => run_single_steps fuel n' st'
      | AssertionFails => AssertionFails
      | Overflows => Overflows
      | OutOfFuel => OutOfFuel
      end
  end.

(** [probe_data(probe)]: [np.vstack] of the samples logged so far, which
    raises on an empty log. *)
Definition probe_data (r : row) : option (list sample) :=
  match outputs r with
  | [] => None
  | l => Some l
  end.

(** The samples a row takes in [n] steps after step [t], its countdown
    being [c]. *)
Fixpoint samples (n t : nat) (p c : Z) (src : nat -> sample) : list sample :=
  match n with
  | O => []
  | S n' =>
      if c =? 0 then src (S t) :: samples n' (S t) p (wrap32 (p - 1)) src
      else samples n' (S t) p (wrap32 (c - 1)) src
  end.

(** The countdown of a row [n] steps later. *)
Fixpoint countdown_after (n : nat) (p c : Z) : Z :=
  match n with
  | O => c
  | S n' => countdown_after n' p (if c =? 0 then wrap32 (p - 1)
                                  else wrap32 (c - 1))
  end.

(** A row between two calls of [run_steps]: its period fits an [int] and
    is a step at least, its countdown is below it, its ring has its
    [n_prealloc] slots and is drained. *)
Definition drained (r : row) : Prop :=
  1 <= period r < 2 ^ 31 /\
  0 <= countdown r <= period r - 1 /\
  bufposition r = 0 /\
  length (ring r) = n_prealloc.

(** Row [r] is row [r0] after [n] more steps and a drain. *)
Definition advanced (n t : nat) (r0 r : row) : Prop :=
  period r = period r0 /\
  source r = source r0 /\
  countdown r = countdown_after n (period r0) (countdown r0) /\
  outputs r = (outputs r0
               ++ samples n t (period r0) (countdown r0) (source r0))%list /\
  drained r.

(** Row [r] is row [r0], drained before, [j] steps into a group of steps:
    the countdown has moved on, the samples taken since fill the ring from
    its first slot, and the position counts them. *)
Definition filling (j t : nat) (r0 r : row) : Prop :=
  period r = period r0 /\
  source r = source r0 /\
  countdown r = countdown_after j (period r0) (countdown r0) /\
  outputs r = outputs r0 /\
  firstn (Z.to_nat (bufposition r)) (ring r)
  = samples j t (period r0) (countdown r0) (source r0) /\
  0 <= countdown r <= period r - 1 /\
  0 <= bufposition r /\
  period r * bufposition r + countdown r0 = Z.of_nat j + countdown r /\
  length (ring r) = n_prealloc.

(** A drained row has room for the samples of [k] steps. *)
Definition room (k : nat) (r0 : row) : Prop :=
  drained r0 /\ Z.of_nat k <= Z.of_nat n_prealloc * period r0.

(** A simulator as [__init__] leaves it: counters at zero, empty logs. *)
Definition fresh_row (p : Z) (src : nat -> sample) (zero : sample) : row :=
  {| period := p; source := src; countdown := 0; bufposition := 0;
     ring := repeat zero n_prealloc; outputs := [] |}.

(** *** Counters and samples *)

Lemma wrap32_small z : - 2 ^ 31 <= z < 2 ^ 31 -> wrap32 z = z.
Proof. intros H. unfold wrap32. rewrite Z.mod_small by lia. lia. Qed.

Lemma length_set_nth (A : Type) (x : A) : forall l i,
  length (set_nth i x l) = length l.
Proof.
  induction l as [|y l IH]; intros [|i]; cbn; auto.
Qed.

Lemma firstn_set_nth (A : Type) (x : A) : forall l i,
  (i < length l)%nat ->
  firstn (S i) (set_nth i x l) = (firstn i l ++ [x])%list.
Proof.
  induction l as [|y l IH]; intros [|i] Hi; cbn in Hi |- *; try lia.
  - reflexivity.
  - f_equal. apply IH. lia.
Qed.

Lemma countdown_after_S n : forall p c,
  countdown_after (S n) p c
  = let c' := countdown_after n p c in
    if c' =? 0 then wrap32 (p - 1) else wrap32 (c' - 1).
Proof.
  induction n as [|n IH]; intros p c; [reflexivity|].
  change (countdown_after (S (S n)) p c)
    with (countdown_after (S n) p (if c =? 0 then wrap32 (p - 1)
                                   else wrap32 (c - 1))).
  rewrite IH. reflexivity.
Qed.

Lemma samples_unfold n t p c src :
  samples (S n) t p c src
  = if c =? 0 then src (S t) :: samples n (S t) p (wrap32 (p - 1)) src
    else samples n (S t) p (wrap32 (c - 1)) src.
Proof. reflexivity. Qed.

Lemma countdown_after_unfold n p c :
  countdown_after (S n) p c
  = countdown_after n p (if c =? 0 then wrap32 (p - 1) else wrap32 (c - 1)).
Proof. reflexivity. Qed.

Lemma samples_S n : forall t p c src,
  samples (S n) t p c src
  = (samples n t p c src
     ++ if countdown_after n p c =? 0 then [src (S (t + n))] else [])%list.
Proof.
  induction n as [|n IH]; intros t p c src.
  - cbn. rewrite Nat.add_0_r. destruct (c =? 0); reflexivity.
  - rewrite (samples_unfold (S n) t p c), (samples_unfold n t p c).
    rewrite (countdown_after_unfold n p c).
    replace (S (t + S n)) with (S (S t + n)) by lia.
    destruct (c =? 0); rewrite IH; reflexivity.
Qed.

Lemma countdown_after_add a : forall b p c,
  countdown_after (a + b) p c = countdown_after b p (countdown_after a p c).
Proof.
  induction a as [|a IH]; intros b p c; [reflexivity|].
  cbn [Nat.add countdown_after]. apply IH.
Qed.

Lemma samples_add a : forall b t p c src,
  samples (a + b) t p c src
  = (samples a t p c src
     ++ samples b (t + a) p (countdown_after a p c) src)%list.
Proof.
  induction a as [|a IH]; intros b t p c src.
  - cbn. rewrite Nat.add_0_r. reflexivity.
  - cbn [Nat.add samples countdown_after].
    replace (t + S a)%nat with (S t + a)%nat by lia.
    destruct (c =? 0); rewrite IH; reflexivity.
Qed.

(** *** One group of steps *)

Section Groups.

(** The position of a full ring fits an [int]. *)
Hypothesis n_prealloc_int : Z.of_nat n_prealloc < 2 ^ 31.

Lemma filling_start t r0 : drained r0 -> filling 0 t r0 r0.
Proof.
  intros (Hp & Hc & Hb & Hl). unfold filling. rewrite Hb.
  repeat split; auto; try lia.
Qed.

Lemma filling_step j t r0 r :
  1 <= period r0 < 2 ^ 31 ->
  0 <= countdown r0 ->
  filling j t r0 r ->
  Z.of_nat j < Z.of_nat n_prealloc * period r0 ->
  in_ring r = true /\ filling (S j) t r0 (row_next (S (t + j)) r).
Proof.
  intros Hp Hc0 (Ep & Es & Ec & Eo & Ef & Hc & Hb & Hpb & Hl) Hj.
  rewrite Ep in *.
  assert (Hbn : countdown r = 0 -> bufposition r < Z.of_nat n_prealloc) by nia.
  unfold in_ring, row_next, next_counters, filling.
  rewrite samples_S, countdown_after_S. cbv zeta. rewrite <- Ec.
  destruct (countdown r =? 0) eqn:E0;
    cbn [negb orb period source countdown bufposition ring outputs].
  - apply Z.eqb_eq in E0. specialize (Hbn E0).
    rewrite !wrap32_small by lia. rewrite length_set_nth, Hl.
    split.
    { apply andb_true_iff. split; [apply Z.leb_le|apply Z.ltb_lt]; lia. }
    repeat split; auto; try lia.
    replace (Z.to_nat (bufposition r + 1)) with (S (Z.to_nat (bufposition r)))
      by lia.
    rewrite firstn_set_nth by lia. rewrite Ef, Es. reflexivity.
  - apply Z.eqb_neq in E0. rewrite !wrap32_small by lia.
    split; [reflexivity|].
    repeat split; auto; try lia.
    rewrite app_nil_r. exact Ef.
Qed.

Lemma filling_drain B t r0 r :
  drained r0 -> filling B t r0 r -> advanced B t r0 (drain_row r).
Proof.
  intros (Hp & Hc0 & Hb0 & Hl0) (Ep & Es & Ec & Eo & Ef & Hc & Hb & Hpb & Hl).
  unfold advanced, drain_row, drained;
    cbn [period source countdown bufposition ring outputs].
  repeat split; auto; try lia.
  destruct (bufposition r =? 0) eqn:E0.
  - apply Z.eqb_eq in E0. rewrite E0 in Ef. cbn in Ef.
    rewrite <- Ef, app_nil_r. exact Eo.
  - unfold slice_to. destruct (bufposition r <? 0) eqn:En;
      [apply Z.ltb_lt in En; lia|].
    rewrite Eo, Ef. reflexivity.
Qed.

Lemma filling_bound j t r0 r :
  1 <= period r0 -> 0 <= countdown r0 ->
  filling j t r0 r ->
  Z.of_nat j <= Z.of_nat n_prealloc * period r0 ->
  0 <= bufposition r <= Z.of_nat n_prealloc.
Proof.
  intros Hp Hc0 (Ep & _ & _ & _ & _ & Hc & Hb & Hpb & _) Hj.
  rewrite Ep in *. split; [exact Hb|]. nia.
Qed.

Lemma kernel_filling j t rows0 rs :
  Forall2 (filling j t) rows0 rs ->
  Forall (room (S j)) rows0 ->
  exists rs',
    probe_kernel (S (t + j)) rs = Some rs' /\
    Forall2 (filling (S j) t) rows0 rs'.
Proof.
  induction 1 as [|r0 r rows0 rs Hr _ IH]; intros Hroom.
  - exists []. split; [reflexivity|constructor].
  - inversion Hroom as [|? ? ((Hp & Hc & _) & Hj) Hrest]; subst.
    destruct (IH Hrest) as (rs' & Hk & Hf).
    destruct (@filling_step j t r0 r) as (Hin & Hnext); auto; try lia.
    exists (row_next (S (t + j)) r :: rs'). split.
    + cbn [probe_kernel]. unfold probe_row. rewrite Hin, Hk. reflexivity.
    + constructor; assumption.
Qed.

Lemma room_le k k' r0 : (k' <= k)%nat -> room k r0 -> room k' r0.
Proof. intros Hk (Hd & Hr). split; [exact Hd|lia]. Qed.

Lemma call_filling t rows0 : forall k j rs,
  Forall2 (filling j t) rows0 rs ->
  Forall (room (j + k)) rows0 ->
  exists rs',
    call_n_times k (Sim (t + j) rs) = Some (Sim (t + j + k) rs') /\
    Forall2 (filling (j + k) t) rows0 rs'.
Proof.
  induction k as [|k IH]; intros j rs Hf Hroom.
  - exists rs. rewrite !Nat.add_0_r. split; [reflexivity|exact Hf].
  - destruct (@kernel_filling j t rows0 rs Hf) as (rs1 & Hk & Hf1).
    { eapply Forall_impl; [|exact Hroom]. intros r0. apply room_le. lia. }
    destruct (IH (S j) rs1 Hf1) as (rs' & Hc & Hf').
    { replace (S j + k)%nat with (j + S k)%nat by lia. exact Hroom. }
    exists rs'. cbn [call_n_times]. unfold step. cbn [tick rows].
    rewrite Hk. replace (S (t + j)) with (t + S j)%nat by lia.
    rewrite Hc. replace (t + S j + k)%nat with (t + j + S k)%nat by lia.
    replace (S j + k)%nat with (j + S k)%nat in Hf' by lia.
    split; [reflexivity|exact Hf'].
Qed.

Lemma filling_start_all t rows0 :
  Forall drained rows0 -> Forall2 (filling 0 t) rows0 rows0.
Proof.
  induction 1; constructor; auto using filling_start.
Qed.

(** A group of [B] steps from a drained state, then the drain. *)
Lemma group_then_drain B t rows0 :
  Forall (room B) rows0 ->
  exists rs,
    call_n_times B (Sim t rows0) = Some (Sim (t + B) rs) /\
    Forall2 (filling B t) rows0 rs /\
    Forall2 (advanced B t) rows0 (map drain_row rs).
Proof.
  intros Hroom.
  assert (Hd : Forall drained rows0).
  { eapply Forall_impl; [|exact Hroom]. intros r0 [H _]. exact H. }
  destruct (@call_filling t rows0 B 0 rows0 (filling_start_all t Hd) Hroom)
    as (rs & Hc & Hf).
  rewrite Nat.add_0_r in Hc. cbn [Nat.add] in Hf.
  exists rs. repeat split; auto.
  clear Hc Hroom. induction Hf as [|r0 r rows0 rs Hr _ IH]; cbn [map].
  - constructor.
  - inversion Hd; subst. constructor; [apply filling_drain; auto|auto].
Qed.

(** *** The loop of [run_steps] *)

Lemma min_period_le r rs : In r rs -> min_period rs <= period r.
Proof.
  destruct rs as [|r1 rs]; [intros []|]. cbn [min_period].
  intros [->|Hin].
  - induction rs as [|r2 rs IH]; cbn [fold_right]; lia.
  - induction rs as [|r2 rs IH]; [destruct Hin|]. cbn [fold_right].
    destruct Hin as [->|Hin]; [lia|]. specialize (IH Hin). lia.
Qed.

Lemma min_period_ge rs :
  rs <> [] -> Forall (fun r => 1 <= period r) rs -> 1 <= min_period rs.
Proof.
  destruct rs as [|r1 rs]; [congruence|]. intros _ Hall.
  inversion Hall as [|? ? H1 Hrest]; subst. cbn [min_period].
  induction Hrest as [|r2 rs H2 _ IH]; cbn [fold_right]; [lia|].
  apply Z.min_glb; [lia|]. apply IH. constructor; auto.
  inversion Hall; subst. inversion H4; subst. assumption.
Qed.

Lemma min_period_same rs rs' :
  Forall2 (fun r r' => period r' = period r) rs rs' ->
  min_period rs' = min_period rs.
Proof.
  intros H. destruct H as [|r r' rs rs' Hp Hrest]; [reflexivity|].
  cbn [min_period]. rewrite Hp.
  induction Hrest as [|r2 r2' rs rs' Hp2 _ IH]; cbn [fold_right];
    [reflexivity|].
  rewrite Hp2, IH. reflexivity.
Qed.

Lemma advanced_periods n t rs rs' :
  Forall2 (advanced n t) rs rs' ->
  Forall2 (fun r r' => period r' = period r) rs rs'.
Proof.
  induction 1 as [|r r' rs rs' (Hp & _) _ IH]; constructor; auto.
Qed.

Lemma advanced_drained n t rs rs' :
  Forall2 (advanced n t) rs rs' -> Forall drained rs'.
Proof.
  induction 1 as [|r r' rs rs' (_ & _ & _ & _ & Hd) _ IH]; constructor; auto.
Qed.

Lemma advanced_zero t rs :
  Forall drained rs -> Forall2 (advanced 0 t) rs rs.
Proof.
  induction 1 as [|r rs Hd _ IH]; constructor; auto.
  unfold advanced. cbn [countdown_after samples]. rewrite app_nil_r. auto.
Qed.

Lemma advanced_trans a b t rs0 rs1 : forall rs2,
  Forall2 (advanced a t) rs0 rs1 ->
  Forall2 (advanced b (t + a)) rs1 rs2 ->
  Forall2 (advanced (a + b) t) rs0 rs2.
Proof.
  intros rs2 H01. revert rs2.
  induction H01 as [|r0 r1 rs0 rs1 H _ IH]; intros rs2 H12;
    inversion H12 as [|? r2 ? rs2' H' Hrest]; subst; constructor; auto.
  destruct H as (Ep & Es & Ec & Eo & Hd).
  destruct H' as (Ep' & Es' & Ec' & Eo' & Hd').
  unfold advanced. rewrite countdown_after_add, samples_add.
  rewrite Ep', Es', Ec', Eo', Ep, Es, Ec, Eo, app_assoc. auto.
Qed.

Lemma has_probes_same (st st' : sim) :
  length (rows st') = length (rows st) -> has_probes st' = has_probes st.
Proof.
  unfold has_probes. destruct (rows st), (rows st'); cbn; congruence.
Qed.

Lemma batch_room N (st : sim) :
  has_probes st = true ->
  Forall drained (rows st) ->
  Forall (room (batch N st)) (rows st).
Proof.
  intros Hp Hd. unfold batch, max_steps_between_probes. rewrite Hp.
  apply Forall_forall. intros r Hin. split.
  - rewrite Forall_forall in Hd. auto.
  - pose proof (min_period_le r (rows st) Hin) as Hle.
    rewrite Forall_forall in Hd. destruct (Hd r Hin) as ((Hp1 & _) & _).
    assert (H1 : Z.of_nat n_prealloc * min_period (rows st)
                 <= Z.of_nat n_prealloc * period r)
      by (apply Z.mul_le_mono_nonneg_l; lia).
    assert (H2 : 0 <= Z.of_nat n_prealloc * period r) by nia.
    lia.
Qed.

Lemma batch_bounds N (st : sim) :
  has_probes st = true ->
  Forall drained (rows st) ->
  (1 <= n_prealloc)%nat -> (1 <= N)%nat ->
  (1 <= batch N st <= N)%nat /\
  Z.of_nat (batch N st) <= max_steps_between_probes st.
Proof.
  intros Hp Hd Hn HN. unfold batch, max_steps_between_probes. rewrite Hp.
  assert (Hmin : 1 <= min_period (rows st)).
  { apply min_period_ge.
    - unfold has_probes in Hp. destruct (rows st); congruence.
    - eapply Forall_impl; [|exact Hd]. intros r ((H & _) & _). exact H. }
  assert (H1 : 1 <= Z.of_nat n_prealloc * min_period (rows st)) by nia.
  lia.
Qed.

Lemma run_loop_zero fuel (st : sim) : run_loop fuel 0 st = Returns (st, []).
Proof. destruct fuel; reflexivity. Qed.

(** From a drained state and with a ring of one slot at least the loop
    ends, in groups of steps the rings have room for. *)
Lemma run_loop_spec : forall fuel N (st : sim),
  (N <= fuel)%nat ->
  (1 <= n_prealloc)%nat ->
  Forall drained (rows st) ->
  exists st' Bs,
    run_loop fuel N st = Returns (st', Bs) /\
    tick st' = (tick st + N)%nat /\
    Forall2 (advanced N (tick st)) (rows st) (rows st') /\
    (has_probes st = true ->
     Forall (fun B => Z.of_nat B <= max_steps_between_probes st) Bs) /\
    list_sum Bs = N.
Proof.
  induction fuel as [|fuel IH]; intros N st HN Hn Hd.
  - assert (N = 0)%nat by lia. subst N.
    exists st, []. cbn [run_loop]. rewrite Nat.add_0_r.
    repeat split; auto using advanced_zero.
  - destruct N as [|N'].
    { exists st, []. cbn [run_loop]. rewrite Nat.add_0_r.
      repeat split; auto using advanced_zero. }
    set (N := S N') in *. destruct st as [t rs]. cbn [tick rows] in *.
    change (run_loop (S fuel) N (Sim t rs))
      with (let B := batch N (Sim t rs) in
            match call_n_times B (Sim t rs) with
            | None => Overflows
            | Some st1 =>
                let st2 := if has_probes (Sim t rs)
                           then drain_probe_buffers st1 else st1 in
                match run_loop fuel (N - B) st2 with
                | Returns (st3, Bs) => Returns (st3, B :: Bs)
                | other => other
                end
            end).
    cbv zeta.
    destruct (has_probes (Sim t rs)) eqn:Hp.
    + destruct (@batch_bounds N (Sim t rs) Hp Hd Hn) as ((HB1 & HB2) & HB3);
        [subst N; lia|].
      pose proof (@batch_room N (Sim t rs) Hp Hd) as Hroom.
      cbn [rows] in Hroom. set (B := batch N (Sim t rs)) in *.
      destruct (@group_then_drain B t rs Hroom) as (rs1 & Hc & _ & Ha).
      rewrite Hc. unfold drain_probe_buffers. cbn [tick rows].
      destruct (IH (N - B)%nat (Sim (t + B) (map drain_row rs1)))
        as (st3 & Bs & Hrun & Ht & Hadv & Hbs & Hsum);
        [lia|exact Hn|cbn [rows]; eapply advanced_drained; eauto|].
      rewrite Hrun. exists st3, (B :: Bs). cbn [tick rows] in *.
      split; [reflexivity|]. split; [lia|]. split.
      * replace N with (B + (N - B))%nat by lia.
        eapply advanced_trans; eauto.
      * split.
        -- intros _. constructor; [exact HB3|].
           assert (Hsame : max_steps_between_probes
                             (Sim (t + B) (map drain_row rs1))
                           = max_steps_between_probes (Sim t rs)).
           { unfold max_steps_between_probes. cbn [rows]. f_equal.
             apply min_period_same. eapply advanced_periods; eauto. }
           rewrite <- Hsame. apply Hbs.
           rewrite <- Hp. apply has_probes_same. cbn [rows].
           symmetry. eapply Forall2_length; eauto.
        -- change (list_sum (B :: Bs)) with (B + list_sum Bs)%nat. lia.
    + assert (rs = []) by (unfold has_probes in Hp; cbn in Hp;
                           destruct rs; congruence). subst rs.
      unfold batch. rewrite Hp.
      destruct (@group_then_drain N t []) as (rs1 & Hc & Hf & _);
        [constructor|].
      inversion Hf; subst. rewrite Hc, Nat.sub_diag, run_loop_zero.
      exists (Sim (t + N) []), [N]. cbn [tick rows].
      repeat split; auto; try constructor; try discriminate.
Qed.

Lemma drained_precondition rs :
  Forall drained rs -> forallb (fun r => bufposition r =? 0) rs = true.
Proof.
  intros H. apply forallb_forall. intros r Hin.
  rewrite Forall_forall in H. destruct (H r Hin) as (_ & _ & Hb & _).
  rewrite Hb. reflexivity.
Qed.

Lemma run_steps_spec fuel N (st : sim) :
  (N <= fuel)%nat ->
  (1 <= n_prealloc)%nat ->
  Forall drained (rows st) ->
  exists st' Bs,
    run_steps fuel N st = Returns (st', Bs) /\
    tick st' = (tick st + N)%nat /\
    Forall2 (advanced N (tick st)) (rows st) (rows st') /\
    (has_probes st = true ->
     Forall (fun B => Z.of_nat B <= max_steps_between_probes st) Bs) /\
    list_sum Bs = N.
Proof.
  intros HN Hn Hd. unfold run_steps.
  rewrite (drained_precondition Hd). apply run_loop_spec; assumption.
Qed.

Lemma run_single_steps_spec fuel : forall n (st : sim),
  (1 <= fuel)%nat ->
  (1 <= n_prealloc)%nat ->
  Forall drained (rows st) ->
  exists st',
    run_single_steps fuel n st = Returns st' /\
    tick st' = (tick st + n)%nat /\
    Forall2 (advanced n (tick st)) (rows st) (rows st').
Proof.
  induction n as [|n IH]; intros st Hf Hn Hd.
  - exists st. cbn [run_single_steps]. rewrite Nat.add_0_r.
    repeat split; auto using advanced_zero.
  - destruct (@run_steps_spec fuel 1 st Hf Hn Hd)
      as (st1 & Bs & Hrun & Ht & Hadv & _ & _).
    destruct (IH st1 Hf Hn (advanced_drained Hadv)) as (st' & Hrun' & Ht' & Hadv').
    exists st'. cbn [run_single_steps]. rewrite Hrun, Hrun'.
    split; [reflexivity|]. split; [lia|].
    change (S n) with (1 + n)%nat. eapply advanced_trans; eauto.
    rewrite <- Ht. exact Hadv'.
Qed.

Lemma advanced_same_outputs n t rs rs1 : forall rs2,
  Forall2 (advanced n t) rs rs1 ->
  Forall2 (advanced n t) rs rs2 ->
  map (@outputs) rs1 = map (@outputs) rs2.
Proof.
  intros rs2 H1. revert rs2.
  induction H1 as [|r r1 rs rs1 H _ IH]; intros rs2 H2;
    inversion H2 as [|? r2 ? rs2' H' Hrest]; subst; [reflexivity|].
  cbn [map]. f_equal; [|apply IH; assumption].
  destruct H as (_ & _ & _ & Eo & _). destruct H' as (_ & _ & _ & Eo' & _).
  congruence.
Qed.

(** A ring that starts empty with its countdown at zero is full after
    [period * n_prealloc] launches, and the next launch copies past it. *)
Lemma ring_fills t r0 :
  drained r0 -> countdown r0 = 0 ->
  exists r,
    call_n_times (Z.to_nat (period r0) * n_prealloc) (Sim t [r0])
    = Some (Sim (t + Z.to_nat (period r0) * n_prealloc) [r]) /\
    bufposition r = Z.of_nat n_prealloc /\
    countdown r = 0 /\
    step (Sim (t + Z.to_nat (period r0) * n_prealloc) [r]) = None.
Proof.
  intros Hd Hc0. pose proof Hd as (Hp & _ & _ & _).
  set (B := (Z.to_nat (period r0) * n_prealloc)%nat).
  assert (HB : Z.of_nat B = Z.of_nat n_prealloc * period r0).
  { subst B. rewrite Nat2Z.inj_mul, Z2Nat.id by lia. lia. }
  destruct (@group_then_drain B t [r0]) as (rs & Hc & Hf & _).
  { constructor; [|constructor]. split; [exact Hd|lia]. }
  inversion Hf as [|? r ? rs' Hr Hnil]; subst. inversion Hnil; subst.
  exists r. split; [exact Hc|].
  destruct Hr as (Ep & _ & _ & _ & _ & Hcr & Hb & Hpb & Hl).
  rewrite Ep, Hc0, HB in *.
  assert (Hbn : bufposition r = Z.of_nat n_prealloc) by nia.
  assert (Hcn : countdown r = 0) by nia.
  split; [exact Hbn|]. split; [exact Hcn|].
  unfold step. cbn [rows tick probe_kernel]. unfold probe_row, in_ring.
  rewrite Hcn, Hbn, Hl, Z.ltb_irrefl, andb_false_r. reflexivity.
Qed.

(** Within a group of steps the rings have room for, no position passes
    the end of its ring. *)
Lemma positions_bounded j (st : sim) :
  Forall drained (rows st) ->
  has_probes st = true ->
  Z.of_nat j <= max_steps_between_probes st ->
  exists stj,
    call_n_times j st = Some stj /\
    Forall (fun r => 0 <= bufposition r <= Z.of_nat n_prealloc) (rows stj).
Proof.
  intros Hd Hp Hj. destruct st as [t rs]. cbn [rows] in *.
  assert (Hroom : Forall (room j) rs).
  { apply Forall_forall. intros r Hin. rewrite Forall_forall in Hd.
    split; [auto|].
    pose proof (min_period_le r rs Hin) as Hle.
    destruct (Hd r Hin) as ((Hp1 & _) & _).
    unfold max_steps_between_probes in Hj. cbn [rows] in Hj.
    assert (Z.of_nat n_prealloc * min_period rs
            <= Z.of_nat n_prealloc * period r)
      by (apply Z.mul_le_mono_nonneg_l; lia).
    lia. }
  destruct (@group_then_drain j t rs Hroom) as (rs' & Hc & Hf & _).
  exists (Sim (t + j) rs'). split; [exact Hc|]. cbn [rows].
  clear Hc Hd Hp Hj. induction Hf as [|r0 r rs rs' Hr _ IH].
  - constructor.
  - inversion Hroom as [|? ? ((Hp0 & Hc0 & _) & Hj0) Hrest]; subst.
    constructor; [|apply IH; exact Hrest].
    eapply filling_bound; eauto; lia.
Qed.

End Groups.

End Sim.

(** *** Small simulators *)

(** Two probes of periods 1 and 3 on rings of two slots; the sample of
    probe [n] at step [t] is [10*t + n]. *)
Definition two_probes : sim nat :=
  Sim 0 [fresh_row 2 1 (fun t => 10 * t + 1)%nat 0%nat;
         fresh_row 2 3 (fun t => 10 * t + 3)%nat 0%nat].

(** One probe whose period rounded to 0 steps. *)
Definition zero_period : sim nat :=
  Sim 0 [fresh_row 2 0 (fun t => t) 0%nat].

Lemma fresh_row_drained (sample : Type) (n_prealloc : nat) (p : Z)
    (src : nat -> sample) (zero : sample) :
  1 <= p < 2 ^ 31 -> drained n_prealloc (fresh_row n_prealloc p src zero).
Proof.
  intros Hp. unfold drained, fresh_row; cbn [period countdown bufposition ring].
  rewrite repeat_length. repeat split; lia.
Qed.

Lemma two_probes_drained : Forall (drained 2) (rows two_probes).
Proof.
  repeat constructor; cbn; lia.
Qed.

Example run_steps_two_probes :
  match run_steps 2 7 7 two_probes with
  | Returns (st, Bs) => Some (map (@outputs nat) (rows st), Bs)
  | _ => None
  end
  = Some ([[11; 21; 31; 41; 51; 61; 71]; [13; 43; 73]], [2; 2; 2; 1])%nat.
Proof. reflexivity. Qed.

Example single_steps_two_probes :
  match run_single_steps 2 7 7 two_probes with
  | Returns st => Some (map (@outputs nat) (rows st))
  | _ => None
  end
  = Some [[11; 21; 31; 41; 51; 61; 71]; [13; 43; 73]]%nat.
Proof. reflexivity. Qed.

(** C5 (amended).  A row of period [p >= 1] that starts with its countdown
    and its position at zero has its position at [n_prealloc] after exactly
    [p * n_prealloc] launches of the kernel without a drain, and one launch
    more would copy past its ring.  With [n_prealloc >= 1], [run_steps]
    returns after groups of at most [n_prealloc * min(periods)] steps, a
    drain after each, and within so many steps after a drain no position
    exceeds [n_prealloc].  Periods and [n_prealloc] fit an [int]. *)
Theorem ring_full_and_never_overflows (sample : Type) (n_prealloc : nat) :
  Z.of_nat n_prealloc < 2 ^ 31 ->
  (forall (t : nat) (r0 : row sample),
      drained n_prealloc r0 -> countdown r0 = 0 ->
      exists r,
        call_n_times (Z.to_nat (period r0) * n_prealloc) (Sim t [r0])
        = Some (Sim (t + Z.to_nat (period r0) * n_prealloc) [r]) /\
        bufposition r = Z.of_nat n_prealloc /\
        step (Sim (t + Z.to_nat (period r0) * n_prealloc) [r]) = None) /\
  (forall (fuel N : nat) (st : sim sample),
      (1 <= n_prealloc)%nat ->
      Forall (drained n_prealloc) (rows st) ->
      has_probes st = true ->
      (N <= fuel)%nat ->
      (exists st' Bs,
          run_steps n_prealloc fuel N st = Returns (st', Bs) /\
          Forall (fun B => Z.of_nat B
                           <= Z.of_nat n_prealloc * min_period (rows st)) Bs /\
          list_sum Bs = N /\
          Forall (drained n_prealloc) (rows st')) /\
      (forall j,
          Z.of_nat j <= Z.of_nat n_prealloc * min_period (rows st) ->
          exists stj,
            call_n_times j st = Some stj /\
            Forall (fun r => 0 <= bufposition r <= Z.of_nat n_prealloc)
                   (rows stj))).
Proof.
  intros Hint. split.
  - intros t r0 Hd Hc.
    destruct (@ring_fills sample n_prealloc Hint t r0 Hd Hc)
      as (r & Hrun & Hb & _ & Hnext).
    exists r. auto.
  - intros fuel N st Hn Hd Hp HN. split.
    + destruct (@run_steps_spec sample n_prealloc Hint fuel N st HN Hn Hd)
        as (st' & Bs & Hrun & _ & Hadv & HBs & Hsum).
      exists st', Bs. split; [exact Hrun|]. split; [exact (HBs Hp)|].
      split; [exact Hsum|]. eapply advanced_drained; eauto.
    + intros j Hj. apply positions_bounded; auto.
Qed.

Lemma ring_full_and_never_overflows_witness :
  Z.of_nat 2 < 2 ^ 31 /\
  exists st' Bs,
    run_steps 2 7 7 two_probes = Returns (st', Bs) /\
    Forall (fun B => Z.of_nat B <= Z.of_nat 2 * min_period (rows two_probes))
           Bs /\
    list_sum Bs = 7%nat /\
    Forall (drained 2) (rows st').
Proof.
  assert (Hint : Z.of_nat 2 < 2 ^ 31) by (cbn; lia).
  split; [exact Hint|].
  apply (proj2 (@ring_full_and_never_overflows nat 2 Hint) 7%nat 7%nat
               two_probes).
  - lia.
  - exact two_probes_drained.
  - reflexivity.
  - lia.
Defined.

(** C5 as stated fails for a period of 0 steps: [0 * n_prealloc] launches
    leave the position at 0, not at [n_prealloc = 2]; and the first launch
    sets the countdown to -1, after which the row only counts down. *)
Lemma zero_period_never_full :
  option_map (fun st => map (fun r => (countdown r, bufposition r)) (rows st))
             (call_n_times (Z.to_nat 0 * 2) zero_period)
  = Some [(0, 0)] /\
  option_map (fun st => map (fun r => (countdown r, bufposition r)) (rows st))
             (call_n_times 1 zero_period)
  = Some [(-1, 1)] /\
  option_map (fun st => map (fun r => (countdown r, bufposition r)) (rows st))
             (call_n_times 5 zero_period)
  = Some [(-5, 1)] /\
  Z.of_nat 2 <> 0.
Proof. repeat split; try reflexivity. discriminate. Qed.

Lemma probe_data_of_outputs (sample : Type) : forall rs1 rs2 : list (row sample),
  map (@outputs sample) rs1 = map (@outputs sample) rs2 ->
  map (@probe_data sample) rs1 = map (@probe_data sample) rs2.
Proof.
  induction rs1 as [|r1 rs1 IH]; intros [|r2 rs2] H; try discriminate;
    [reflexivity|].
  cbn [map] in *. injection H as Ho Hrest.
  f_equal; [|apply IH; exact Hrest].
  unfold probe_data. rewrite Ho. reflexivity.
Qed.

(** C6 (amended).  For probes of periods of one step at least on rings of
    one slot at least (periods and [n_prealloc] fitting an [int]), drained
    as [__init__] and every [run_steps] leave them, [run_steps(N)] returns,
    [N] calls of [run_steps(1)] return, and both leave the same log of
    samples, hence the same [probe_data], for every probe. *)
Theorem run_steps_as_single_steps (sample : Type) (n_prealloc fuel N : nat)
    (st : sim sample) :
  (1 <= n_prealloc)%nat ->
  Z.of_nat n_prealloc < 2 ^ 31 ->
  Forall (drained n_prealloc) (rows st) ->
  (1 <= fuel)%nat -> (N <= fuel)%nat ->
  exists st1 Bs st2,
    run_steps n_prealloc fuel N st = Returns (st1, Bs) /\
    run_single_steps n_prealloc fuel N st = Returns st2 /\
    map (@probe_data sample) (rows st1) = map (@probe_data sample) (rows st2) /\
    Forall2 (fun r0 r =>
               outputs r
               = (outputs r0
                  ++ samples N (tick st) (period r0) (countdown r0)
                             (source r0))%list)
            (rows st) (rows st1).
Proof.
  intros Hn Hint Hd Hf HN.
  destruct (@run_steps_spec sample n_prealloc Hint fuel N st HN Hn Hd)
    as (st1 & Bs & Hrun & _ & Hadv & _ & _).
  destruct (@run_single_steps_spec sample n_prealloc Hint fuel N st Hf Hn Hd)
    as (st2 & Hrun' & _ & Hadv').
  exists st1, Bs, st2. repeat split; auto.
  - apply probe_data_of_outputs. exact (advanced_same_outputs Hadv Hadv').
  - eapply Forall2_impl; [|exact Hadv].
    intros r0 r (_ & _ & _ & Eo & _). exact Eo.
Qed.

Lemma run_steps_as_single_steps_witness :
  (1 <= 2)%nat /\ Z.of_nat 2 < 2 ^ 31 /\
  Forall (drained 2) (rows two_probes) /\
  exists st1 Bs st2,
    run_steps 2 7 7 two_probes = Returns (st1, Bs) /\
    run_single_steps 2 7 7 two_probes = Returns st2 /\
    map (@probe_data nat) (rows st1) = map (@probe_data nat) (rows st2) /\
    Forall2 (fun r0 r =>
               outputs r
               = (outputs r0
                  ++ samples 7 (tick two_probes) (period r0) (countdown r0)
                             (source r0))%list)
            (rows two_probes) (rows st1).
Proof.
  assert (Hint : Z.of_nat 2 < 2 ^ 31) by (cbn; lia).
  assert (Hn : (1 <= 2)%nat) by lia.
  split; [exact Hn|]. split; [exact Hint|].
  split; [exact two_probes_drained|].
  apply (@run_steps_as_single_steps nat 2 7 7 two_probes Hn Hint
           two_probes_drained); lia.
Defined.

Lemma zero_period_runs_out fuel :
  run_steps 2 fuel 1 zero_period = OutOfFuel.
Proof.
  assert (Hloop : forall f, run_loop 2 f 1 zero_period = OutOfFuel).
  { induction f as [|f IH]; [reflexivity|].
    change (run_loop 2 (S f) 1 zero_period)
      with (match run_loop 2 f 1 zero_period with
            | Returns (st3, Bs) => Returns (st3, 0%nat :: Bs)
            | other => other
            end).
    rewrite IH. reflexivity. }
  unfold run_steps.
  change (forallb (fun r : row nat => bufposition r =? 0) (rows zero_period))
    with true.
  apply Hloop.
Qed.

(** C6 as stated fails for a period of 0 steps: the group of steps
    [min(N, n_prealloc * 0)] is empty, [N] never decreases, and with no
    amount of fuel does [run_steps(1)] return, alone or as the first of
    several calls. *)
Lemma zero_period_never_returns :
  ~ (exists fuel r, run_steps 2 fuel 1 zero_period = Returns r) /\
  ~ (exists fuel n st,
        run_single_steps 2 fuel (S n) zero_period = Returns st).
Proof.
  split.
  - intros (fuel & r & H). rewrite zero_period_runs_out in H. discriminate.
  - intros (fuel & n & st & H). cbn [run_single_steps] in H.
    rewrite zero_period_runs_out in H. discriminate.
Qed.

End Probes.

(* ===================================================================== *)
(** ** The barrier of the probe kernel                                    *)
(* ===================================================================== *)

Module Barrier.

Import Probes.

Local Open Scope Z_scope.

(** The launch has [gsize = (max_len, N)] and [lsize = (max_len, 1)]: the
    work-items of row [n] are one work-group, and the kernel indexes
    [countdowns], [bufpositions] and [periods] by [n = get_global_id(1)]
    only, so a work-group shares two cells with nobody but itself.  The
    copies to [Y] take no part in the control flow and are left out. *)

(** The barrier a work-item waits at, with the values it holds there: the
    one after the copy, in the branch [countdown == 0], or the one of the
    other branch. *)
Inductive site : Type :=
| AfterCopy (bufpos : Z)
| NoCopy (countdown : Z).

(** Where a work-item is: before its read of [countdowns[n]], at a
    barrier, past it, or at the end of the kernel. *)
Inductive pc : Type :=
| Entry
| Waiting (s : site)
| Released (s : site)
| Finished.

(** A work-group: the cells [countdowns[n]] and [bufpositions[n]] and its
    work-items by [get_global_id(0)]. *)
Record group : Type := Group {
  cell_countdown : Z;
  cell_bufposition : Z;
  items : list pc
}.

(** [const int countdown = countdowns[n]; if (countdown == 0) { ...
    const int bufpos = bufpositions[n]; ... barrier } else { barrier }]:
    the run of a work-item from the entry to its barrier, one step of the
    execution (it writes no cell). *)
Definition arrive (g : group) : pc :=
  if cell_countdown g =? 0 then Waiting (AfterCopy (cell_bufposition g))
  else Waiting (NoCopy (cell_countdown g)).

Definition same_barrier (s1 s2 : site) : bool :=
  match s1, s2 with
  | AfterCopy _, AfterCopy _ => true
  | NoCopy _, NoCopy _ => true
  | _, _ => false
  end.

(** Every work-item of the group waits at the barrier of [s]. *)
Definition all_waiting_at (s : site) (l : list pc) : Prop :=
  Forall (fun i => exists s', i = Waiting s' /\ same_barrier s s' = true) l.

Definition release (i : pc) : pc :=
  match i with
  | Waiting s => Released s
  | other => other
  end.

(** [if (get_global_id(0) == 0) { ... }] after the barrier. *)
Definition finish (p : Z) (id : nat) (s : site) (g : group) : group :=
  match id, s with
  | O, AfterCopy bufpos =>
      {| cell_countdown := wrap32 (p - 1);
         cell_bufposition := wrap32 (bufpos + 1);
         items := set_nth id Finished (items g) |}
  | O, NoCopy countdown =>
      {| cell_countdown := wrap32 (countdown - 1);
         cell_bufposition := cell_bufposition g;
         items := set_nth id Finished (items g) |}
  | S _, _ =>
      {| cell_countdown := cell_countdown g;
         cell_bufposition := cell_bufposition g;
         items := set_nth id Finished (items g) |}
  end.

(** One step of one execution of the work-group for [periods[n] = p]: a
    work-item runs up to its barrier, the barrier lets the whole group
    through once all its work-items wait at it, or a work-item runs from
    the barrier to the end. *)
Inductive exec (p : Z) : group -> group -> Prop :=
| exec_arrive g id :
    nth_error (items g) id = Some Entry ->
    exec p g {| cell_countdown := cell_countdown g;
                cell_bufposition := cell_bufposition g;
                items := set_nth id (arrive g) (items g) |}
| exec_barrier g s :
    items g <> [] ->
    all_waiting_at s (items g) ->
    exec p g {| cell_countdown := cell_countdown g;
                cell_bufposition := cell_bufposition g;
                items := map release (items g) |}
| exec_finish g id s :
    nth_error (items g) id = Some (Released s) ->
    exec p g (finish p id s g).

(** The states of the executions from [g0]. *)
Inductive reachable (p : Z) (g0 : group) : group -> Prop :=
| reach_start : reachable p g0 g0
| reach_step g g' : reachable p g0 g -> exec p g g' -> reachable p g0 g'.

(** A work-group of [size] work-items at the launch. *)
Definition launch (c b : Z) (size : nat) : group :=
  {| cell_countdown := c; cell_bufposition := b; items := repeat Entry size |}.

(** The barrier the pre-kernel cells lead to. *)
Definition site_of (c b : Z) : site :=
  if c =? 0 then AfterCopy b else NoCopy c.

(** Before the barrier opens the cells are untouched and every work-item
    is at the entry or waits at the one barrier; after it every work-item
    is past that barrier. *)
Definition before_barrier (c b : Z) (g : group) : Prop :=
  cell_countdown g = c /\ cell_bufposition g = b /\
  Forall (fun i => i = Entry \/ i = Waiting (site_of c b)) (items g).

Definition after_barrier (p c b : Z) (g : group) : Prop :=
  Forall (fun i => i = Released (site_of c b) \/ i = Finished) (items g) /\
  (cell_countdown g, cell_bufposition g)
  = match nth_error (items g) 0 with
    | Some Finished => next_counters p c b
    | _ => (c, b)
    end.

Definition finished (g : group) : Prop :=
  Forall (fun i => i = Finished) (items g).

(** *** Every execution passes the barrier *)

Lemma Forall_set_nth (A : Type) (P : A -> Prop) (x : A) : forall l i,
  Forall P l -> P x -> Forall P (set_nth i x l).
Proof.
  induction l as [|y l IH]; intros i Hl Hx; [destruct i; constructor|].
  inversion Hl; subst. destruct i; cbn [set_nth]; constructor; auto.
Qed.

Lemma Forall_nth_error (A : Type) (P : A -> Prop) : forall l i x,
  Forall P l -> nth_error l i = Some x -> P x.
Proof.
  induction l as [|y l IH]; intros [|i] x Hl Hx; cbn in Hx; try discriminate;
    inversion Hl; subst.
  - injection Hx as <-. assumption.
  - eapply IH; eauto.
Qed.

Lemma nth_error_set_nth_0 (A : Type) (x : A) l i :
  i <> 0%nat -> nth_error (set_nth i x l) 0 = nth_error l 0.
Proof. destruct l, i; cbn; congruence. Qed.

Lemma before_launch c b size : before_barrier c b (launch c b size).
Proof.
  unfold before_barrier, launch; cbn. repeat split.
  apply Forall_forall. intros i Hi. apply repeat_spec in Hi. auto.
Qed.

Lemma exec_keeps p c b g g' :
  before_barrier c b g \/ after_barrier p c b g ->
  exec p g g' ->
  before_barrier c b g' \/ after_barrier p c b g'.
Proof.
  intros Hinv Hex. destruct Hex as [g id Hid|g s Hne Hall|g id s Hid].
  - destruct Hinv as [(Hc & Hb & Hit)|(Hit & _)].
    + left. unfold before_barrier; cbn [cell_countdown cell_bufposition items].
      repeat split; auto. apply Forall_set_nth; [exact Hit|].
      right. unfold arrive, site_of. rewrite Hc, Hb.
      destruct (c =? 0); reflexivity.
    + destruct (@Forall_nth_error _ _ _ _ _ Hit Hid); discriminate.
  - destruct Hinv as [(Hc & Hb & Hit)|(Hit & _)].
    + right. unfold after_barrier; cbn [cell_countdown cell_bufposition items].
      split.
      * apply Forall_map. clear Hne.
        induction Hit as [|i l Hi _ IH]; constructor.
        -- inversion Hall as [|? ? (s' & Hs' & _) _]; subst.
           destruct Hi as [Hi|Hi]; [discriminate|]. rewrite Hi. left. reflexivity.
        -- apply IH. inversion Hall; assumption.
      * rewrite Hc, Hb. destruct (items g) as [|i l]; [congruence|].
        cbn [map nth_error].
        inversion Hall as [|? ? (s' & -> & _) _]; subst. reflexivity.
    + destruct (items g) as [|i l]; [congruence|].
      inversion Hall as [|? ? (s' & Hs' & _) _]; subst.
      inversion Hit as [|? ? [Hi|Hi] _]; discriminate.
  - destruct Hinv as [(_ & _ & Hit)|(Hit & Hcells)].
    + destruct (@Forall_nth_error _ _ _ _ _ Hit Hid); discriminate.
    + right. assert (Hs : s = site_of c b).
      { destruct (@Forall_nth_error _ _ _ _ _ Hit Hid) as [E|E];
          [congruence|discriminate]. }
      subst s. unfold after_barrier. split.
      * unfold finish. destruct id, (site_of c b);
          cbn [items]; apply Forall_set_nth; auto.
      * destruct id as [|id].
        -- rewrite Hid in Hcells. injection Hcells as Hc Hb.
           unfold finish, site_of, next_counters in *.
           destruct (items g) as [|i l]; [discriminate|].
           destruct (c =? 0) eqn:E0;
             cbn [cell_countdown cell_bufposition items set_nth nth_error].
           ++ apply Z.eqb_eq in E0. subst c. reflexivity.
           ++ rewrite Hb. reflexivity.
        -- unfold finish. destruct (site_of c b);
             cbn [cell_countdown cell_bufposition items];
             rewrite nth_error_set_nth_0 by discriminate; exact Hcells.
Qed.

Lemma reachable_keeps p c b size g :
  reachable p (launch c b size) g ->
  before_barrier c b g \/ after_barrier p c b g.
Proof.
  induction 1 as [|g g' _ IH Hex].
  - left. apply before_launch.
  - eapply exec_keeps; eauto.
Qed.

Lemma find_entry s : forall l,
  Forall (fun i => i = Entry \/ i = Waiting s) l ->
  (exists id, nth_error l id = Some Entry) \/ all_waiting_at s l.
Proof.
  induction 1 as [|i l Hi _ IH].
  - right. constructor.
  - destruct Hi as [-> | ->]; [left; exists 0%nat; reflexivity|].
    destruct IH as [(id & Hid)|Hall].
    + left. exists (S id). exact Hid.
    + right. constructor; [|exact Hall].
      exists s. split; [reflexivity|destruct s; reflexivity].
Qed.

Lemma find_released s : forall l,
  Forall (fun i => i = Released s \/ i = Finished) l ->
  (exists id, nth_error l id = Some (Released s)) \/
  Forall (fun i => i = Finished) l.
Proof.
  induction 1 as [|i l Hi _ IH].
  - right. constructor.
  - destruct Hi as [-> | ->]; [left; exists 0%nat; reflexivity|].
    destruct IH as [(id & Hid)|Hall].
    + left. exists (S id). exact Hid.
    + right. constructor; auto.
Qed.

Lemma exec_length p g g' :
  exec p g g' -> length (items g') = length (items g).
Proof.
  intros [g0 id _|g0 s _ _|g0 id s _]; cbn [items].
  - apply length_set_nth.
  - apply length_map.
  - unfold finish. destruct id, s; cbn [items]; apply length_set_nth.
Qed.

Lemma reachable_length p c b size g :
  reachable p (launch c b size) g -> length (items g) = size.
Proof.
  induction 1 as [|g g' _ IH Hex].
  - cbn. apply repeat_length.
  - rewrite (exec_length Hex). exact IH.
Qed.

(** C9.  In every execution of the work-group of a row, every work-item
    that has evaluated the condition [countdown == 0] found the value the
    pre-kernel [countdowns[n]] gives it and waits at, or has passed, the
    barrier of that branch; the execution is never stuck short of its end;
    and at its end the cells hold the counters of the row-level kernel. *)
Theorem barrier_reached_uniformly (p c b : Z) (size : nat) (g : group) :
  reachable p (launch c b size) g ->
  (forall id s,
      nth_error (items g) id = Some (Waiting s) \/
      nth_error (items g) id = Some (Released s) ->
      s = site_of c b) /\
  (finished g \/ exists g', exec p g g') /\
  (finished g -> (1 <= size)%nat ->
   (cell_countdown g, cell_bufposition g) = next_counters p c b).
Proof.
  intros Hr. pose proof (reachable_length Hr) as Hlen.
  destruct (reachable_keeps Hr) as [(Hc & Hb & Hit)|(Hit & Hcells)].
  - split; [|split].
    + intros id s [Hid|Hid];
        destruct (@Forall_nth_error _ _ _ _ _ Hit Hid) as [E|E];
        congruence.
    + destruct (find_entry Hit) as [(id & Hid)|Hall].
      * right. eexists. apply (exec_arrive p g id Hid).
      * destruct (items g) as [|i l] eqn:Hg.
        -- left. unfold finished. rewrite Hg. constructor.
        -- right. eexists. apply (@exec_barrier p g (site_of c b)).
           ++ congruence.
           ++ rewrite Hg. exact Hall.
    + intros Hfin Hsize. unfold finished in Hfin.
      destruct (items g) as [|i l]; [cbn in Hlen; lia|].
      inversion Hfin; inversion Hit as [|? ? [E|E] _]; subst; discriminate.
  - split; [|split].
    + intros id s [Hid|Hid];
        destruct (@Forall_nth_error _ _ _ _ _ Hit Hid) as [E|E];
        congruence.
    + destruct (find_released Hit) as [(id & Hid)|Hall].
      * right. eexists. apply (exec_finish p g id Hid).
      * left. exact Hall.
    + intros Hfin Hsize. unfold finished in Hfin.
      destruct (items g) as [|i l]; [cbn in Hlen; lia|].
      inversion Hfin; subst. exact Hcells.
Qed.

(** A work-group of two work-items of which the second has arrived. *)
Lemma one_arrived :
  reachable 3 (launch 0 0 2)
            {| cell_countdown := 0; cell_bufposition := 0;
               items := [Entry; Waiting (AfterCopy 0)] |}.
Proof.
  eapply reach_step; [apply reach_start|].
  apply (exec_arrive 3 (launch 0 0 2) 1). reflexivity.
Defined.

Lemma barrier_reached_uniformly_witness :
  reachable 3 (launch 0 0 2)
            {| cell_countdown := 0; cell_bufposition := 0;
               items := [Entry; Waiting (AfterCopy 0)] |} /\
  (forall id s,
      nth_error [Entry; Waiting (AfterCopy 0)] id = Some (Waiting s) \/
      nth_error [Entry; Waiting (AfterCopy 0)] id = Some (Released s) ->
      s = site_of 0 0).
Proof.
  split; [exact one_arrived|].
  exact (proj1 (@barrier_reached_uniformly 3 0 0 2 _ one_arrived)).
Defined.

(** A whole execution of that work-group: both work-items arrive, the
    barrier opens, both run to the end, and the cells hold what the
    row-level kernel computes. *)
Example two_items_finish :
  reachable 3 (launch 0 0 2)
            {| cell_countdown := 2; cell_bufposition := 1;
               items := [Finished; Finished] |} /\
  next_counters 3 0 0 = (2, 1).
Proof.
  split; [|reflexivity].
  eapply reach_step.
  2: { apply (@exec_finish 3
               {| cell_countdown := 0; cell_bufposition := 0;
                  items := [Released (AfterCopy 0); Finished] |}
               0%nat (AfterCopy 0)). reflexivity. }
  eapply reach_step.
  2: { apply (@exec_finish 3
               {| cell_countdown := 0; cell_bufposition := 0;
                  items := [Released (AfterCopy 0); Released (AfterCopy 0)] |}
               1%nat (AfterCopy 0)). reflexivity. }
  eapply reach_step.
  2: { apply (@exec_barrier 3
               {| cell_countdown := 0; cell_bufposition := 0;
                  items := [Waiting (AfterCopy 0); Waiting (AfterCopy 0)] |}
               (AfterCopy 0)); [discriminate|].
       repeat constructor; eexists; split; reflexivity. }
  eapply reach_step; [exact one_arrived|].
  apply (@exec_arrive 3
           {| cell_countdown := 0; cell_bufposition := 0;
              items := [Entry; Waiting (AfterCopy 0)] |} 0%nat).
  reflexivity.
Qed.

End Barrier.

(* ===================================================================== *)
(** ** More on the two regimes of the template                            *)
(* ===================================================================== *)

Module TemplateMore.

Import Template.

(** A store goes to an element of the batch: offset [m] of row [n] of the
    output it belongs to, with [m] inside the row. *)
Definition in_a_row (V : Type) (ovars : list (list nat)) (lengths : list nat)
    (s : store V) : Prop :=
  exists n m,
    n < N lengths /\ m < idx lengths n /\
    st_var s < length ovars /\
    st_addr s = idx (nth (st_var s) ovars []) n + m.

Section OneElement.

Variable V : Type.
Variable L : Type.
Variable core_text : regs V L -> regs V L.
Variable ivars : list (ragged V).
Variable ovars : list (list nat).
Variable pvars : list (ragged V).
Variable lengths : list nat.

Lemma elems_from_head n m :
  m < idx lengths n ->
  firstn 1 (elems_from lengths n m) = [(n, m)].
Proof.
  intros Hm. unfold elems_from. rewrite row_from_step by exact Hm.
  reflexivity.
Qed.

Lemma flat_item_one junk gid :
  gid < list_sum lengths ->
  exists e,
    flat_item core_text ivars ovars pvars lengths 1 junk gid = Some [e] /\
    loaded core_text ivars ovars pvars lengths e /\
    coords [e] = firstn 1 (skipn (gid * 1) (elems lengths)).
Proof.
  intros Hg.
  destruct (@walk_spec lengths (S (N lengths)) (gid * 1) 0)
    as (m & n & Hw & Hn & Hm & Hsk); [lia|cbn [skipn]; lia|].
  eexists. unfold flat_item. rewrite Hw.
  destruct (N lengths <=? n) eqn:HN; [apply Nat.leb_le in HN; lia|].
  split; [reflexivity|]. split.
  - apply flat_event_loaded. apply consistent_init. exact Hm.
  - unfold elems. rewrite Hsk, elems_from_head by exact Hm. reflexivity.
Qed.

Lemma flat_items_one junk gids :
  Forall (fun gid => gid < list_sum lengths) gids ->
  exists evs,
    flat_items core_text ivars ovars pvars lengths 1 junk gids = Some evs /\
    Forall (loaded core_text ivars ovars pvars lengths) evs /\
    coords evs
    = flat_map (fun g => firstn 1 (skipn (g * 1) (elems lengths))) gids.
Proof.
  induction gids as [|gid gids IH]; intros Hall.
  - exists []. repeat split; constructor.
  - inversion Hall as [|? ? Hg Hrest]; subst.
    destruct (IH Hrest) as (evs & Hevs & Hl & Hc).
    destruct (flat_item_one (junk gid) Hg) as (e & Hi & Hle & Hce).
    exists (e :: evs). cbn [flat_items]. rewrite Hi, Hevs.
    split; [reflexivity|]. split; [constructor; assumption|].
    change (coords (e :: evs)) with (coords [e] ++ coords evs).
    rewrite Hce, Hc. reflexivity.
Qed.

Lemma in_elems n m :
  In (n, m) (elems lengths) -> n < N lengths /\ m < idx lengths n.
Proof.
  unfold elems, rows_from, row_from. intros Hin.
  apply in_flat_map in Hin. destruct Hin as (n' & Hn' & Hin).
  apply in_map_iff in Hin. destruct Hin as (m' & E & Hm').
  injection E as <- <-. apply in_seq in Hn'. apply in_seq in Hm'. lia.
Qed.

Lemma loaded_in_a_row evs :
  Forall (loaded core_text ivars ovars pvars lengths) evs ->
  (forall c, In c (coords evs) -> In c (elems lengths)) ->
  Forall (in_a_row ovars lengths) (stores_of evs).
Proof.
  induction 1 as [|e evs He _ IH]; intros Hc; [constructor|].
  unfold stores_of. cbn [flat_map]. apply Forall_app. split.
  - destruct He as (_ & _ & _ & Hs). rewrite Hs. unfold block_stores.
    apply Forall_forall. intros s Hin. apply in_map_iff in Hin.
    destruct Hin as (k & <- & Hk). apply in_seq in Hk.
    destruct (@in_elems (ev_n e) (ev_m e)) as (Hn & Hm).
    { apply Hc. left. reflexivity. }
    exists (ev_n e), (ev_m e). cbn [st_var st_addr]. repeat split; auto; lia.
  - apply IH. intros c Hin. apply Hc. right. exact Hin.
Qed.

End OneElement.

(** X1.  With [n_elements = 1] no work-item of the Flattened launch ever
    moves to a next row: it evaluates every element of the batch once, in
    order, and leaves the output memory of the Block launch, whatever the
    row lengths are, empty rows included. *)
Theorem one_element_chunks_match_block (V L : Type)
    (core_text : regs V L -> regs V L)
    (ivars : list (ragged V)) (ovars : list (list nat))
    (pvars : list (ragged V)) (lengths : list nat)
    (junkf : nat -> regs V L) (junkb : nat -> nat -> regs V L) :
  (forall r r',
      (forall k, k < length ivars -> r_in r k = r_in r' k) ->
      (forall k, k < length pvars -> r_par r k = r_par r' k) ->
      forall k, k < length ovars ->
                r_out (core_text r) k = r_out (core_text r') k) ->
  exists evs,
    flat_kernel core_text ivars ovars pvars lengths 1 junkf = Some evs /\
    coords evs = elems lengths /\
    forall mem,
      apply_stores mem (stores_of evs) =
      apply_stores mem
        (stores_of (block_kernel core_text ivars ovars pvars lengths junkb)).
Proof.
  intros Helem.
  assert (Hg : flat_gsize lengths 1 = list_sum lengths).
  { unfold flat_gsize. rewrite Nat.div_1_r. lia. }
  destruct (@flat_items_one V L core_text ivars ovars pvars lengths junkf
              (seq 0 (list_sum lengths))) as (evs & Hrun & Hl & Hc).
  { apply Forall_forall. intros g Hin. apply in_seq in Hin. lia. }
  assert (Hce : coords evs = elems lengths).
  { rewrite Hc. apply chunks_glue. rewrite length_elems. lia. }
  exists evs. unfold flat_kernel. rewrite Hg. split; [exact Hrun|].
  split; [exact Hce|]. intros mem. f_equal.
  rewrite (@stores_by_coords V L core_text ivars ovars pvars lengths 1
             (le_n 1) Helem (junkb 0 0) evs Hl).
  rewrite (@stores_by_coords V L core_text ivars ovars pvars lengths 1
             (le_n 1) Helem (junkb 0 0) _
             (block_kernel_loaded core_text ivars ovars pvars lengths junkb)).
  rewrite Hce, block_kernel_coords. reflexivity.
Qed.

Lemma one_element_chunks_match_block_witness :
  exists evs,
    flat_kernel TemplateExample.core_add [TemplateExample.J_gap]
                [TemplateExample.R_gap] [TemplateExample.P_gap]
                TemplateExample.lengths_gap 1
                (fun _ => TemplateExample.junk0) = Some evs /\
    coords evs = elems TemplateExample.lengths_gap /\
    forall mem,
      apply_stores mem (stores_of evs) =
      apply_stores mem
        (stores_of (block_kernel TemplateExample.core_add
                      [TemplateExample.J_gap] [TemplateExample.R_gap]
                      [TemplateExample.P_gap] TemplateExample.lengths_gap
                      (fun _ _ => TemplateExample.junk0))).
Proof.
  apply (@one_element_chunks_match_block nat unit TemplateExample.core_add
           [TemplateExample.J_gap] [TemplateExample.R_gap]
           [TemplateExample.P_gap] TemplateExample.lengths_gap
           (fun _ => TemplateExample.junk0)
           (fun _ _ => TemplateExample.junk0)).
  intros r r' Hi Hp k _. cbn [TemplateExample.core_add r_out].
  rewrite (Hi 0), (Hp 0) by (cbn; lia). reflexivity.
Defined.

(** X2.  The Flattened launch has exactly the work-items it needs: chunks
    of [n_elements] cover the elements of the batch, and every work-item
    starts on an element, so none is idle. *)
Theorem flat_gsize_exact (lengths : list nat) (n_elements : nat) :
  1 <= n_elements ->
  list_sum lengths <= flat_gsize lengths n_elements * n_elements /\
  (forall gid, gid < flat_gsize lengths n_elements ->
               gid * n_elements < list_sum lengths) /\
  (flat_gsize lengths n_elements = 0 <-> list_sum lengths = 0).
Proof.
  intros Hne. split; [apply flat_gsize_covers; exact Hne|].
  split; [intros gid; apply gid_in_range; exact Hne|].
  pose proof (flat_gsize_covers lengths Hne) as Hc.
  split; intros H0.
  - rewrite H0 in Hc. lia.
  - destruct (flat_gsize lengths n_elements) as [|g] eqn:E; [reflexivity|].
    pose proof (@gid_in_range lengths n_elements g Hne) as Hg.
    rewrite E in Hg. specialize (Hg (Nat.lt_succ_diag_r g)). lia.
Qed.

Lemma flat_gsize_exact_witness :
  1 <= 10 /\
  list_sum [3; 4; 30] <= flat_gsize [3; 4; 30] 10 * 10 /\
  (forall gid, gid < flat_gsize [3; 4; 30] 10 ->
               gid * 10 < list_sum [3; 4; 30]) /\
  (flat_gsize [3; 4; 30] 10 = 0 <-> list_sum [3; 4; 30] = 0).
Proof.
  split; [lia|]. apply (@flat_gsize_exact [3; 4; 30] 10). lia.
Defined.

(** X3.  Every store of the Block launch goes to an element of the batch,
    an offset inside a row of the output it belongs to; so does every store
    of the Flattened launch when no row is empty. *)
Theorem stores_stay_in_rows (V L : Type) (core_text : regs V L -> regs V L)
    (ivars : list (ragged V)) (ovars : list (list nat))
    (pvars : list (ragged V)) (lengths : list nat) (n_elements : nat)
    (junkf : nat -> regs V L) (junkb : nat -> nat -> regs V L) :
  (forall r k, k < length pvars -> r_par (core_text r) k = r_par r k) ->
  1 <= n_elements ->
  Forall (in_a_row ovars lengths)
         (stores_of (block_kernel core_text ivars ovars pvars lengths junkb)) /\
  (Forall (fun l => 1 <= l) lengths ->
   exists evs,
     flat_kernel core_text ivars ovars pvars lengths n_elements junkf
     = Some evs /\
     Forall (in_a_row ovars lengths) (stores_of evs)).
Proof.
  intros Hconst Hne. split.
  - apply (@loaded_in_a_row V L core_text ivars ovars pvars lengths).
    + apply block_kernel_loaded.
    + intros c. rewrite block_kernel_coords. auto.
  - intros Hpos.
    destruct (@flat_kernel_coords V L core_text ivars ovars pvars lengths
                n_elements Hconst Hne Hpos junkf) as (evs & Hrun & Hl & Hc).
    exists evs. split; [exact Hrun|].
    apply (@loaded_in_a_row V L core_text ivars ovars pvars lengths);
      [exact Hl|].
    intros c. rewrite Hc. auto.
Qed.

Lemma stores_stay_in_rows_witness :
  1 <= 4 /\
  Forall (in_a_row [TemplateExample.R_full] TemplateExample.lengths_full)
         (stores_of (block_kernel TemplateExample.core_add
                       [TemplateExample.J_full] [TemplateExample.R_full]
                       [TemplateExample.P_full] TemplateExample.lengths_full
                       (fun _ _ => TemplateExample.junk0))).
Proof.
  split; [lia|].
  apply (@stores_stay_in_rows nat unit TemplateExample.core_add
           [TemplateExample.J_full] [TemplateExample.R_full]
           [TemplateExample.P_full] TemplateExample.lengths_full 4
           (fun _ => TemplateExample.junk0)
           (fun _ _ => TemplateExample.junk0)).
  - intros r k _. reflexivity.
  - lia.
Defined.

End TemplateMore.

(* ===================================================================== *)
(** ** What [_plan_template] accepts                                      *)
(* ===================================================================== *)

Module PlanBuildMore.

Import PlanBuild.
Import String.

(** An input or output the loop over [inputs.items() + outputs.items()]
    lets through: as many rows as the base, of the same lengths, all
    vectors. *)
Definition io_ok (base : clra) (nv : string * clra) : Prop :=
  len (snd nv) = len base /\
  shape0s (snd nv) = shape0s base /\
  Forall (fun s => s = 1) (shape1s (snd nv)).

(** A parameter array the loop over [params.items()] lets through: as many
    rows as the base, each a vector of length 1 or of the base row's
    length. *)
Definition param_ok (base : clra) (nv : string * clra) : Prop :=
  len (snd nv) = len base /\
  forall i, i < len base -> row_ok base (snd nv) i.

(** An exception: one of those [_plan_template] raises itself, or any
    other one, by its name. *)
Inductive exception : Type :=
| Builtin (e : error)
| OtherException (name : string).

(** A value of the [parameters] dictionary, by what [_plan_template] does
    with it: a [CLRaggedArray]; a value [float(v)] converts; a value on
    which [float(v)] raises, with the exception it raises ([TypeError] on
    [None] or a list, [ValueError] on a string that is no numeral,
    [OverflowError] on an integer too large, whatever a [__float__] method
    raises). *)
Inductive pyvalue : Type :=
| VArray (a : clra)
| VNumber
| VRaises (exc : exception).

(** [for k, v in parameters.items()]: an array goes to [params]; any other
    value goes through [float(v)] under [except TypeError: raise], a
    handler that raises again what it catches and catches nothing else. *)
Fixpoint split_values (ps : list (string * pyvalue))
  : exception + list (string * clra) :=
  match ps with
  | [] => inr []
  | (k, VArray a) :: rest =>
      match split_values rest with
      | inl exc => inl exc
      | inr params => inr ((k, a) :: params)
      end
  | (_, VNumber) :: rest => split_values rest
  | (_, VRaises exc) :: _ =>
      match exc with
      | Builtin TypeError => inl exc
      | _ => inl exc
      end
  end.

(** How a call of [_plan_template] ends: with a plan, with an exception
    of its own statements, or in what follows the computation of [gsize]. *)
Inductive ending : Type :=
| Planned (p : plan)
| Raised (exc : exception)
| BuildFailed.

(** [_plan_template] to its end.  After [gsize] the template engine
    renders the text, [cl.Program(queue.context, text).build()] compiles it
    for the device and [set_args] and [Plan] take the result: whether this
    succeeds is decided outside this file, by the core text, the
    declarations, the names of the constants (each is declared in the
    kernel) and the device, and is the argument [builds]. *)
Definition plan_template_built (builds : bool) (name : string)
    (n_elements : nat) (inputs outputs : list (string * clra))
    (parameters : list (string * pyvalue)) : ending :=
  match inputs with
  | [] => Raised (Builtin IndexError)
  | (_, base) :: _ =>
      match split_values parameters with
      | inl exc => Raised exc
      | inr params =>
          match (avars <- check_io base [] (inputs ++ outputs)%list ;;
                 _ <- check_params base avars params ;;
                 launch_geometry base n_elements) with
          | inl e => Raised (Builtin e)
          | inr gsize =>
              if builds then Planned (Plan name gsize) else BuildFailed
          end
      end
  end.


(** Every assertion of [_plan_template] holds: [base] is the first input,
    every value that is no array converts, the inputs, the outputs and the
    parameter arrays [params] have the shapes asked for, and no two of
    them have the same name. *)
Definition accepted (inputs outputs : list (string * clra))
    (parameters : list (string * pyvalue)) (base : clra)
    (params : list (string * clra)) : Prop :=
  (exists bname rest, inputs = (bname, base) :: rest) /\
  split_values parameters = inr params /\
  Forall (io_ok base) (inputs ++ outputs) /\
  Forall (param_ok base) params /\
  NoDup (map fst (inputs ++ outputs) ++ map fst params).

Lemma name_in_false x l : name_in x l = false <-> ~ In x l.
Proof.
  unfold name_in. split.
  - intros H Hin. apply Bool.not_true_iff_false in H. apply H.
    apply existsb_exists. exists x. split; [exact Hin|apply String.eqb_refl].
  - intros H. apply Bool.not_true_iff_false. intros Hex.
    apply existsb_exists in Hex. destruct Hex as (y & Hy & E).
    apply String.eqb_eq in E. subst y. contradiction.
Qed.

Lemma assert_inr cond msg u : assert cond msg = inr u <-> cond = true.
Proof.
  unfold assert, ret. destruct cond, u; split; intros H;
    try reflexivity; discriminate.
Qed.

Lemma bind_inr {A B : Type} (m : result A) (f : A -> result B) y :
  bind m f = inr y <-> exists x, m = inr x /\ f x = inr y.
Proof.
  destruct m as [e|x]; cbn [bind]; split.
  - discriminate.
  - intros (x & H & _). discriminate.
  - intros H. exists x. auto.
  - intros (x' & H & Hf). injection H as ->. exact Hf.
Qed.

Lemma all_equal_true a b : all_equal a b = true <-> a = b.
Proof.
  unfold all_equal. destruct (list_eq_dec Nat.eq_dec a b); split;
    intros H; try reflexivity; try assumption; try discriminate.
  contradiction.
Qed.

Lemma vectors_true l :
  forallb (fun s => s =? 1) l = true <-> Forall (fun s => s = 1) l.
Proof.
  rewrite forallb_forall, Forall_forall. split; intros H x Hx.
  - apply Nat.eqb_eq. auto.
  - apply Nat.eqb_eq. auto.
Qed.

Lemma check_io_spec base : forall vs avars avars',
  check_io base avars vs = inr avars' <->
  avars' = (rev (map fst vs) ++ avars)%list /\
  Forall (io_ok base) vs /\
  NoDup (map fst vs) /\
  (forall x, In x (map fst vs) -> ~ In x avars).
Proof.
  induction vs as [|[vname v] vs IH]; intros avars avars'.
  - cbn. split.
    + intros H. injection H as <-. repeat split; auto; constructor.
    + intros (-> & _). reflexivity.
  - cbn [check_io map fst rev].
    rewrite bind_inr. setoid_rewrite bind_inr. setoid_rewrite bind_inr.
    setoid_rewrite bind_inr. setoid_rewrite assert_inr. setoid_rewrite IH.
    rewrite <- app_assoc. cbn [app].
    split.
    + intros (_ & Hn & _ & Hlen & _ & Hs0 & _ & Hs1 & -> & Hall & Hnd & Hfresh).
      apply negb_true_iff, name_in_false in Hn.
      apply Nat.eqb_eq in Hlen. apply all_equal_true in Hs0.
      apply vectors_true in Hs1.
      split; [reflexivity|]. split; [constructor; [split; auto|exact Hall]|].
      split.
      * constructor; [|exact Hnd]. intros Hin.
        apply (Hfresh _ Hin). left. reflexivity.
      * intros x [<-|Hin]; [exact Hn|].
        intros Hx. apply (Hfresh _ Hin). right. exact Hx.
    + intros (-> & Hall & Hnd & Hfresh).
      inversion Hall as [|? ? (Hlen & Hs0 & Hs1) Hall']; subst.
      inversion Hnd as [|? ? Hnotin Hnd']; subst. cbn [snd] in *.
      exists tt. split.
      { apply negb_true_iff, name_in_false. apply Hfresh. left. reflexivity. }
      exists tt. split; [apply Nat.eqb_eq; exact Hlen|].
      exists tt. split; [apply all_equal_true; exact Hs0|].
      exists tt. split; [apply vectors_true; exact Hs1|].
      split; [reflexivity|]. split; [exact Hall'|]. split; [exact Hnd'|].
      intros x Hin [<-|Hx]; [contradiction|].
      apply (Hfresh x); [right; exact Hin|exact Hx].
Qed.

Lemma check_rows_spec vname base v : forall todo,
  check_rows vname base v todo = inr tt <-> Forall (row_ok base v) todo.
Proof.
  induction todo as [|i todo IH].
  - cbn. split; [constructor|reflexivity].
  - cbn [check_rows]. rewrite bind_inr. setoid_rewrite bind_inr.
    setoid_rewrite assert_inr. rewrite Forall_cons_iff, <- IH.
    unfold row_ok. rewrite <- !Nat.eqb_eq, <- orb_true_iff. split.
    + intros (_ & H0 & _ & H1 & Hr). auto.
    + intros ((H0 & H1) & Hr). exists tt. split; [exact H0|].
      exists tt. split; [exact H1|exact Hr].
Qed.

Lemma unit_result (m : result unit) :
  (exists u, m = inr u) <-> m = inr tt.
Proof.
  split; [intros ([] & H); exact H|intros H; exists tt; exact H].
Qed.

Lemma check_params_spec base : forall ps avars avars',
  check_params base avars ps = inr avars' <->
  avars' = (rev (map fst ps) ++ avars)%list /\
  Forall (param_ok base) ps /\
  NoDup (map fst ps) /\
  (forall x, In x (map fst ps) -> ~ In x avars).
Proof.
  induction ps as [|[vname v] ps IH]; intros avars avars'.
  - cbn. split.
    + intros H. injection H as <-. repeat split; auto; constructor.
    + intros (-> & _). reflexivity.
  - cbn [check_params map fst rev].
    rewrite bind_inr. setoid_rewrite bind_inr. setoid_rewrite bind_inr.
    setoid_rewrite assert_inr. setoid_rewrite IH.
    rewrite <- app_assoc. cbn [app].
    split.
    + intros (_ & Hn & _ & Hlen & u & Hrows & -> & Hall & Hnd & Hfresh).
      destruct u. apply check_rows_spec in Hrows.
      apply negb_true_iff, name_in_false in Hn. apply Nat.eqb_eq in Hlen.
      split; [reflexivity|]. split.
      * constructor; [|exact Hall]. split; [exact Hlen|]. cbn [snd].
        intros i Hi. rewrite Forall_forall in Hrows. apply Hrows.
        apply in_seq. lia.
      * split.
        -- constructor; [|exact Hnd]. intros Hin.
           apply (Hfresh _ Hin). left. reflexivity.
        -- intros x [<-|Hin]; [exact Hn|].
           intros Hx. apply (Hfresh _ Hin). right. exact Hx.
    + intros (-> & Hall & Hnd & Hfresh).
      inversion Hall as [|? ? (Hlen & Hrows) Hall']; subst.
      inversion Hnd as [|? ? Hnotin Hnd']; subst. cbn [snd] in *.
      exists tt. split.
      { apply negb_true_iff, name_in_false. apply Hfresh. left. reflexivity. }
      exists tt. split; [apply Nat.eqb_eq; exact Hlen|].
      exists tt. split.
      { apply check_rows_spec. apply Forall_forall. intros i Hi.
        apply in_seq in Hi. apply Hrows. lia. }
      split; [reflexivity|]. split; [exact Hall'|]. split; [exact Hnd'|].
      intros x Hin [<-|Hx]; [contradiction|].
      apply (Hfresh x); [right; exact Hin|exact Hx].
Qed.

Lemma NoDup_two (A : Type) (l1 l2 : list A) :
  NoDup (l1 ++ l2) <->
  NoDup l1 /\ NoDup l2 /\ (forall x, In x l2 -> ~ In x l1).
Proof.
  induction l1 as [|a l1 IH]; cbn [app].
  - split; [intros H; repeat split; auto; constructor|intros (_ & H & _); exact H].
  - split.
    + intros H. inversion H as [|? ? Hnotin Hnd]; subst.
      apply IH in Hnd. destruct Hnd as (H1 & H2 & Hd).
      split; [constructor; auto; intros Hin; apply Hnotin, in_or_app; auto|].
      split; [exact H2|].
      intros x Hx [<-|Hin]; [apply Hnotin, in_or_app; auto|].
      apply (Hd x Hx Hin).
    + intros (H1 & H2 & Hd). inversion H1 as [|? ? Hnotin Hnd]; subst.
      constructor.
      * intros Hin. apply in_app_or in Hin. destruct Hin as [Hin|Hin];
          [contradiction|]. apply (Hd a Hin). left. reflexivity.
      * apply IH. repeat split; auto.
        intros x Hx Hin. apply (Hd x Hx). right. exact Hin.
Qed.

(** X4.  [_plan_template] returns a plan exactly when every assertion
    holds, the launch geometry can be computed and the kernel is rendered
    and built: there is a first input, every value that is no array
    converts to a float, every input and output has the rows of the base
    with the same lengths and is made of vectors, every parameter array has
    the rows of the base, each a vector of length 1 or of the base row's
    length, and no two of the inputs, outputs and parameter arrays have the
    same name.  The plan then carries the given name and that geometry.
    The names of the constants are in no assertion: a constant named like
    an array is refused by the build only. *)
Theorem plan_exactly_when_accepted_and_built (builds : bool) (name : string)
    (n_elements : nat) (inputs outputs : list (string * clra))
    (parameters : list (string * pyvalue)) (p : plan) :
  plan_template_built builds name n_elements inputs outputs parameters
  = Planned p <->
  exists base params gsize,
    accepted inputs outputs parameters base params /\
    launch_geometry base n_elements = inr gsize /\
    builds = true /\
    p = Plan name gsize.
Proof.
  unfold plan_template_built, accepted.
  destruct inputs as [|[bname base] rest].
  - split; [discriminate|].
    intros (base & params & gsize & ((b & r & H) & _) & _). discriminate.
  - split.
    + destruct (split_values parameters) as [exc|params] eqn:Hs;
        [discriminate|].
      destruct (bind _ _) as [e|gsize] eqn:H; [discriminate|].
      destruct builds; [|discriminate]. intros Hp. injection Hp as <-.
      apply bind_inr in H. destruct H as (avars & Hio & H).
      apply bind_inr in H. destruct H as (avars' & Hp & Hg).
      apply check_io_spec in Hio. destruct Hio as (-> & Hio & Hnd & _).
      apply check_params_spec in Hp. destruct Hp as (_ & Hps & Hndp & Hfresh).
      exists base, params, gsize.
      split; [|split; [exact Hg|split; reflexivity]].
      split; [exists bname, rest; reflexivity|]. split; [reflexivity|].
      split; [exact Hio|]. split; [exact Hps|].
      apply NoDup_two. split; [exact Hnd|]. split; [exact Hndp|].
      intros x Hx Hin. apply (Hfresh x Hx).
      rewrite app_nil_r. apply in_rev in Hin. exact Hin.
    + intros (base' & params & gsize & ((b & r & E) & Hs & Hio & Hps & Hnd)
              & Hg & -> & ->).
      injection E as <- <- <-. apply NoDup_two in Hnd.
      destruct Hnd as (Hnd & Hndp & Hd).
      rewrite Hs.
      assert (Hc1 : check_io base [] (((bname, base) :: rest) ++ outputs)
                    = inr (rev (map fst (((bname, base) :: rest) ++ outputs))
                           ++ [])%list).
      { apply check_io_spec. split; [reflexivity|].
        split; [exact Hio|]. split; [exact Hnd|]. intros x _ []. }
      rewrite Hc1. cbn [bind].
      assert (Hc2 : check_params base
                      (rev (map fst (((bname, base) :: rest) ++ outputs))
                       ++ [])%list params
                    = inr (rev (map fst params)
                           ++ rev (map fst (((bname, base) :: rest)
                                            ++ outputs)) ++ [])%list).
      { apply check_params_spec. split; [reflexivity|].
        split; [exact Hps|]. split; [exact Hndp|].
        intros x Hx Hin. apply (Hd x Hx).
        rewrite app_nil_r in Hin. apply in_rev. exact Hin. }
      rewrite Hc2. cbn [bind]. rewrite Hg. reflexivity.
Qed.




(** A constant named like the input passes every assertion: the call ends
    as the build of a kernel that declares [j] twice ends. *)
Example constant_named_like_input :
  plan_template_built false "cl_lif" 0 [("j"%string, J_ex)] []
                      [("j"%string, VNumber)]
  = BuildFailed.
Proof. reflexivity. Qed.

End PlanBuildMore.

(** * The LIF sub-step: quiet neurons and the refractory period *)

Module LIFMore.

Import LIF.

Local Open Scope R_scope.

(** *** Bounds on the suppressed voltage *)

(** The suppression gives 0 or a voltage between 0 and the integrated
    one. *)
Lemma suppress_cases dt0 k w0 v1 :
  suppress (sub_dt dt0 k) (sub_dt_inv dt0 k) w0 v1 = 0 \/
  0 <= suppress (sub_dt dt0 k) (sub_dt_inv dt0 k) w0 v1 <= v1.
Proof.
  unfold suppress. rewrite sub_dt_inv_inverse.
  set (dt := sub_dt dt0 k).
  destruct (Rltb_spec v1 0) as [Hv|Hv]; cbn [orb]; [left; reflexivity|].
  destruct (Rltb_spec (2 * dt) w0) as [Hw2|Hw2]; [left; reflexivity|].
  right.
  destruct (Rltb_spec dt w0) as [Hw1|Hw1]; [|lra].
  assert (Hdt : 0 < dt) by lra.
  assert (Hq : 0 <= (w0 - dt) * / dt <= 1).
  { split.
    - apply Rmult_le_pos; [lra|]. left. apply Rinv_0_lt_compat. exact Hdt.
    - apply Rmult_le_reg_r with dt; [exact Hdt|].
      rewrite Rmult_assoc, Rinv_l by lra. lra. }
  nra.
Qed.

(** The share [dt / tau] of a sub-step no longer than [tau]. *)
Lemma share_range dt tau0 : 0 < dt <= tau0 -> 0 < dt / tau0 <= 1.
Proof.
  intros [Hdt Htau]. unfold Rdiv.
  assert (Hi : 0 < / tau0) by (apply Rinv_0_lt_compat; lra).
  split.
  - apply Rmult_lt_0_compat; assumption.
  - apply Rmult_le_reg_r with tau0; [lra|].
    rewrite Rmult_assoc, Rinv_l by lra. lra.
Qed.

(** Below the threshold with an input current of 1 at most, the
    integrated voltage stays below the threshold. *)
Lemma integrated_below dt (s : vars) :
  0 < dt <= tau s -> j s <= 1 -> v s <= 1 ->
  v s + dt / tau s * (j s - v s) <= 1.
Proof.
  intros Hdt Hj Hv. pose proof (@share_range _ _ Hdt) as Ha.
  set (a := dt / tau s) in *. nra.
Qed.

Lemma quiet_substep dt0 k (s : vars) :
  0 < sub_dt dt0 k <= tau s -> j s <= 1 -> v s <= 1 ->
  crosses (sub_dt dt0 k) (sub_dt_inv dt0 k) s = false /\
  v (substep (sub_dt dt0 k) (sub_dt_inv dt0 k) s) <= 1 /\
  j (substep (sub_dt dt0 k) (sub_dt_inv dt0 k) s) = j s /\
  tau (substep (sub_dt dt0 k) (sub_dt_inv dt0 k) s) = tau s.
Proof.
  intros Hdt Hj Hv.
  pose proof (@integrated_below _ s Hdt Hj Hv) as H1.
  pose proof (suppress_cases dt0 k (w s)
                (v s + sub_dt dt0 k / tau s * (j s - v s))) as Hs.
  assert (Hle : suppress (sub_dt dt0 k) (sub_dt_inv dt0 k) (w s)
                  (v s + sub_dt dt0 k / tau s * (j s - v s)) <= 1)
    by (destruct Hs as [-> | Hs]; lra).
  unfold crosses, substep.
  rewrite (@Rltb_false V_threshold _) by (unfold V_threshold; exact Hle).
  cbn [v j tau]. auto.
Qed.

Lemma quiet_substeps dt0 k n : forall s : vars,
  0 < sub_dt dt0 k <= tau s -> j s <= 1 -> v s <= 1 ->
  spiked (substeps n (sub_dt dt0 k) (sub_dt_inv dt0 k) s) = spiked s /\
  v (substeps n (sub_dt dt0 k) (sub_dt_inv dt0 k) s) <= 1.
Proof.
  induction n as [|n IH]; intros s Hdt Hj Hv.
  - cbn [substeps]. auto.
  - cbn [substeps].
    destruct (@quiet_substep dt0 k s Hdt Hj Hv) as (Hc & Hv' & Hj' & Htau').
    destruct (IH (substep (sub_dt dt0 k) (sub_dt_inv dt0 k) s)) as [Hsp Hvn].
    + rewrite Htau'. exact Hdt.
    + rewrite Hj'. exact Hj.
    + exact Hv'.
    + split; [|exact Hvn].
      rewrite Hsp, spiked_substep, Hc, orb_false_r. reflexivity.
Qed.

(** X6.  A neuron whose input current is at most 1 and whose voltage is
    at most 1 does not spike, however many sub-steps the tick has, provided
    the sub-step [dt/upsample] is positive and not longer than [tau]: the
    indicator written back is 0.0 and the voltage written back is in
    [0, 1] below the threshold. *)
Theorem subthreshold_never_spikes (dt0 : R) (upsample : nat) (s : vars) :
  0 < sub_dt dt0 upsample <= tau s ->
  j s <= 1 ->
  v s <= 1 ->
  os (lif_text dt0 upsample s) = 0 /\
  ov (lif_text dt0 upsample s) <= 1 /\
  forall i, (i < upsample)%nat ->
    crosses (sub_dt dt0 upsample) (sub_dt_inv dt0 upsample)
            (substeps i (sub_dt dt0 upsample) (sub_dt_inv dt0 upsample)
                      (clear_spiked s)) = false.
Proof.
  intros Hdt Hj Hv.
  destruct (@quiet_substeps dt0 upsample upsample (clear_spiked s) Hdt Hj Hv)
    as [Hsp Hvn].
  unfold lif_text. cbn [write_back os ov]. rewrite Hsp. cbn [clear_spiked spiked].
  split; [reflexivity|]. split; [exact Hvn|].
  intros i Hi.
  destruct (spiked_substeps upsample (sub_dt dt0 upsample)
              (sub_dt_inv dt0 upsample) (clear_spiked s)) as [_ Hback].
  destruct (crosses _ _ (substeps i _ _ (clear_spiked s))) eqn:Hc;
    [|reflexivity].
  rewrite Hsp in Hback. cbn [clear_spiked spiked] in Hback.
  symmetry. apply Hback. right. exists i. split; [exact Hi|exact Hc].
Qed.

Lemma subthreshold_never_spikes_witness :
  os (lif_text (1 / 1000) 2 (rest (1 / 2) (2 / 100) (2 / 1000))) = 0.
Proof.
  refine (proj1 (@subthreshold_never_spikes (1 / 1000) 2
                   (rest (1 / 2) (2 / 100) (2 / 1000)) _ _ _));
    unfold sub_dt, rest; cbn [tau j v INR]; lra.
Defined.



Lemma held_substep dt dt_inv (s : vars) :
  2 * dt < w s ->
  v (substep dt dt_inv s) = 0 /\
  w (substep dt dt_inv s) = w s - dt /\
  spiked (substep dt dt_inv s) = spiked s.
Proof.
  intros Hw. unfold substep, suppress.
  rewrite (@Rltb_true (2 * dt) (w s) Hw), orb_true_r.
  unfold V_threshold. rltb. cbn [v w spiked]. auto.
Qed.

(** X8.  Deep in the refractory period the neuron is held: while the
    refractory time exceeds two sub-steps, each sub-step forces the voltage
    to 0 whatever the input current is, takes one sub-step from the
    refractory time and emits no spike. *)
Theorem held_while_refractory (dt dt_inv : R) (n : nat) (s : vars) :
  0 < dt ->
  INR (S n) * dt < w s ->
  let s' := substeps n dt dt_inv s in
  ((1 <= n)%nat -> v s' = 0) /\
  w s' = w s - INR n * dt /\
  spiked s' = spiked s.
Proof.
  intros Hdt. revert s. induction n as [|n IH]; intros s Hw; cbv zeta.
  - cbn [substeps INR]. split; [lia|]. split; [lra|reflexivity].
  - rewrite substeps_last.
    assert (Hn : 0 <= INR n) by apply pos_INR.
    rewrite !S_INR in Hw.
    destruct (IH s) as (_ & Hwn & Hsn).
    { rewrite S_INR. nra. }
    destruct (@held_substep dt dt_inv (substeps n dt dt_inv s))
      as (Hv' & Hw' & Hs').
    { rewrite Hwn. nra. }
    rewrite Hv', Hw', Hs', Hwn, Hsn, S_INR.
    split; [reflexivity|]. split; [lra|reflexivity].
Qed.

Lemma held_while_refractory_witness :
  let s := Vars 30 (1 / 2) (5 / 1000) (2 / 100) (2 / 1000) false 0 0 0 0 0 in
  let s' := substeps 3 (1 / 1000) 1000 s in
  ((1 <= 3)%nat -> v s' = 0) /\
  w s' = w s - INR 3 * (1 / 1000) /\
  spiked s' = spiked s.
Proof.
  apply (@held_while_refractory (1 / 1000) 1000 3
           (Vars 30 (1 / 2) (5 / 1000) (2 / 100) (2 / 1000) false 0 0 0 0 0)).
  - lra.
  - cbn [w INR]. lra.
Defined.

End LIFMore.

(** * The rate rule: range and monotonicity *)

Module LIFRateMore.

Import LIFRate.

Local Open Scope R_scope.

Lemma ln_1p_pos q : 0 < q -> 0 < ln (1 + q).
Proof. intros H. rewrite <- ln_1. apply ln_increasing; lra. Qed.

Lemma ln_monotone x y : 0 < x -> x <= y -> ln x <= ln y.
Proof.
  intros Hx [Hlt | ->]; [|lra]. left. apply ln_increasing; assumption.
Qed.

(** The reciprocal of the current above the threshold. *)
Lemma excess_pos J : 1 < J -> 0 < 1 / (J - 1).
Proof. intros H. apply Rdiv_lt_0_compat; lra. Qed.

Lemma excess_antitone J1 J2 : 1 < J1 -> J1 <= J2 -> 1 / (J2 - 1) <= 1 / (J1 - 1).
Proof.
  intros H1 H12. unfold Rdiv. rewrite !Rmult_1_l.
  apply Rinv_le_contravar; lra.
Qed.

(** The denominator of the rule above the threshold exceeds [ref]. *)
Lemma denominator_above J tau ref :
  1 < J -> 0 < tau -> ref < ref + tau * ln (1 + 1 / (J - 1)).
Proof.
  intros HJ Htau.
  pose proof (ln_1p_pos (excess_pos HJ)) as Hln. nra.
Qed.

Lemma quotient_le dt a b : 0 <= dt -> 0 < a -> a <= b -> dt / b <= dt / a.
Proof.
  intros Hdt Ha Hab. unfold Rdiv.
  apply Rmult_le_compat_l; [exact Hdt|]. apply Rinv_le_contravar; assumption.
Qed.

Lemma quotient_lt dt a b : 0 < dt -> 0 < a -> a < b -> dt / b < dt / a.
Proof.
  intros Hdt Ha Hab. unfold Rdiv.
  apply Rmult_lt_compat_l; [exact Hdt|]. apply Rinv_lt_contravar; [nra|exact Hab].
Qed.

(** The rate as a real for positive parameters. *)
Definition rate_value (dt J tau ref : R) : R :=
  if Rlt_dec 1 J then dt / (ref + tau * ln (1 + 1 / (J - 1))) else 0.

Lemma rate_is_value dt J tau ref :
  0 < tau -> 0 < ref ->
  rate_per_step dt (Fin J) (Fin tau) (Fin ref) = Fin (rate_value dt J tau ref).
Proof.
  intros Htau Href. unfold rate_value. destruct (Rlt_dec 1 J) as [HJ|HJ].
  - apply rate_above; [exact HJ|].
    pose proof (denominator_above ref HJ Htau). lra.
  - apply rate_below; [lra|exact Htau].
Qed.

(** X9.  For a positive [tau] and a positive [ref] the rule writes a
    finite rate between 0 and [dt / ref], one spike per refractory period,
    for every finite current; for a positive [dt] the bound is never
    reached and the rate is 0 exactly for currents of 1 at most. *)
Theorem rate_in_range (dt J tau ref : R) :
  0 <= dt -> 0 < tau -> 0 < ref ->
  exists r,
    rate_per_step dt (Fin J) (Fin tau) (Fin ref) = Fin r /\
    0 <= r <= dt / ref /\
    (0 < dt -> r < dt / ref /\ (r = 0 <-> J <= 1)).
Proof.
  intros Hdt Htau Href. exists (rate_value dt J tau ref).
  split; [apply rate_is_value; assumption|].
  assert (Hi : 0 < / ref) by (apply Rinv_0_lt_compat; exact Href).
  unfold rate_value. destruct (Rlt_dec 1 J) as [HJ|HJ].
  - pose proof (denominator_above ref HJ Htau) as Hden.
    set (den := ref + tau * ln (1 + 1 / (J - 1))) in *.
    assert (Hid : 0 < / den) by (apply Rinv_0_lt_compat; lra).
    split.
    + split.
      * unfold Rdiv. apply Rmult_le_pos; lra.
      * apply quotient_le; lra.
    + intros Hpos. split.
      * apply quotient_lt; lra.
      * split; [|lra]. intros H0. unfold Rdiv in H0. nra.
    - split.
    + split; [lra|]. unfold Rdiv. apply Rmult_le_pos; lra.
    + intros Hpos. split.
      * unfold Rdiv. apply Rmult_lt_0_compat; lra.
      * split; [lra|reflexivity].
Qed.

Lemma rate_in_range_witness :
  exists r,
    rate_per_step (1 / 1000) (Fin 2) (Fin (2 / 100)) (Fin (2 / 1000)) = Fin r /\
    0 <= r <= (1 / 1000) / (2 / 1000) /\
    (0 < 1 / 1000 -> r < (1 / 1000) / (2 / 1000) /\ (r = 0 <-> 2 <= 1)).
Proof.
  apply (@rate_in_range (1 / 1000) 2 (2 / 100) (2 / 1000)); lra.
Defined.

(** X10.  For a non-negative [dt] and positive [tau] and [ref] the rate
    the rule writes does not decrease when the current increases. *)
Theorem rate_monotone (dt J1 J2 tau ref : R) :
  0 <= dt -> 0 < tau -> 0 < ref -> J1 <= J2 ->
  exists r1 r2,
    rate_per_step dt (Fin J1) (Fin tau) (Fin ref) = Fin r1 /\
    rate_per_step dt (Fin J2) (Fin tau) (Fin ref) = Fin r2 /\
    r1 <= r2.
Proof.
  intros Hdt Htau Href H12.
  exists (rate_value dt J1 tau ref), (rate_value dt J2 tau ref).
  split; [apply rate_is_value; assumption|].
  split; [apply rate_is_value; assumption|].
  unfold rate_value.
  destruct (Rlt_dec 1 J1) as [H1|H1]; destruct (Rlt_dec 1 J2) as [H2|H2];
    try lra.
  - pose proof (denominator_above ref H2 Htau) as Hden2.
    apply quotient_le; [exact Hdt|lra|].
    pose proof (excess_antitone H1 H12) as Hq.
    pose proof (excess_pos H2) as Hq2.
    assert (Hln : ln (1 + 1 / (J2 - 1)) <= ln (1 + 1 / (J1 - 1)))
      by (apply ln_monotone; lra).
    nra.
  - pose proof (denominator_above ref H2 Htau) as Hden2.
    assert (Hid : 0 < / (ref + tau * ln (1 + 1 / (J2 - 1))))
      by (apply Rinv_0_lt_compat; lra).
    unfold Rdiv. apply Rmult_le_pos; lra.
Qed.

Lemma rate_monotone_witness :
  exists r1 r2,
    rate_per_step (1 / 1000) (Fin 2) (Fin (2 / 100)) (Fin (2 / 1000)) = Fin r1 /\
    rate_per_step (1 / 1000) (Fin 3) (Fin (2 / 100)) (Fin (2 / 1000)) = Fin r2 /\
    r1 <= r2.
Proof.
  apply (@rate_monotone (1 / 1000) 2 3 (2 / 100) (2 / 1000)); lra.
Defined.

(** X11.  With [tau = 0] a current of 1 at most makes the rule write NaN:
    [1.0/j] is infinite, so is its [log1p], and the product of zero and
    infinity is no number. *)
Theorem zero_tau_gives_nan (dt J ref : R) :
  J <= 1 ->
  rate_per_step dt (Fin J) (Fin 0) (Fin ref) = NaN.
Proof.
  intros HJ. unfold rate_per_step. rewrite (current_below HJ).
  cbn [xdiv]. destruct (Req_dec_T 0 0) as [_|E]; [|contradiction].
  rewrite signed_inf_pos by lra. cbn [xlog1p xmul].
  unfold signed_inf.
  destruct (Rlt_dec 0 0) as [H|_]; [lra|]. reflexivity.
Qed.

Lemma zero_tau_gives_nan_witness :
  rate_per_step (1 / 1000) (Fin (1 / 2)) (Fin 0) (Fin (2 / 1000)) = NaN.
Proof.
  apply (@zero_tau_gives_nan (1 / 1000) (1 / 2) (2 / 1000)). lra.
Defined.

End LIFRateMore.

(** * Probes: the sampling schedule, composition of runs and the drain *)

Module ProbesMore.

Import Probes.

Local Open Scope Z_scope.

(** How many of the next [n] steps are sampled by a probe of period [P]
    whose countdown is [C]. *)
Definition due (n C P : nat) : nat := ((n + P - 1 - C) / P)%nat.

(** The steps sampled after step [t]: the first one [C] steps out, then
    every [P]-th one, [k] of them. *)
Definition schedule (t C P k : nat) : list nat :=
  map (fun i => (t + 1 + C + i * P)%nat) (seq 0 k).

(** The fields of a row that a run determines; the ring keeps stale
    samples. *)
Definition same_log (sample : Type) (r1 r2 : row sample) : Prop :=
  period r1 = period r2 /\ source r1 = source r2 /\
  countdown r1 = countdown r2 /\ bufposition r1 = bufposition r2 /\
  outputs r1 = outputs r2.

(** [N] steps in groups of [M]: the full groups, then what is left. *)
Definition groups (N M : nat) : list nat :=
  (repeat M (N / M)%nat
   ++ if (N mod M =? 0)%nat then [] else [(N mod M)%nat])%list.

(** A probe that is due, in a ring of two slots. *)
Definition due_row : row nat := fresh_row 2 3 (fun t => (10 * t)%nat) 0%nat.

(** *** The schedule *)

Lemma schedule_S t C P k :
  schedule t C P (S k) = ((t + 1 + C)%nat :: schedule (t + P) C P k).
Proof.
  unfold schedule. cbn [seq map]. f_equal; [lia|].
  rewrite <- seq_shift, map_map. apply map_ext. intros i. lia.
Qed.

Lemma schedule_shift t C P k :
  schedule (S t) C P k = schedule t (S C) P k.
Proof. unfold schedule. apply map_ext. intros i. lia. Qed.

Lemma samples_schedule (sample : Type) (src : nat -> sample) :
  forall n t p c,
    1 <= p < 2 ^ 31 -> 0 <= c <= p - 1 ->
    samples n t p c src
    = map src (schedule t (Z.to_nat c) (Z.to_nat p)
                        (due n (Z.to_nat c) (Z.to_nat p))).
Proof.
  induction n as [|n IH]; intros t p c Hp Hc.
  - unfold due. rewrite Nat.div_small by lia. reflexivity.
  - rewrite samples_unfold. destruct (Z.eqb_spec c 0) as [->|Hne].
    + rewrite wrap32_small by lia. rewrite IH by lia.
      change (Z.to_nat 0) with 0%nat.
      assert (Hd : due (S n) 0 (Z.to_nat p)
                   = S (due n (Z.to_nat (p - 1)) (Z.to_nat p))).
      { unfold due.
        replace (S n + Z.to_nat p - 1 - 0)%nat
          with (n + 1 * Z.to_nat p)%nat by lia.
        rewrite Nat.div_add by lia.
        replace (n + Z.to_nat p - 1 - Z.to_nat (p - 1))%nat with n by lia.
        lia. }
      rewrite Hd, schedule_S. cbn [map]. f_equal; [f_equal; lia|].
      f_equal. unfold schedule. apply map_ext. intros i. lia.
    + rewrite wrap32_small by lia. rewrite IH by lia.
      f_equal. rewrite schedule_shift.
      replace (S (Z.to_nat (c - 1))) with (Z.to_nat c) by lia.
      f_equal. unfold due. f_equal. lia.
Qed.

(** *** Two runs from the same rows *)

Lemma advanced_agree (sample : Type) (n_prealloc n t : nat)
    (rs rs1 : list (row sample)) : forall rs2,
  Forall2 (advanced n_prealloc n t) rs rs1 ->
  Forall2 (advanced n_prealloc n t) rs rs2 ->
  Forall2 (@same_log sample) rs1 rs2.
Proof.
  intros rs2 H1. revert rs2.
  induction H1 as [|r r1 rs rs1 Hr _ IH]; intros rs2 H2; inversion H2; subst.
  - constructor.
  - constructor; [|apply IH; assumption].
    match goal with
    | H : advanced _ _ _ r ?y |- same_log r1 ?y =>
        destruct Hr as (Hp & Hs & Hc & Ho & (_ & _ & Hb & _));
        destruct H as (Hp' & Hs' & Hc' & Ho' & (_ & _ & Hb' & _))
    end.
    unfold same_log. repeat split; congruence.
Qed.

(** *** The drain *)

Lemma drain_row_twice (sample : Type) (r : row sample) :
  drain_row (drain_row r) = drain_row r.
Proof. unfold drain_row. cbn. reflexivity. Qed.

Lemma positions_after_drain (sample : Type) (st : sim sample) :
  forallb (fun r => bufposition r =? 0) (rows (drain_probe_buffers st)) = true.
Proof.
  apply forallb_forall. intros r Hr. unfold drain_probe_buffers in Hr.
  cbn [rows] in Hr. apply in_map_iff in Hr.
  destruct Hr as (r0 & <- & _). reflexivity.
Qed.

Lemma run_nothing_after_drain (sample : Type) (n_prealloc fuel : nat)
    (st : sim sample) :
  run_steps n_prealloc fuel 0 (drain_probe_buffers st)
  = Returns (drain_probe_buffers st, []).
Proof.
  unfold run_steps. rewrite positions_after_drain. apply run_loop_zero.
Qed.

Lemma forallb_undrained (sample : Type) (rs : list (row sample)) :
  Exists (fun r => bufposition r <> 0) rs ->
  forallb (fun r => bufposition r =? 0) rs = false.
Proof.
  induction 1 as [r rs Hr|r rs _ IH]; cbn [forallb].
  - apply Z.eqb_neq in Hr. rewrite Hr. reflexivity.
  - rewrite IH. apply andb_false_r.
Qed.

Lemma due_row_filled (sample : Type) (n_prealloc t : nat)
    (rs0 rs : list (row sample)) :
  Forall2 (filling n_prealloc 1 t) rs0 rs ->
  Forall (fun r0 => 1 <= period r0) rs0 ->
  Exists (fun r0 => countdown r0 = 0) rs0 ->
  Exists (fun r => bufposition r <> 0) rs.
Proof.
  induction 1 as [|r0 r rs0 rs Hf _ IH]; intros Hp He; inversion He; subst.
  - apply Exists_cons_hd.
    destruct Hf as (Hper & _ & _ & _ & _ & Hc & Hb & Heq & _).
    inversion Hp; subst. nia.
  - apply Exists_cons_tl. apply IH; [|assumption].
    inversion Hp; assumption.
Qed.

(** *** The kernel on one ring *)

Lemma nth_error_set_nth_same (A : Type) (x : A) : forall l k,
  (k < length l)%nat -> nth_error (set_nth k x l) k = Some x.
Proof.
  induction l as [|y l IH]; intros [|k] Hk; cbn in Hk |- *; try lia.
  - reflexivity.
  - apply IH. lia.
Qed.

Lemma nth_error_set_nth_other (A : Type) (x : A) : forall l k i,
  i <> k -> nth_error (set_nth k x l) i = nth_error l i.
Proof.
  induction l as [|y l IH]; intros [|k] [|i] Hne; cbn; try reflexivity.
  - contradiction.
  - apply IH. congruence.
Qed.

(** X12.  From drained rows [run_steps(N)] returns and has appended to
    the log of every probe the signal at the steps its countdown selects:
    the first one [countdown] steps after the next step, then every
    [period]-th step, as many as fall within the [N] steps. *)
Theorem run_steps_sampling_schedule (sample : Type) (n_prealloc fuel N : nat)
    (st : sim sample) :
  (1 <= n_prealloc)%nat ->
  Z.of_nat n_prealloc < 2 ^ 31 ->
  Forall (drained n_prealloc) (rows st) ->
  (N <= fuel)%nat ->
  exists st' Bs,
    run_steps n_prealloc fuel N st = Returns (st', Bs) /\
    Forall2 (fun r0 r =>
               outputs r
               = (outputs r0
                  ++ map (source r0)
                         (schedule (tick st) (Z.to_nat (countdown r0))
                                   (Z.to_nat (period r0))
                                   (due N (Z.to_nat (countdown r0))
                                        (Z.to_nat (period r0)))))%list)
            (rows st) (rows st').
Proof.
  intros Hn Hint Hd Hfuel.
  destruct (@run_steps_spec sample n_prealloc Hint fuel N st Hfuel Hn Hd)
    as (st' & Bs & Hrun & _ & Hadv & _).
  exists st', Bs. split; [exact Hrun|].
  clear Hrun. revert Hd. induction Hadv as [|r0 r rs0 rs Ha _ IH]; intros Hd.
  - constructor.
  - inversion Hd as [|? ? Hd0 Hds]; subst.
    constructor; [|apply IH; exact Hds].
    destruct Ha as (_ & _ & _ & Ho & _).
    destruct Hd0 as (Hp & Hc & _).
    rewrite Ho. f_equal. apply samples_schedule; assumption.
Qed.

Lemma run_steps_sampling_schedule_witness :
  exists st' Bs,
    run_steps 2 7 7 two_probes = Returns (st', Bs) /\
    Forall2 (fun r0 r =>
               outputs r
               = (outputs r0
                  ++ map (source r0)
                         (schedule (tick two_probes) (Z.to_nat (countdown r0))
                                   (Z.to_nat (period r0))
                                   (due 7 (Z.to_nat (countdown r0))
                                        (Z.to_nat (period r0)))))%list)
            (rows two_probes) (rows st').
Proof.
  apply (@run_steps_sampling_schedule nat 2 7 7 two_probes).
  - lia.
  - cbn. lia.
  - exact two_probes_drained.
  - lia.
Defined.

(** X13.  [run_steps(a)] followed by [run_steps(b)] leaves every probe
    with the log, the countdown and the position that [run_steps(a + b)]
    leaves, at the same step: where the runs are cut does not show in the
    probe data. *)
Theorem run_steps_compose (sample : Type) (n_prealloc fuel a b : nat)
    (st : sim sample) :
  (1 <= n_prealloc)%nat ->
  Z.of_nat n_prealloc < 2 ^ 31 ->
  Forall (drained n_prealloc) (rows st) ->
  (a + b <= fuel)%nat ->
  exists st1 Bs1 st2 Bs2 st3 Bs3,
    run_steps n_prealloc fuel a st = Returns (st1, Bs1) /\
    run_steps n_prealloc fuel b st1 = Returns (st2, Bs2) /\
    run_steps n_prealloc fuel (a + b) st = Returns (st3, Bs3) /\
    tick st2 = tick st3 /\
    Forall2 (@same_log sample) (rows st2) (rows st3).
Proof.
  intros Hn Hint Hd Hfuel.
  assert (Ha : (a <= fuel)%nat) by lia.
  assert (Hb : (b <= fuel)%nat) by lia.
  destruct (@run_steps_spec sample n_prealloc Hint fuel a st Ha Hn Hd)
    as (st1 & Bs1 & Hrun1 & Ht1 & Hadv1 & _).
  pose proof (advanced_drained Hadv1) as Hd1.
  destruct (@run_steps_spec sample n_prealloc Hint fuel b st1 Hb Hn Hd1)
    as (st2 & Bs2 & Hrun2 & Ht2 & Hadv2 & _).
  destruct (@run_steps_spec sample n_prealloc Hint fuel (a + b) st Hfuel Hn Hd)
    as (st3 & Bs3 & Hrun3 & Ht3 & Hadv3 & _).
  exists st1, Bs1, st2, Bs2, st3, Bs3.
  repeat split; try assumption; [lia|].
  rewrite Ht1 in Hadv2.
  exact (advanced_agree (advanced_trans Hadv1 Hadv2) Hadv3).
Qed.

Lemma run_steps_compose_witness :
  exists st1 Bs1 st2 Bs2 st3 Bs3,
    run_steps 2 7 3 two_probes = Returns (st1, Bs1) /\
    run_steps 2 7 4 st1 = Returns (st2, Bs2) /\
    run_steps 2 7 (3 + 4) two_probes = Returns (st3, Bs3) /\
    tick st2 = tick st3 /\
    Forall2 (@same_log nat) (rows st2) (rows st3).
Proof.
  apply (@run_steps_compose nat 2 7 3 4 two_probes).
  - lia.
  - cbn. lia.
  - exact two_probes_drained.
  - lia.
Defined.

Lemma groups_zero M : groups 0%nat M = [].
Proof.
  unfold groups. rewrite Nat.Div0.div_0_l, Nat.Div0.mod_0_l. reflexivity.
Qed.

Lemma groups_last N M : (1 <= N)%nat -> (N < M)%nat -> groups N M = [N].
Proof.
  intros H1 HM. unfold groups. rewrite Nat.div_small, Nat.mod_small by lia.
  destruct (Nat.eqb_spec N 0%nat); [lia|reflexivity].
Qed.

Lemma groups_full N M :
  (1 <= M)%nat -> (M <= N)%nat -> groups N M = M :: groups (N - M) M.
Proof.
  intros H1 HM.
  assert (Hq : (N / M = S ((N - M) / M))%nat).
  { replace N with (N - M + 1 * M)%nat at 1 by lia.
    rewrite Nat.div_add by lia. lia. }
  assert (Hr : (N mod M = (N - M) mod M)%nat).
  { replace N with (N - M + 1 * M)%nat at 1 by lia.
    apply Nat.Div0.mod_add. }
  unfold groups. rewrite Hq, Hr. reflexivity.
Qed.

Lemma groups_batch N M :
  (1 <= N)%nat -> (1 <= M)%nat ->
  groups N M = Nat.min N M :: groups (N - Nat.min N M) M.
Proof.
  intros HN HM. destruct (Nat.lt_ge_cases N M) as [Hlt|Hge].
  - rewrite Nat.min_l by lia. rewrite Nat.sub_diag, groups_zero.
    apply groups_last; assumption.
  - rewrite Nat.min_r by lia. apply groups_full; assumption.
Qed.

Lemma max_steps_positive (sample : Type) (n_prealloc : nat) (st : sim sample) :
  (1 <= n_prealloc)%nat ->
  Forall (drained n_prealloc) (rows st) ->
  has_probes st = true ->
  1 <= max_steps_between_probes n_prealloc st.
Proof.
  intros Hn Hd Hp. unfold max_steps_between_probes.
  assert (Hmin : 1 <= min_period (rows st)).
  { apply (min_period_ge n_prealloc).
    - unfold has_probes in Hp. destruct (rows st); congruence.
    - eapply Forall_impl; [|exact Hd]. intros r ((H & _) & _). exact H. }
  nia.
Qed.

Lemma run_loop_groups (sample : Type) (n_prealloc : nat) :
  Z.of_nat n_prealloc < 2 ^ 31 ->
  (1 <= n_prealloc)%nat ->
  forall fuel N (st : sim sample),
    (N <= fuel)%nat ->
    Forall (drained n_prealloc) (rows st) ->
    has_probes st = true ->
    exists st',
      run_loop n_prealloc fuel N st
      = Returns (st', groups N (Z.to_nat (max_steps_between_probes
                                            n_prealloc st))).
Proof.
  intros Hint Hn. induction fuel as [|fuel IH]; intros N st HN Hd Hp.
  - assert (N = 0)%nat by lia. subst N.
    exists st. rewrite run_loop_zero, groups_zero. reflexivity.
  - destruct N as [|N'].
    { exists st. rewrite run_loop_zero, groups_zero. reflexivity. }
    pose proof (@max_steps_positive sample n_prealloc st Hn Hd Hp) as HM.
    set (N := S N') in *. destruct st as [t rs]. cbn [tick rows] in *.
    change (run_loop n_prealloc (S fuel) N (Sim t rs))
      with (let B := batch n_prealloc N (Sim t rs) in
            match call_n_times B (Sim t rs) with
            | None => Overflows
            | Some st1 =>
                let st2 := if has_probes (Sim t rs)
                           then drain_probe_buffers st1 else st1 in
                match run_loop n_prealloc fuel (N - B) st2 with
                | Returns (st3, Bs) => Returns (st3, B :: Bs)
                | other => other
                end
            end).
    cbv zeta. rewrite Hp.
    pose proof (@batch_room sample n_prealloc N (Sim t rs) Hp Hd) as Hroom.
    cbn [rows] in Hroom.
    assert (HB : batch n_prealloc N (Sim t rs)
                 = Nat.min N (Z.to_nat (max_steps_between_probes
                                          n_prealloc (Sim t rs)))).
    { unfold batch. rewrite Hp. lia. }
    set (M := Z.to_nat (max_steps_between_probes n_prealloc (Sim t rs))) in *.
    set (B := batch n_prealloc N (Sim t rs)) in *.
    destruct (@group_then_drain sample n_prealloc Hint B t rs Hroom)
      as (rs1 & Hc & _ & Ha).
    rewrite Hc. unfold drain_probe_buffers. cbn [tick rows].
    assert (Hd1 : Forall (drained n_prealloc)
                         (rows (Sim (t + B) (map (@drain_row sample) rs1))))
      by (cbn [rows]; eapply advanced_drained; exact Ha).
    assert (Hp1 : has_probes (Sim (t + B) (map (@drain_row sample) rs1)) = true).
    { rewrite <- Hp. apply has_probes_same. cbn [rows].
      symmetry. eapply Forall2_length; exact Ha. }
    assert (HM1 : max_steps_between_probes n_prealloc
                    (Sim (t + B) (map (@drain_row sample) rs1))
                  = max_steps_between_probes n_prealloc (Sim t rs)).
    { unfold max_steps_between_probes. cbn [rows]. f_equal.
      apply min_period_same. eapply advanced_periods; exact Ha. }
    destruct (IH (N - B)%nat (Sim (t + B) (map (@drain_row sample) rs1)))
      as (st3 & Hrun); [lia|exact Hd1|exact Hp1|].
    rewrite Hrun, HM1. fold M. exists st3.
    rewrite (@groups_batch N M) by (subst N M; lia).
    rewrite <- HB. reflexivity.
Qed.

(** X14.  With probes [run_steps(N)] cuts the [N] steps into full groups
    of [M = n_prealloc * min(periods)] steps, the most a ring has room
    for, and one last group of what is left when [N] is no multiple of
    [M]: it runs [ceil(N / M)] groups. *)
Theorem run_steps_in_full_groups (sample : Type) (n_prealloc fuel N : nat)
    (st : sim sample) :
  (1 <= n_prealloc)%nat ->
  Z.of_nat n_prealloc < 2 ^ 31 ->
  Forall (drained n_prealloc) (rows st) ->
  has_probes st = true ->
  (N <= fuel)%nat ->
  let M := Z.to_nat (max_steps_between_probes n_prealloc st) in
  (1 <= M)%nat /\
  exists st',
    run_steps n_prealloc fuel N st
    = Returns (st', (repeat M (N / M)%nat
                     ++ if (N mod M =? 0)%nat then []
                        else [(N mod M)%nat])%list).
Proof.
  intros Hn Hint Hd Hp Hfuel M. split.
  - pose proof (@max_steps_positive sample n_prealloc st Hn Hd Hp).
    subst M. lia.
  - unfold run_steps. rewrite (drained_precondition Hd).
    destruct (@run_loop_groups sample n_prealloc Hint Hn fuel N st Hfuel Hd Hp)
      as (st' & Hrun).
    exists st'. exact Hrun.
Qed.

Lemma run_steps_in_full_groups_witness :
  let M := Z.to_nat (max_steps_between_probes 2 two_probes) in
  (1 <= M)%nat /\
  exists st',
    run_steps 2 7 7 two_probes
    = Returns (st', (repeat M (7 / M)%nat
                     ++ if (7 mod M =? 0)%nat then []
                        else [(7 mod M)%nat])%list).
Proof.
  apply (@run_steps_in_full_groups nat 2 7 7 two_probes).
  - lia.
  - cbn. lia.
  - exact two_probes_drained.
  - reflexivity.
  - lia.
Defined.

(** X15.  After [drain_probe_buffers] every position is 0, so the
    precondition of [run_steps] holds whatever the state was before, and a
    second drain changes nothing: no sample is logged twice. *)
Theorem drain_idempotent (sample : Type) (n_prealloc fuel : nat)
    (st : sim sample) :
  drain_probe_buffers (drain_probe_buffers st) = drain_probe_buffers st /\
  Forall (fun r => bufposition r = 0) (rows (drain_probe_buffers st)) /\
  run_steps n_prealloc fuel 0 (drain_probe_buffers st)
  = Returns (drain_probe_buffers st, []).
Proof.
  unfold drain_probe_buffers. cbn [rows tick]. split; [|split].
  - f_equal. rewrite map_map. apply map_ext. intros r. apply drain_row_twice.
  - apply Forall_forall. intros r Hr. apply in_map_iff in Hr.
    destruct Hr as (r0 & <- & _). reflexivity.
  - apply (@run_nothing_after_drain sample n_prealloc fuel st).
Qed.

(** X16.  One pass of the plans outside [run_steps], from drained rows
    one of which is due, stores a sample and moves a position;
    [run_steps] then fails its assertion for every [N], until the buffers
    are drained. *)
Theorem undrained_step_is_refused (sample : Type) (n_prealloc : nat)
    (st : sim sample) :
  (1 <= n_prealloc)%nat ->
  Z.of_nat n_prealloc < 2 ^ 31 ->
  Forall (drained n_prealloc) (rows st) ->
  Exists (fun r => countdown r = 0) (rows st) ->
  exists st',
    step st = Some st' /\
    (forall fuel N, run_steps n_prealloc fuel N st' = AssertionFails) /\
    (forall fuel, run_steps n_prealloc fuel 0 (drain_probe_buffers st')
                  = Returns (drain_probe_buffers st', [])).
Proof.
  intros Hn Hint Hd He.
  assert (Hroom : Forall (room n_prealloc 1) (rows st)).
  { apply Forall_forall. intros r Hr. split.
    - exact (proj1 (Forall_forall _ _) Hd r Hr).
    - destruct (proj1 (Forall_forall _ _) Hd r Hr) as (Hp & _). nia. }
  destruct (@group_then_drain sample n_prealloc Hint 1%nat (tick st) (rows st)
              Hroom) as (rs & Hcall & Hf & _).
  assert (Hst : Sim (tick st) (rows st) = st) by (destruct st; reflexivity).
  rewrite Hst in Hcall. cbn [call_n_times] in Hcall.
  destruct (step st) as [st'|] eqn:Hstep; [|discriminate Hcall].
  injection Hcall as ->. exists (Sim (tick st + 1) rs).
  split; [reflexivity|]. split.
  - intros fuel N. unfold run_steps. cbn [rows].
    rewrite forallb_undrained; [reflexivity|].
    apply (due_row_filled Hf); [|exact He].
    apply Forall_forall. intros r Hr.
    destruct (proj1 (Forall_forall _ _) Hd r Hr) as (Hp & _). lia.
  - intros fuel. apply run_nothing_after_drain.
Qed.

Lemma undrained_step_is_refused_witness :
  exists st',
    step two_probes = Some st' /\
    (forall fuel N, run_steps 2 fuel N st' = AssertionFails) /\
    (forall fuel, run_steps 2 fuel 0 (drain_probe_buffers st')
                  = Returns (drain_probe_buffers st', [])).
Proof.
  apply (@undrained_step_is_refused nat 2 two_probes).
  - lia.
  - cbn. lia.
  - exact two_probes_drained.
  - apply Exists_cons_hd. reflexivity.
Defined.

(** X17.  The kernel writes one slot at most: it never touches a period,
    a signal or a host log, it keeps the length of the ring, a row that is
    not due keeps its ring and its position, and a row that is due gets its
    signal in the slot of its position and keeps every other slot. *)
Theorem probe_row_frame (sample : Type) (t : nat) (r r' : row sample) :
  probe_row t r = Some r' ->
  period r' = period r /\ source r' = source r /\ outputs r' = outputs r /\
  length (ring r') = length (ring r) /\
  (countdown r <> 0 -> ring r' = ring r /\ bufposition r' = bufposition r) /\
  (countdown r = 0 ->
   nth_error (ring r') (Z.to_nat (bufposition r)) = Some (source r t) /\
   forall i, i <> Z.to_nat (bufposition r) ->
             nth_error (ring r') i = nth_error (ring r) i).
Proof.
  unfold probe_row, in_ring, row_next, next_counters.
  destruct (Z.eqb_spec (countdown r) 0) as [Hc|Hc]; cbn [negb orb];
    intros H.
  - destruct ((0 <=? bufposition r)
              && (bufposition r <? Z.of_nat (length (ring r)))) eqn:Hin;
      [|discriminate H].
    injection H as <-. cbn [period source outputs ring bufposition].
    apply andb_true_iff in Hin. destruct Hin as [H0 H1].
    apply Z.leb_le in H0. apply Z.ltb_lt in H1.
    repeat split; try reflexivity; try contradiction.
    + apply length_set_nth.
    + apply nth_error_set_nth_same. lia.
    + intros i Hi. apply nth_error_set_nth_other. exact Hi.
  - injection H as <-. cbn [period source outputs ring bufposition].
    repeat split; try reflexivity; contradiction.
Qed.

Lemma probe_row_frame_witness :
  let r := due_row in
  let r' := row_next 1 due_row in
  period r' = period r /\ source r' = source r /\ outputs r' = outputs r /\
  length (ring r') = length (ring r) /\
  (countdown r <> 0 -> ring r' = ring r /\ bufposition r' = bufposition r) /\
  (countdown r = 0 ->
   nth_error (ring r') (Z.to_nat (bufposition r)) = Some (source r 1%nat) /\
   forall i, i <> Z.to_nat (bufposition r) ->
             nth_error (ring r') i = nth_error (ring r) i).
Proof.
  apply (@probe_row_frame nat 1 due_row (row_next 1 due_row)). reflexivity.
Defined.

(** X30.  Before the first step [probe_data] has nothing to stack and
    raises; after a first run of [N >= 1] steps from counters at zero it
    returns, for every probe, a log of [ceil(N / period)] samples, one at
    least. *)
Theorem probe_data_after_first_run (sample : Type) (n_prealloc fuel N : nat)
    (st : sim sample) :
  (1 <= n_prealloc)%nat ->
  Z.of_nat n_prealloc < 2 ^ 31 ->
  Forall (drained n_prealloc) (rows st) ->
  Forall (fun r => countdown r = 0 /\ outputs r = []) (rows st) ->
  (1 <= N <= fuel)%nat ->
  Forall (fun r => probe_data r = None) (rows st) /\
  exists st' Bs,
    run_steps n_prealloc fuel N st = Returns (st', Bs) /\
    Forall2 (fun r0 r =>
               exists l,
                 probe_data r = Some l /\
                 length l = ((N + Z.to_nat (period r0) - 1)
                             / Z.to_nat (period r0))%nat /\
                 (1 <= length l)%nat)
            (rows st) (rows st').
Proof.
  intros Hn Hint Hd Hfresh [HN Hfuel]. split.
  - eapply Forall_impl; [|exact Hfresh]. intros r [_ Ho].
    unfold probe_data. rewrite Ho. reflexivity.
  - destruct (@run_steps_spec sample n_prealloc Hint fuel N st Hfuel Hn Hd)
      as (st' & Bs & Hrun & _ & Hadv & _).
    exists st', Bs. split; [exact Hrun|].
    clear Hrun. revert Hd Hfresh.
    induction Hadv as [|r0 r rs0 rs Ha _ IH]; intros Hd Hfresh.
    + constructor.
    + inversion Hd as [|? ? Hd0 Hds]; subst.
      inversion Hfresh as [|? ? [Hc0 Ho0] Hfs]; subst.
      constructor; [|apply IH; assumption].
      destruct Ha as (_ & _ & _ & Ho & _).
      destruct Hd0 as (Hp & Hc & _).
      rewrite Ho0, (@samples_schedule sample (source r0) N (tick st)
                      (period r0) (countdown r0) Hp Hc), Hc0 in Ho.
      cbn [app] in Ho. change (Z.to_nat 0) with 0%nat in Ho.
      assert (Hlen : length (outputs r)
                     = ((N + Z.to_nat (period r0) - 1)
                        / Z.to_nat (period r0))%nat).
      { rewrite Ho, length_map. unfold schedule. rewrite length_map, length_seq.
        unfold due. f_equal. lia. }
      assert (Hpos : (1 <= (N + Z.to_nat (period r0) - 1)
                           / Z.to_nat (period r0))%nat).
      { apply Nat.div_le_lower_bound; lia. }
      exists (outputs r). split; [|split; [exact Hlen|lia]].
      unfold probe_data. destruct (outputs r) as [|x l]; [|reflexivity].
      cbn [length] in Hlen. lia.
Qed.

Lemma probe_data_after_first_run_witness :
  Forall (fun r => probe_data r = None) (rows two_probes) /\
  exists st' Bs,
    run_steps 2 7 7 two_probes = Returns (st', Bs) /\
    Forall2 (fun r0 r =>
               exists l,
                 probe_data r = Some l /\
                 length l = ((7 + Z.to_nat (period r0) - 1)
                             / Z.to_nat (period r0))%nat /\
                 (1 <= length l)%nat)
            (rows two_probes) (rows st').
Proof.
  apply (@probe_data_after_first_run nat 2 7 7 two_probes).
  - lia.
  - cbn. lia.
  - exact two_probes_drained.
  - repeat constructor.
  - lia.
Defined.

End ProbesMore.

(** * The copy of a sample by the work-items of the probe kernel *)

Module ProbeCopy.

Import Probes.

Local Open Scope Z_scope.

Section Copy.

(** The scalars of [Xdata] and [Ydata]. *)
Variable V : Type.

(** A device buffer, by element. *)
Definition buffer : Type := Z -> V.

(** [y[ii] = x[ii]] as a store to [Ydata]: the element and the value. *)
Definition poke (Y : buffer) (a : Z) (x : V) : buffer :=
  fun a' => if a' =? a then x else Y a'.

(** The stores of a launch applied in a given order. *)
Fixpoint run_stores (l : list (Z * V)) (Y : buffer) : buffer :=
  match l with
  | [] => Y
  | (a, x) :: l' => run_stores l' (poke Y a x)
  end.

(** [for (int ii = get_global_id(0); ii < n_dims; ii += get_global_size(0))
        y[ii] = x[ii];]
    with [x = Xdata + xs] and [y = Ydata + ys]: the stores of one
    work-item; [ii] is an [int]. *)
Fixpoint copy_loop (fuel : nat) (ii gsize0 n_dims xs ys : Z) (Xdata : buffer)
  : option (list (Z * V)) :=
  match fuel with
  | O => None
  | S fuel' =>
      if ii <? n_dims then
        match copy_loop fuel' (wrap32 (ii + gsize0)) gsize0 n_dims xs ys Xdata
        with
        | Some l => Some ((ys + ii, Xdata (xs + ii)) :: l)
        | None => None
        end
      else Some []
  end.

(** The work-item [get_global_id(0) = g0] of row [n] up to its barrier,
    with [countdown = countdowns[n]], [n_dims = Xshape0s[n]],
    [xstart = Xstarts[n]], [ystart = Ystarts[n]] and
    [bufpos = bufpositions[n]]:
    [y = Ydata + Ystarts[n] + bufpos * n_dims]. *)
Definition item_stores (fuel : nat) (g0 gsize0 : Z)
    (countdown n_dims xstart ystart bufpos : Z) (Xdata : buffer)
  : option (list (Z * V)) :=
  if countdown =? 0
  then copy_loop fuel g0 gsize0 n_dims xstart
                 (ystart + wrap32 (bufpos * n_dims)) Xdata
  else Some [].

(** The stores of the lists that all ran to their end. *)
Fixpoint gather (ls : list (option (list (Z * V)))) : option (list (Z * V)) :=
  match ls with
  | [] => Some []
  | Some l :: rest =>
      match gather rest with
      | Some l' => Some (l ++ l')
      | None => None
      end
  | None :: _ => None
  end.

(** The work-group of row [n]: its [gsize0] work-items, by id. *)
Definition group_stores (fuel : nat) (gsize0 : Z)
    (countdown n_dims xstart ystart bufpos : Z) (Xdata : buffer)
  : option (list (Z * V)) :=
  gather (map (fun g0 => item_stores fuel (Z.of_nat g0) gsize0 countdown n_dims
                                     xstart ystart bufpos Xdata)
              (seq 0 (Z.to_nat gsize0))).

(** Slot [b] of the ring that starts at [ystart], the ring as the list of
    its slots, and the probed signal. *)
Definition slot (Y : buffer) (ystart n_dims : Z) (b : nat) : list V :=
  map (fun i => Y (ystart + Z.of_nat b * n_dims + Z.of_nat i))
      (seq 0 (Z.to_nat n_dims)).

Definition ring_view (Y : buffer) (ystart n_dims : Z) (n_prealloc : nat)
  : list (list V) :=
  map (slot Y ystart n_dims) (seq 0 n_prealloc).

Definition sample_view (X : buffer) (xstart n_dims : Z) : list V :=
  map (fun i => X (xstart + Z.of_nat i)) (seq 0 (Z.to_nat n_dims)).

(** The passes of the loop of the work-item that starts at [ii]. *)
Definition passes (ii gsize0 n_dims : Z) : nat :=
  Z.to_nat ((n_dims - ii + gsize0 - 1) / gsize0).

(** The stores of these passes. *)
Definition strided (ii gsize0 xs ys : Z) (Xdata : buffer) (k : nat)
  : list (Z * V) :=
  map (fun i => (ys + (ii + Z.of_nat i * gsize0),
                 Xdata (xs + (ii + Z.of_nat i * gsize0))))
      (seq 0 k).

(** *** One work-item *)

Lemma passes_stop ii gsize0 n_dims :
  1 <= gsize0 -> n_dims <= ii -> passes ii gsize0 n_dims = 0%nat.
Proof.
  intros HG Hii. unfold passes.
  assert (H : (n_dims - ii + gsize0 - 1) / gsize0 <= 0).
  { apply Z.lt_succ_r. apply Z.div_lt_upper_bound; lia. }
  lia.
Qed.

Lemma passes_go ii gsize0 n_dims :
  1 <= gsize0 -> ii < n_dims ->
  passes ii gsize0 n_dims = S (passes (ii + gsize0) gsize0 n_dims).
Proof.
  intros HG Hii. unfold passes.
  replace (n_dims - ii + gsize0 - 1)
    with (n_dims - (ii + gsize0) + gsize0 - 1 + 1 * gsize0) by lia.
  rewrite Z.div_add by lia.
  assert (H : 0 <= (n_dims - (ii + gsize0) + gsize0 - 1) / gsize0).
  { apply Z.div_pos; lia. }
  lia.
Qed.

Lemma passes_le ii gsize0 n_dims :
  1 <= gsize0 -> 0 <= ii -> 0 <= n_dims ->
  (passes ii gsize0 n_dims <= Z.to_nat n_dims)%nat.
Proof.
  intros HG Hii Hn. unfold passes.
  assert (H : (n_dims - ii + gsize0 - 1) / gsize0 < n_dims + 1).
  { apply Z.div_lt_upper_bound; nia. }
  lia.
Qed.

Lemma strided_S ii gsize0 xs ys Xdata k :
  strided ii gsize0 xs ys Xdata (S k)
  = (ys + ii, Xdata (xs + ii)) :: strided (ii + gsize0) gsize0 xs ys Xdata k.
Proof.
  unfold strided. cbn [seq map]. f_equal.
  - f_equal; [|f_equal]; lia.
  - rewrite <- seq_shift, map_map. apply map_ext. intros i.
    f_equal; [|f_equal]; lia.
Qed.

Lemma copy_loop_spec gsize0 n_dims xs ys Xdata :
  1 <= gsize0 -> n_dims + gsize0 <= 2 ^ 31 ->
  forall fuel ii,
    0 <= ii ->
    (passes ii gsize0 n_dims < fuel)%nat ->
    copy_loop fuel ii gsize0 n_dims xs ys Xdata
    = Some (strided ii gsize0 xs ys Xdata (passes ii gsize0 n_dims)).
Proof.
  intros HG Hint. induction fuel as [|fuel IH]; intros ii Hii Hfuel; [lia|].
  cbn [copy_loop]. destruct (Z.ltb_spec ii n_dims) as [Hlt|Hge].
  - rewrite wrap32_small by lia.
    rewrite (passes_go HG Hlt) in Hfuel |- *.
    rewrite IH by lia. rewrite strided_S. reflexivity.
  - rewrite (passes_stop HG Hge). reflexivity.
Qed.

Lemma in_strided ii gsize0 xs ys Xdata k a x :
  In (a, x) (strided ii gsize0 xs ys Xdata k) <->
  exists i, (i < k)%nat /\ a = ys + (ii + Z.of_nat i * gsize0) /\
            x = Xdata (xs + (ii + Z.of_nat i * gsize0)).
Proof.
  unfold strided. rewrite in_map_iff. split.
  - intros (i & Heq & Hi). apply in_seq in Hi. injection Heq as <- <-.
    exists i. split; [lia|]. split; reflexivity.
  - intros (i & Hi & -> & ->). exists i. split; [reflexivity|].
    apply in_seq. lia.
Qed.

(** The passes of a work-item are those whose element is in the row. *)
Lemma pass_in_row ii gsize0 n_dims i :
  1 <= gsize0 -> 0 <= ii ->
  (i < passes ii gsize0 n_dims)%nat <-> ii + Z.of_nat i * gsize0 < n_dims.
Proof.
  intros HG Hii. unfold passes. split.
  - intros Hi.
    assert (H : Z.of_nat i < (n_dims - ii + gsize0 - 1) / gsize0) by lia.
    assert (H' : Z.of_nat i + 1 <= (n_dims - ii + gsize0 - 1) / gsize0) by lia.
    assert (H2 : gsize0 * (Z.of_nat i + 1) <= n_dims - ii + gsize0 - 1).
    { etransitivity; [apply Z.mul_le_mono_nonneg_l; [lia|exact H']|].
      apply Z.mul_div_le. lia. }
    lia.
  - intros Hi.
    assert (H : Z.of_nat i + 1 <= (n_dims - ii + gsize0 - 1) / gsize0).
    { apply Z.div_le_lower_bound; lia. }
    lia.
Qed.

(** *** The work-group *)

Lemma gather_some (A : Type) (f : A -> option (list (Z * V)))
    (g : A -> list (Z * V)) : forall l,
  (forall a, In a l -> f a = Some (g a)) ->
  gather (map f l) = Some (flat_map g l).
Proof.
  induction l as [|a l IH]; intros H; [reflexivity|].
  cbn [map gather flat_map]. rewrite (H a (or_introl eq_refl)).
  rewrite IH by (intros a' Ha'; apply H; right; exact Ha'). reflexivity.
Qed.

Lemma group_stores_spec fuel gsize0 n_dims xstart ystart bufpos Xdata :
  1 <= gsize0 -> 0 <= n_dims -> n_dims + gsize0 <= 2 ^ 31 ->
  (Z.to_nat n_dims < fuel)%nat ->
  group_stores fuel gsize0 0 n_dims xstart ystart bufpos Xdata
  = Some (flat_map
            (fun g0 => strided (Z.of_nat g0) gsize0 xstart
                               (ystart + wrap32 (bufpos * n_dims)) Xdata
                               (passes (Z.of_nat g0) gsize0 n_dims))
            (seq 0 (Z.to_nat gsize0))).
Proof.
  intros HG Hn Hint Hfuel. unfold group_stores. apply gather_some.
  intros g0 _. unfold item_stores. cbn [Z.eqb].
  apply copy_loop_spec; try lia.
  pose proof (@passes_le (Z.of_nat g0) gsize0 n_dims HG (Nat2Z.is_nonneg g0) Hn).
  lia.
Qed.

Lemma in_group gsize0 n_dims xs ys Xdata a x :
  1 <= gsize0 ->
  In (a, x)
     (flat_map (fun g0 => strided (Z.of_nat g0) gsize0 xs ys Xdata
                                  (passes (Z.of_nat g0) gsize0 n_dims))
               (seq 0 (Z.to_nat gsize0))) <->
  exists i, 0 <= i < n_dims /\ a = ys + i /\ x = Xdata (xs + i).
Proof.
  intros HG. rewrite in_flat_map. split.
  - intros (g0 & Hg & Hin). apply in_seq in Hg.
    apply in_strided in Hin. destruct Hin as (i & Hi & -> & ->).
    apply (pass_in_row n_dims i HG (Nat2Z.is_nonneg g0)) in Hi.
    exists (Z.of_nat g0 + Z.of_nat i * gsize0). split; [nia|].
    split; reflexivity.
  - intros (i & Hi & -> & ->).
    exists (Z.to_nat (i mod gsize0)).
    pose proof (Z.mod_pos_bound i gsize0 ltac:(lia)) as Hm.
    pose proof (Z.div_mod i gsize0 ltac:(lia)) as Hdm.
    assert (Hq : 0 <= i / gsize0) by (apply Z.div_pos; lia).
    split; [apply in_seq; lia|].
    apply in_strided. exists (Z.to_nat (i / gsize0)).
    rewrite !Z2Nat.id by lia.
    assert (Heq : i mod gsize0 + i / gsize0 * gsize0 = i) by lia.
    split; [|rewrite Heq; split; reflexivity].
    apply pass_in_row; [exact HG|lia|]. rewrite !Z2Nat.id by lia. lia.
Qed.

Lemma nodup_strided ii gsize0 xs ys Xdata k :
  1 <= gsize0 -> NoDup (map fst (strided ii gsize0 xs ys Xdata k)).
Proof.
  intros HG. unfold strided. rewrite map_map. cbn [fst].
  apply NoDup_map_NoDup_ForallPairs; [|apply seq_NoDup].
  intros i1 i2 _ _ Heq. nia.
Qed.

Lemma nodup_flat_map (A B : Type) (h : A -> list B) : forall l,
  NoDup l ->
  (forall a, In a l -> NoDup (h a)) ->
  (forall a a' b, In a l -> In a' l -> In b (h a) -> In b (h a') -> a = a') ->
  NoDup (flat_map h l).
Proof.
  induction l as [|a l IH]; intros Hl Hh Hdis; [constructor|].
  cbn [flat_map]. inversion Hl as [|? ? Hnotin Hl']; subst.
  apply NoDup_app.
  - apply Hh. left. reflexivity.
  - apply IH; [exact Hl'| |].
    + intros a' Ha'. apply Hh. right. exact Ha'.
    + intros a1 a2 b H1 H2. apply Hdis; right; assumption.
  - intros b Hb Hb'. apply in_flat_map in Hb'. destruct Hb' as (a' & Ha' & Hb').
    assert (a = a') by (apply (Hdis a a' b); [left; reflexivity|right; exact Ha'| |];
                        assumption).
    subst a'. contradiction.
Qed.

Lemma nodup_group gsize0 n_dims xs ys Xdata :
  1 <= gsize0 ->
  NoDup (map fst
           (flat_map (fun g0 => strided (Z.of_nat g0) gsize0 xs ys Xdata
                                        (passes (Z.of_nat g0) gsize0 n_dims))
                     (seq 0 (Z.to_nat gsize0)))).
Proof.
  intros HG. rewrite flat_map_concat_map, concat_map, map_map.
  rewrite <- flat_map_concat_map.
  apply nodup_flat_map.
  - apply seq_NoDup.
  - intros g0 _. apply nodup_strided. exact HG.
  - intros g1 g2 a Hg1 Hg2 H1 H2.
    apply in_seq in Hg1. apply in_seq in Hg2.
    apply in_map_iff in H1. destruct H1 as ([a1 x1] & <- & H1).
    apply in_map_iff in H2. destruct H2 as ([a2 x2] & Heq & H2).
    cbn [fst] in Heq. subst a2.
    apply in_strided in H1. destruct H1 as (i1 & _ & E1 & _).
    apply in_strided in H2. destruct H2 as (i2 & _ & E2 & _).
    assert (Hm : (Z.of_nat g1 + Z.of_nat i1 * gsize0) mod gsize0
                 = (Z.of_nat g2 + Z.of_nat i2 * gsize0) mod gsize0)
      by (f_equal; lia).
    rewrite !Z.mod_add in Hm by lia.
    rewrite !Z.mod_small in Hm by lia. lia.
Qed.

(** *** The buffer after the stores *)

Lemma run_stores_other l : forall Y a,
  ~ In a (map fst l) -> run_stores l Y a = Y a.
Proof.
  induction l as [|[a0 x0] l IH]; intros Y a Hn; [reflexivity|].
  cbn [run_stores]. rewrite IH.
  - unfold poke. destruct (Z.eqb_spec a a0) as [->|_]; [|reflexivity].
    exfalso. apply Hn. left. reflexivity.
  - intros H. apply Hn. right. exact H.
Qed.

Lemma run_stores_value (f : Z -> V) l : forall Y a,
  (forall a' x, In (a', x) l -> x = f a') ->
  In a (map fst l) -> run_stores l Y a = f a.
Proof.
  induction l as [|[a0 x0] l IH]; intros Y a Hf Hin; [contradiction|].
  cbn [run_stores].
  destruct (in_dec Z.eq_dec a (map fst l)) as [Hl|Hl].
  - apply IH; [|exact Hl]. intros a' x H. apply Hf. right. exact H.
  - rewrite run_stores_other by exact Hl.
    destruct Hin as [Heq|Hin]; [|contradiction]. cbn [fst] in Heq. subst a0.
    unfold poke. rewrite Z.eqb_refl. apply Hf. left. reflexivity.
Qed.

Lemma set_nth_map_seq (A : Type) (f : nat -> A) (x : A) : forall n s k,
  set_nth k x (map f (seq s n))
  = map (fun b => if (b =? s + k)%nat then x else f b) (seq s n).
Proof.
  induction n as [|n IH]; intros s k; [destruct k; reflexivity|].
  cbn [seq map]. destruct k as [|k]; cbn [set_nth].
  - rewrite Nat.add_0_r, Nat.eqb_refl. f_equal.
    apply map_ext_in. intros b Hb. apply in_seq in Hb.
    destruct (Nat.eqb_spec b s); [lia|reflexivity].
  - destruct (Nat.eqb_spec s (s + S k)); [lia|]. f_equal.
    rewrite IH. apply map_ext. intros b.
    replace (S s + k)%nat with (s + S k)%nat by lia. reflexivity.
Qed.

(** X18.  The work-items of a row that is due copy every element of the
    signal exactly once, whatever the size of the work-group is: their
    loops end, no two stores go to the same element of [Ydata], and the
    stores are those of the elements [0 .. n_dims-1] of the slot, each with
    the element of [Xdata] at the same offset.  A row that is not due
    stores nothing. *)
Theorem strided_copy_covers_slot (fuel : nat)
    (gsize0 countdown n_dims xstart ystart bufpos : Z) (Xdata : buffer) :
  1 <= gsize0 -> 0 <= n_dims -> n_dims + gsize0 <= 2 ^ 31 ->
  (Z.to_nat n_dims < fuel)%nat ->
  exists stores,
    group_stores fuel gsize0 countdown n_dims xstart ystart bufpos Xdata
    = Some stores /\
    NoDup (map fst stores) /\
    (countdown <> 0 -> stores = []) /\
    (countdown = 0 ->
     forall a x,
       In (a, x) stores <->
       exists i, 0 <= i < n_dims /\
                 a = ystart + wrap32 (bufpos * n_dims) + i /\
                 x = Xdata (xstart + i)).
Proof.
  intros HG Hn Hint Hfuel. destruct (Z.eqb_spec countdown 0) as [->|Hc].
  - eexists. split; [apply group_stores_spec; assumption|].
    split; [apply nodup_group; exact HG|]. split; [contradiction|].
    intros _ a x. apply in_group. exact HG.
  - exists []. split.
    + unfold group_stores.
      rewrite (@gather_some nat _ (fun _ => [])).
      * induction (seq 0 (Z.to_nat gsize0)) as [|g l IH]; [reflexivity|exact IH].
      * intros g0 _. unfold item_stores.
        destruct (Z.eqb_spec countdown 0); [contradiction|reflexivity].
    + split; [constructor|]. split; [reflexivity|contradiction].
Qed.

(** X19.  In whatever order the stores of the work-group of a due row
    reach [Ydata], the buffer ends the same: the slot of the position holds
    the signal, and every other element, in this ring and in every other
    one, is as before. *)
Theorem copy_in_any_order (fuel : nat)
    (gsize0 n_dims xstart ystart bufpos : Z) (Xdata Ydata : buffer) :
  1 <= gsize0 -> 0 <= n_dims -> n_dims + gsize0 <= 2 ^ 31 ->
  (Z.to_nat n_dims < fuel)%nat ->
  exists stores,
    group_stores fuel gsize0 0 n_dims xstart ystart bufpos Xdata
    = Some stores /\
    forall order, Permutation stores order ->
    forall a,
      run_stores order Ydata a
      = if (ystart + wrap32 (bufpos * n_dims) <=? a)
           && (a <? ystart + wrap32 (bufpos * n_dims) + n_dims)
        then Xdata (xstart + (a - (ystart + wrap32 (bufpos * n_dims))))
        else Ydata a.
Proof.
  intros HG Hn Hint Hfuel.
  eexists. split; [apply group_stores_spec; assumption|].
  intros order Hperm a.
  set (ys := ystart + wrap32 (bufpos * n_dims)) in *.
  assert (Hin : forall a' x, In (a', x) order <->
                  exists i, 0 <= i < n_dims /\ a' = ys + i /\
                            x = Xdata (xstart + i)).
  { intros a' x. rewrite <- (in_group n_dims xstart ys Xdata a' x HG).
    split; apply Permutation_in; [symmetry|]; exact Hperm. }
  destruct (Z.leb_spec ys a) as [H1|H1]; cbn [andb].
  - destruct (Z.ltb_spec a (ys + n_dims)) as [H2|H2].
    + apply (@run_stores_value (fun a' => Xdata (xstart + (a' - ys)))).
      * intros a' x H. apply Hin in H. destruct H as (i & _ & -> & ->).
        f_equal. lia.
      * apply in_map_iff. exists (a, Xdata (xstart + (a - ys))).
        split; [reflexivity|]. apply Hin. exists (a - ys).
        split; [lia|]. split; [lia|reflexivity].
    + apply run_stores_other. intros H. apply in_map_iff in H.
      destruct H as ([a' x] & Heq & H). cbn [fst] in Heq. subst a'.
      apply Hin in H. destruct H as (i & Hi & Ha & _). lia.
  - apply run_stores_other. intros H. apply in_map_iff in H.
    destruct H as ([a' x] & Heq & H). cbn [fst] in Heq. subst a'.
    apply Hin in H. destruct H as (i & Hi & Ha & _). lia.
Qed.

(** X20.  Read as a ring of [n_prealloc] slots of [n_dims] elements,
    [Ydata] after the copy of a due row is the ring before with the signal
    in the slot of the position: the work-items together do what the
    row-level kernel does with one assignment. *)
Theorem copy_refines_row_kernel (fuel : nat) (n_prealloc : nat)
    (gsize0 n_dims xstart ystart bufpos : Z) (Xdata Ydata : buffer) :
  1 <= gsize0 -> 0 <= n_dims -> n_dims + gsize0 <= 2 ^ 31 ->
  (Z.to_nat n_dims < fuel)%nat ->
  0 <= bufpos < Z.of_nat n_prealloc ->
  Z.of_nat n_prealloc * n_dims < 2 ^ 31 ->
  exists stores,
    group_stores fuel gsize0 0 n_dims xstart ystart bufpos Xdata
    = Some stores /\
    ring_view (run_stores stores Ydata) ystart n_dims n_prealloc
    = set_nth (Z.to_nat bufpos) (sample_view Xdata xstart n_dims)
              (ring_view Ydata ystart n_dims n_prealloc).
Proof.
  intros HG Hn Hint Hfuel Hb Hring.
  eexists. split; [apply group_stores_spec; assumption|].
  assert (Hw : wrap32 (bufpos * n_dims) = bufpos * n_dims)
    by (apply wrap32_small; nia).
  rewrite Hw.
  set (ys := ystart + bufpos * n_dims).
  set (stores := flat_map _ _).
  assert (Hin : forall a' x, In (a', x) stores <->
                  exists i, 0 <= i < n_dims /\ a' = ys + i /\
                            x = Xdata (xstart + i))
    by (intros a' x; apply in_group; exact HG).
  unfold ring_view. rewrite set_nth_map_seq. apply map_ext_in.
  intros b Hbin. apply in_seq in Hbin. cbn [Nat.add].
  destruct (Nat.eqb_spec b (Z.to_nat bufpos)) as [->|Hne].
  - unfold slot, sample_view. apply map_ext_in. intros i Hi.
    apply in_seq in Hi. rewrite Z2Nat.id by lia. fold ys.
    rewrite (@run_stores_value (fun a' => Xdata (xstart + (a' - ys)))).
    + f_equal. lia.
    + intros a' x H. apply Hin in H. destruct H as (i' & _ & -> & ->).
      f_equal. lia.
    + apply in_map_iff. exists (ys + Z.of_nat i, Xdata (xstart + Z.of_nat i)).
      split; [reflexivity|]. apply Hin. exists (Z.of_nat i).
      split; [lia|]. split; reflexivity.
  - unfold slot. apply map_ext_in. intros i Hi. apply in_seq in Hi.
    apply run_stores_other. intros H. apply in_map_iff in H.
    destruct H as ([a' x] & Heq & H). cbn [fst] in Heq. subst a'.
    apply Hin in H. destruct H as (i' & Hi' & Ha & _). unfold ys in Ha.
    assert (Hbb : Z.of_nat b <> bufpos) by lia. nia.
Qed.

End Copy.

(** A signal of five elements copied by a work-group of two work-items to
    slot 1 of a ring that starts at element 100. *)
Definition X_ex : buffer nat := fun a => Z.to_nat (7 * a).

Definition Y_ex : buffer nat := fun _ => 0%nat.

Lemma strided_copy_covers_slot_witness :
  exists stores,
    group_stores 6 2 0 5 10 100 1 X_ex = Some stores /\
    NoDup (map fst stores) /\
    (0 <> 0 -> stores = []) /\
    (0 = 0 ->
     forall a x,
       In (a, x) stores <->
       exists i, 0 <= i < 5 /\ a = 100 + wrap32 (1 * 5) + i /\
                 x = X_ex (10 + i)).
Proof.
  apply (@strided_copy_covers_slot nat 6 2 0 5 10 100 1 X_ex); cbn; lia.
Defined.

Lemma copy_in_any_order_witness :
  exists stores,
    group_stores 6 2 0 5 10 100 1 X_ex = Some stores /\
    forall order, Permutation stores order ->
    forall a,
      run_stores order Y_ex a
      = if (100 + wrap32 (1 * 5) <=? a) && (a <? 100 + wrap32 (1 * 5) + 5)
        then X_ex (10 + (a - (100 + wrap32 (1 * 5))))
        else Y_ex a.
Proof.
  apply (@copy_in_any_order nat 6 2 5 10 100 1 X_ex Y_ex); cbn; lia.
Defined.

Lemma copy_refines_row_kernel_witness :
  exists stores,
    group_stores 6 2 0 5 10 100 1 X_ex = Some stores /\
    ring_view (run_stores stores Y_ex) 100 5 3
    = set_nth (Z.to_nat 1) (sample_view X_ex 10 5) (ring_view Y_ex 100 5 3).
Proof.
  apply (@copy_refines_row_kernel nat 6 3 2 5 10 100 1 X_ex Y_ex); cbn; lia.
Defined.

(** The five stores of the example, by work-item. *)
Example group_stores_example :
  group_stores 6 2 0 5 10 100 1 X_ex
  = Some [(105, 70%nat); (107, 84%nat); (109, 98%nat);
          (106, 77%nat); (108, 91%nat)].
Proof. reflexivity. Qed.

End ProbeCopy.

(** * The indentation of user code ([_indent]) *)

Module Indent.

Import Ascii String.

Local Open Scope string_scope.

(** ['\n'] *)
Definition newline : ascii := "010"%char.

Definition is_newline (c : ascii) : bool := Ascii.eqb c newline.

(** [s.split('\n')]: the pieces between the newlines, one more than there
    are newlines. *)
Fixpoint split_lines (s : string) : list string :=
  match s with
  | EmptyString => [EmptyString]
  | String c s' =>
      if is_newline c then EmptyString :: split_lines s'
      else match split_lines s' with
           | [] => [String c EmptyString]
           | l :: ls => String c l :: ls
           end
  end.

(** ['\n'.join(ls)] *)
Fixpoint join_lines (ls : list string) : string :=
  match ls with
  | [] => EmptyString
  | l :: ls' =>
      match ls' with
      | [] => l
      | _ :: _ => l ++ String newline (join_lines ls')
      end
  end.

(** [' ' * i]: empty for [i <= 0]. *)
Fixpoint spaces (n : nat) : string :=
  match n with
  | O => EmptyString
  | S n' => String " "%char (spaces n')
  end.

(** [_indent(s, i)]:
    ['\n'.join([(' ' * i) + line for line in s.split('\n')])] *)
Definition indent (s : string) (i : Z) : string :=
  join_lines (map (fun line => spaces (Z.to_nat i) ++ line) (split_lines s)).

Fixpoint has_newline (s : string) : bool :=
  match s with
  | EmptyString => false
  | String c s' => is_newline c || has_newline s'
  end.

(** *** Splitting and joining *)

Lemma split_lines_nonempty s : split_lines s <> [].
Proof.
  destruct s as [|c s]; cbn [split_lines]; [discriminate|].
  destruct (is_newline c); [discriminate|].
  destruct (split_lines s); discriminate.
Qed.

Lemma join_cons l ls :
  ls <> [] -> join_lines (l :: ls) = l ++ String newline (join_lines ls).
Proof. destruct ls; [contradiction|reflexivity]. Qed.

Lemma join_split s : join_lines (split_lines s) = s.
Proof.
  induction s as [|c s IH]; [reflexivity|].
  cbn [split_lines]. destruct (is_newline c) eqn:Hc.
  - rewrite join_cons by apply split_lines_nonempty. rewrite IH.
    apply Ascii.eqb_eq in Hc. subst c. reflexivity.
  - pose proof (split_lines_nonempty s) as Hne.
    destruct (split_lines s) as [|l ls]; [contradiction|].
    destruct ls as [|l' ls].
    + cbn [join_lines] in *. rewrite IH. reflexivity.
    + rewrite join_cons in IH |- * by discriminate.
      cbn [append]. rewrite IH. reflexivity.
Qed.

Lemma split_no_newline l : has_newline l = false -> split_lines l = [l].
Proof.
  induction l as [|c l IH]; [reflexivity|].
  cbn [has_newline split_lines]. intros H. apply orb_false_iff in H.
  destruct H as [Hc Hl]. rewrite Hc, (IH Hl). reflexivity.
Qed.

Lemma split_app_newline l r :
  has_newline l = false ->
  split_lines (l ++ String newline r) = l :: split_lines r.
Proof.
  induction l as [|c l IH]; intros H.
  - cbn [append split_lines]. unfold is_newline. rewrite Ascii.eqb_refl.
    reflexivity.
  - cbn [has_newline] in H. apply orb_false_iff in H. destruct H as [Hc Hl].
    cbn [append split_lines]. rewrite Hc, (IH Hl). reflexivity.
Qed.

Lemma split_join ls :
  ls <> [] -> Forall (fun l => has_newline l = false) ls ->
  split_lines (join_lines ls) = ls.
Proof.
  induction ls as [|l ls IH]; intros Hne Hall; [contradiction|].
  inversion Hall as [|? ? Hl Hls]; subst.
  destruct ls as [|l' ls].
  - cbn [join_lines]. apply split_no_newline. exact Hl.
  - rewrite join_cons by discriminate.
    rewrite (@split_app_newline l _ Hl), IH;
      [reflexivity|discriminate|exact Hls].
Qed.

Lemma split_lines_clean s :
  Forall (fun l => has_newline l = false) (split_lines s).
Proof.
  induction s as [|c s IH]; cbn [split_lines].
  - constructor; [reflexivity|constructor].
  - destruct (is_newline c) eqn:Hc.
    + constructor; [reflexivity|exact IH].
    + pose proof (split_lines_nonempty s) as Hne.
      destruct (split_lines s) as [|l ls]; [contradiction|].
      inversion IH as [|? ? Hl Hls]; subst.
      constructor; [|exact Hls]. cbn [has_newline]. rewrite Hc, Hl.
      reflexivity.
Qed.

Lemma has_newline_app a b :
  has_newline (a ++ b) = has_newline a || has_newline b.
Proof.
  induction a as [|c a IH]; [reflexivity|].
  cbn [append has_newline]. rewrite IH, orb_assoc. reflexivity.
Qed.

Lemma spaces_clean n : has_newline (spaces n) = false.
Proof. induction n as [|n IH]; [reflexivity|exact IH]. Qed.

Lemma spaces_add a b : spaces (a + b) = spaces a ++ spaces b.
Proof.
  induction a as [|a IH]; [reflexivity|].
  cbn [Nat.add spaces append]. rewrite IH. reflexivity.
Qed.

Lemma app_assoc_string (a b c : string) : (a ++ b) ++ c = a ++ (b ++ c).
Proof.
  induction a as [|x a IH]; [reflexivity|].
  cbn [append]. rewrite IH. reflexivity.
Qed.

Lemma indented_lines s n :
  split_lines (join_lines (map (fun line => spaces n ++ line) (split_lines s)))
  = map (fun line => spaces n ++ line) (split_lines s).
Proof.
  apply split_join.
  - pose proof (split_lines_nonempty s) as Hne.
    destruct (split_lines s); [contradiction|discriminate].
  - apply Forall_map. eapply Forall_impl; [|apply split_lines_clean].
    intros l Hl. cbn beta. rewrite has_newline_app, spaces_clean, Hl.
    reflexivity.
Qed.

(** X21.  [_indent] neither joins nor splits lines: the lines of its
    result are the lines of the text, each after [i] spaces, empty lines
    included, and as many as before. *)
Theorem indent_keeps_lines (s : string) (i : Z) :
  split_lines (indent s i)
  = map (fun line => spaces (Z.to_nat i) ++ line) (split_lines s) /\
  List.length (split_lines (indent s i)) = List.length (split_lines s).
Proof.
  unfold indent. rewrite indented_lines. split; [reflexivity|].
  apply length_map.
Qed.

(** X22.  Indenting by [i] and then by [j] columns is indenting by
    [i + j], for [i] and [j] that are not negative; and indenting by no
    column, or by a negative number of columns, gives the text back. *)
Theorem indent_composes (s : string) (i j : Z) :
  (0 <= i)%Z -> (0 <= j)%Z ->
  indent (indent s i) j = indent s (i + j) /\
  (forall k, (k <= 0)%Z -> indent s k = s).
Proof.
  intros Hi Hj. split.
  - unfold indent. rewrite indented_lines, map_map. f_equal.
    apply map_ext. intros l.
    rewrite <- app_assoc_string, <- spaces_add. do 2 f_equal. lia.
  - intros k Hk. unfold indent.
    replace (Z.to_nat k) with 0%nat by lia. cbn [spaces append].
    rewrite map_id. apply join_split.
Qed.

Lemma indent_composes_witness :
  indent (indent ("a" ++ String newline "b") 2) 3
  = indent ("a" ++ String newline "b") (2 + 3) /\
  (forall k, (k <= 0)%Z -> indent ("a" ++ String newline "b") k
                           = "a" ++ String newline "b").
Proof.
  apply (@indent_composes ("a" ++ String newline "b") 2 3); lia.
Defined.

(** Two lines indented by two columns. *)
Example indent_two_lines :
  indent ("x = 1;" ++ String newline "y = 2;") 2
  = "  x = 1;" ++ String newline "  y = 2;".
Proof. reflexivity. Qed.

End Indent.

(** * The plans of the direct-mode operators ([plan_SimDirect]) *)

Module SimDirect.

Import String.

(** What [plan_SimDirect] reads of a signal. *)
Record signal : Type := Signal {
  size : nat;
  shape : list nat;
  elemstrides : list nat
}.

(** A [SimDirect] operator: its function, its input and its output. *)
Record op (F : Type) : Type := Op {
  fn : F;
  J : signal;
  output : signal
}.

Inductive error : Type :=
| AssertionError
| NotImplementedError
| IndexError.

Definition result (A : Type) : Type := (error + A)%type.

(** The body of the [try]: [OCL_Function] and [plan_direct] give the code
    of a kernel or raise one of the two exceptions that are caught. *)
Inductive attempt (C : Type) : Type :=
| Converted (code : C)
| NotImplemented
| AssertionFailed.

Arguments NotImplemented {C}.
Arguments AssertionFailed {C}.

(** A plan on the device, or the wrapper [temp_fn] around the Python
    function. *)
Inductive plan (F C : Type) : Type :=
| OclPlan (tag : String.string) (code : C) (X Y : list signal)
| PythonPlan (tag : String.string) (f : F) (signals_in signals_out : list signal).

Arguments OclPlan {F C}.
Arguments PythonPlan {F C}.

Definition plan_tag (F C : Type) (p : plan F C) : String.string :=
  match p with
  | OclPlan tag _ _ _ => tag
  | PythonPlan tag _ _ _ => tag
  end.

Definition plan_signals (F C : Type) (p : plan F C)
  : list signal * list signal :=
  match p with
  | OclPlan _ _ X Y => (X, Y)
  | PythonPlan _ _ signals_in signals_out => (signals_in, signals_out)
  end.

Definition on_device (F C : Type) (p : plan F C) : bool :=
  match p with
  | OclPlan _ _ _ _ => true
  | PythonPlan _ _ _ _ => false
  end.

(** [lambda shape, dim: len(shape) == 1 and shape[0] == dim] *)
Definition vector_dims (sh : list nat) (dim : nat) : bool :=
  match sh with
  | [d] => d =? dim
  | _ => false
  end.

(** [lambda es: len(es) == 1 and es[0] == 1] *)
Definition unit_stride (es : list nat) : bool :=
  match es with
  | [e] => e =? 1
  | _ => false
  end.

(** The five assertions on the pairs of [zip(signals['in'],
    signals['out'])]; none has a message. *)
Fixpoint check_signals (in_dim out_dim : nat) (zs : list (signal * signal))
  : bool :=
  match zs with
  | [] => true
  | (sig_in, sig_out) :: rest =>
      (size sig_in =? in_dim) && (size sig_out =? out_dim)
      && vector_dims (shape sig_in) in_dim
      && vector_dims (shape sig_out) out_dim
      && unit_stride (elemstrides sig_in)
      && unit_stride (elemstrides sig_out)
      && check_signals in_dim out_dim rest
  end.

Definition lambda : String.string := "<lambda>"%string.

Section Plans.

(** Python functions, compared as dictionary keys are. *)
Variable F : Type.

Variable F_eq_dec : forall a b : F, {a = b} + {a <> b}.

(** [fn.__name__] *)
Variable fn_name : F -> String.string.

(** Kernel code, and the conversion of a function for given dimensions. *)
Variable C : Type.

Variable ocl_function : F -> nat -> nat -> attempt C.

(** An item of [unique_ops]: the function and [{'in': ..., 'out': ...}]. *)
Definition group : Type := (F * (list signal * list signal))%type.

(** [if op.fn not in unique_ops: unique_ops[op.fn] = {'in': [], 'out': []}]
    and the two [append]s: the ordered dictionary keeps the place of a key
    it has. *)
Fixpoint add_op (d : list group) (f : F) (j o : signal) : list group :=
  match d with
  | [] => [(f, ([j], [o]))]
  | (g, (ins, outs)) :: d' =>
      if F_eq_dec g f then (g, ((ins ++ [j])%list, (outs ++ [o])%list)) :: d'
      else (g, (ins, outs)) :: add_op d' f j o
  end.

Definition unique_ops (ops : list (op F)) : list group :=
  fold_left (fun d o => add_op d (fn o) (J o) (output o)) ops [].

(** [fn_name = fn.__name__; if fn_name == "<lambda>":
     fn_name += "%d" % len(plans)] *)
Definition tag_of (f : F) (n_plans : nat) : String.string :=
  if String.eqb (fn_name f) lambda
  then String.append (fn_name f) (PlanBuild.dec n_plans)
  else fn_name f.

(** The loop [for fn, signals in unique_ops.items()]. *)
Fixpoint make_plans (ocl_only : bool) (d : list group)
    (plans : list (plan F C)) : result (list (plan F C)) :=
  match d with
  | [] => inr plans
  | (f, (ins, outs)) :: d' =>
      let name := tag_of f (List.length plans) in
      match ins, outs with
      | i0 :: _, o0 :: _ =>
          if check_signals (size i0) (size o0) (combine ins outs) then
            match ocl_function f (size i0) (size o0) with
            | Converted code =>
                make_plans ocl_only d' (plans ++ [OclPlan name code ins outs])
            | NotImplemented =>
                if ocl_only then inl NotImplementedError
                else make_plans ocl_only d'
                                (plans ++ [PythonPlan name f ins outs])
            | AssertionFailed =>
                if ocl_only then inl AssertionError
                else make_plans ocl_only d'
                                (plans ++ [PythonPlan name f ins outs])
            end
          else inl AssertionError
      | _, _ => inl IndexError
      end
  end.

Definition plan_SimDirect (ocl_only : bool) (ops : list (op F))
  : result (list (plan F C)) :=
  make_plans ocl_only (unique_ops ops) [].

(** The operators of a function, the functions in the order of their
    first operator, and the group of a function. *)
Definition same_fn (f : F) (o : op F) : bool :=
  if F_eq_dec (fn o) f then true else false.

Definition other_fn (f g : F) : bool :=
  if F_eq_dec g f then false else true.

Fixpoint first_fns (ops : list (op F)) : list F :=
  match ops with
  | [] => []
  | o :: rest => fn o :: filter (other_fn (fn o)) (first_fns rest)
  end.

Definition group_of (ops : list (op F)) (f : F) : group :=
  (f, (map (@J F) (filter (same_fn f) ops),
       map (@output F) (filter (same_fn f) ops))).

(** A signal that is a vector with unit stride. *)
Definition is_vector (s : signal) : Prop :=
  shape s = [size s] /\ elemstrides s = [1].

(** The dimension [signals[...][0].size] of a group. *)
Definition dim_of (l : list signal) : nat :=
  match l with
  | s :: _ => size s
  | [] => 0
  end.

(** The plan of a group when nothing is raised, as plan number [i]. *)
Definition plan_of_group (i : nat) (g : group) : plan F C :=
  let '(f, (ins, outs)) := g in
  match ocl_function f (dim_of ins) (dim_of outs) with
  | Converted code => OclPlan (tag_of f i) code ins outs
  | _ => PythonPlan (tag_of f i) f ins outs
  end.

Fixpoint indexed_plans (i : nat) (d : list group) : list (plan F C) :=
  match d with
  | [] => []
  | g :: d' => plan_of_group i g :: indexed_plans (S i) d'
  end.

(** *** The groups *)

Lemma same_fn_true f o : same_fn f o = true <-> fn o = f.
Proof. unfold same_fn. destruct (F_eq_dec (fn o) f); split; congruence. Qed.

Lemma other_fn_true f g : other_fn f g = true <-> g <> f.
Proof. unfold other_fn. destruct (F_eq_dec g f); split; congruence. Qed.

Lemma in_first_fns ops f :
  In f (first_fns ops) <-> exists o, In o ops /\ fn o = f.
Proof.
  induction ops as [|a ops IH]; cbn [first_fns].
  - split; [contradiction|]. intros (o & Ho & _). contradiction.
  - split.
    + intros [<- | H].
      * exists a. split; [left|]; reflexivity.
      * apply filter_In in H. destruct H as [H _]. apply IH in H.
        destruct H as (o & Ho & Hf). exists o. split; [right|]; assumption.
    + intros (o & [<- | Ho] & <-); [left; reflexivity|].
      destruct (F_eq_dec (fn o) (fn a)) as [E|E]; [left; symmetry; exact E|].
      right. apply filter_In. split.
      * apply IH. exists o. split; [exact Ho|reflexivity].
      * apply other_fn_true. exact E.
Qed.

Lemma first_fns_nodup ops : NoDup (first_fns ops).
Proof.
  induction ops as [|a ops IH]; cbn [first_fns]; constructor.
  - intros H. apply filter_In in H. destruct H as [_ H].
    apply other_fn_true in H. congruence.
  - apply NoDup_filter. exact IH.
Qed.

Lemma filter_other_absent f l :
  ~ In f l -> filter (other_fn f) l = l.
Proof.
  induction l as [|g l IH]; intros H; [reflexivity|].
  cbn [filter]. destruct (other_fn f g) eqn:Hg.
  - rewrite IH; [reflexivity|]. intros H'. apply H. right. exact H'.
  - exfalso. apply H. left. unfold other_fn in Hg.
    destruct (F_eq_dec g f); [assumption|discriminate].
Qed.

Lemma first_fns_snoc ops o :
  first_fns (ops ++ [o])
  = if in_dec F_eq_dec (fn o) (first_fns ops) then first_fns ops
    else first_fns ops ++ [fn o].
Proof.
  induction ops as [|a ops IH].
  - cbn. destruct (F_eq_dec (fn o) (fn o)); [|contradiction].
    destruct (in_dec F_eq_dec (fn o) []); [contradiction|reflexivity].
  - cbn [app first_fns]. rewrite IH.
    destruct (F_eq_dec (fn o) (fn a)) as [E|E].
    + destruct (in_dec F_eq_dec (fn o) (fn a :: _)) as [_|N];
        [|exfalso; apply N; left; symmetry; exact E].
      destruct (in_dec F_eq_dec (fn o) (first_fns ops)); [reflexivity|].
      rewrite filter_app. cbn [filter].
      assert (Ho : other_fn (fn a) (fn o) = false).
      { unfold other_fn. destruct (F_eq_dec (fn o) (fn a)); congruence. }
      rewrite Ho, app_nil_r. reflexivity.
    + assert (Ho : other_fn (fn a) (fn o) = true)
        by (apply other_fn_true; exact E).
      destruct (in_dec F_eq_dec (fn o) (first_fns ops)) as [I|I].
      * destruct (in_dec F_eq_dec (fn o) (fn a :: _)) as [_|N];
          [reflexivity|].
        exfalso. apply N. right. apply filter_In. split; assumption.
      * destruct (in_dec F_eq_dec (fn o) (fn a :: _)) as [[H|H]|_].
        -- congruence.
        -- apply filter_In in H. destruct H as [H _]. contradiction.
        -- rewrite filter_app. cbn [filter]. rewrite Ho. reflexivity.
Qed.

Lemma group_of_snoc_same ops o :
  group_of (ops ++ [o]) (fn o)
  = (fn o, (map (@J F) (filter (same_fn (fn o)) ops) ++ [J o],
            map (@output F) (filter (same_fn (fn o)) ops) ++ [output o])).
Proof.
  unfold group_of. rewrite filter_app. cbn [filter].
  rewrite (proj2 (same_fn_true (fn o) o) eq_refl), !map_app. reflexivity.
Qed.

Lemma group_of_snoc_other ops o f :
  f <> fn o -> group_of (ops ++ [o]) f = group_of ops f.
Proof.
  intros H. unfold group_of. rewrite filter_app. cbn [filter].
  destruct (same_fn f o) eqn:E.
  - apply same_fn_true in E. congruence.
  - rewrite app_nil_r. reflexivity.
Qed.

Lemma map_group_of_snoc ops o fns :
  ~ In (fn o) fns ->
  map (group_of (ops ++ [o])) fns = map (group_of ops) fns.
Proof.
  intros H. apply map_ext_in. intros f Hf. apply group_of_snoc_other.
  intros ->. contradiction.
Qed.

Lemma add_op_groups ops o : forall fns,
  NoDup fns ->
  add_op (map (group_of ops) fns) (fn o) (J o) (output o)
  = if in_dec F_eq_dec (fn o) fns
    then map (group_of (ops ++ [o])) fns
    else map (group_of (ops ++ [o])) fns
         ++ [(fn o, ([J o], [output o]))].
Proof.
  induction fns as [|g fns IH]; intros Hnd.
  - cbn. destruct (in_dec F_eq_dec (fn o) []); [contradiction|reflexivity].
  - inversion Hnd as [|? ? Hg Hnd']; subst.
    cbn [map add_op]. unfold group_of at 1.
    destruct (F_eq_dec g (fn o)) as [->|E].
    + destruct (in_dec F_eq_dec (fn o) (fn o :: fns)) as [_|N];
        [|exfalso; apply N; left; reflexivity].
      rewrite group_of_snoc_same, (@map_group_of_snoc ops o fns Hg). reflexivity.
    + fold (group_of ops g). rewrite (IH Hnd').
      rewrite (@group_of_snoc_other ops o g E).
      destruct (in_dec F_eq_dec (fn o) fns) as [I|I].
      * destruct (in_dec F_eq_dec (fn o) (g :: fns)) as [_|N];
          [reflexivity|exfalso; apply N; right; exact I].
      * destruct (in_dec F_eq_dec (fn o) (g :: fns)) as [[H|H]|_];
          [congruence|contradiction|reflexivity].
Qed.

Lemma filter_absent ops f :
  ~ In f (first_fns ops) -> filter (same_fn f) ops = [].
Proof.
  intros H. induction ops as [|a ops IH]; [reflexivity|].
  cbn [filter]. destruct (same_fn f a) eqn:E.
  - apply same_fn_true in E. exfalso. apply H. apply in_first_fns.
    exists a. split; [left; reflexivity|exact E].
  - apply IH. intros H'. apply H. apply in_first_fns.
    apply in_first_fns in H'. destruct H' as (o & Ho & Hf).
    exists o. split; [right; exact Ho|exact Hf].
Qed.

Lemma unique_ops_groups ops :
  unique_ops ops = map (group_of ops) (first_fns ops).
Proof.
  induction ops as [|o ops IH] using rev_ind; [reflexivity|].
  unfold unique_ops in *. rewrite fold_left_app. cbn [fold_left].
  rewrite IH, (@add_op_groups ops o (first_fns ops) (first_fns_nodup ops)),
    first_fns_snoc.
  destruct (in_dec F_eq_dec (fn o) (first_fns ops)) as [I|I]; [reflexivity|].
  rewrite map_app. cbn [map]. f_equal. f_equal.
  rewrite group_of_snoc_same, (@filter_absent ops (fn o) I). reflexivity.
Qed.

(** X23.  [plan_SimDirect] groups the operators by function: the groups
    come in the order in which the functions first occur, one group per
    function, and the group of a function lists the inputs and the outputs
    of all its operators, in the order of the operators; no group is
    empty. *)
Theorem operators_grouped_by_function (ops : list (op F)) :
  unique_ops ops = map (group_of ops) (first_fns ops) /\
  NoDup (map fst (unique_ops ops)) /\
  (forall f, In f (map fst (unique_ops ops)) <-> exists o, In o ops /\ fn o = f) /\
  (forall f ins outs,
      In (f, (ins, outs)) (unique_ops ops) ->
      ins <> [] /\ List.length ins = List.length outs).
Proof.
  rewrite unique_ops_groups.
  assert (Hkeys : map fst (map (group_of ops) (first_fns ops)) = first_fns ops).
  { rewrite map_map. cbn [group_of fst]. apply map_id. }
  rewrite Hkeys. split; [reflexivity|]. split; [apply first_fns_nodup|].
  split; [intros f; apply in_first_fns|].
  intros f ins outs H. apply in_map_iff in H. destruct H as (g & Heq & Hg).
  unfold group_of in Heq. injection Heq as -> <- <-.
  rewrite !List.length_map. split; [|reflexivity].
  apply in_first_fns in Hg. destruct Hg as (o & Ho & Hf).
  assert (Hin : In o (filter (same_fn f) ops))
    by (apply filter_In; split; [exact Ho|apply same_fn_true; exact Hf]).
  destruct (filter (same_fn f) ops); [contradiction|discriminate].
Qed.

(** *** The plans *)

Lemma group_nonempty ops f :
  In f (first_fns ops) -> filter (same_fn f) ops <> [].
Proof.
  intros Hf. apply in_first_fns in Hf. destruct Hf as (o & Ho & Hf).
  assert (Hin : In o (filter (same_fn f) ops))
    by (apply filter_In; split; [exact Ho|apply same_fn_true; exact Hf]).
  destruct (filter (same_fn f) ops); [contradiction|discriminate].
Qed.

Lemma plan_of_group_tag i f ins outs :
  plan_tag (plan_of_group i (f, (ins, outs))) = tag_of f i.
Proof.
  unfold plan_of_group. destruct (ocl_function f _ _); reflexivity.
Qed.

Lemma plan_of_group_signals i f ins outs :
  plan_signals (plan_of_group i (f, (ins, outs))) = (ins, outs).
Proof.
  unfold plan_of_group. destruct (ocl_function f _ _); reflexivity.
Qed.

Lemma plan_of_group_device i f ins outs :
  on_device (plan_of_group i (f, (ins, outs))) = true <->
  exists code, ocl_function f (dim_of ins) (dim_of outs) = Converted code.
Proof.
  unfold plan_of_group.
  destruct (ocl_function f _ _) as [code| |]; cbn [on_device]; split;
    try discriminate.
  - intros _. exists code. reflexivity.
  - reflexivity.
  - intros (code & H). discriminate H.
  - intros (code & H). discriminate H.
Qed.

Lemma nth_error_indexed d : forall s i,
  nth_error (indexed_plans s d) i
  = option_map (plan_of_group (s + i)) (nth_error d i).
Proof.
  induction d as [|g d IH]; intros s [|i]; cbn [indexed_plans nth_error option_map];
    try reflexivity.
  - rewrite Nat.add_0_r. reflexivity.
  - rewrite IH. do 2 f_equal. lia.
Qed.

Lemma length_indexed d : forall s, List.length (indexed_plans s d) = List.length d.
Proof.
  induction d as [|g d IH]; intros s; cbn [indexed_plans List.length];
    [reflexivity|]. rewrite IH. reflexivity.
Qed.

(** A run of the loop that returns has built the plan of every group, in
    order. *)
Lemma make_plans_inr ocl_only d : forall acc plans,
  make_plans ocl_only d acc = inr plans ->
  plans = (acc ++ indexed_plans (List.length acc) d)%list.
Proof.
  induction d as [|[f [ins outs]] d IH]; intros acc plans H.
  - cbn in H. injection H as <-. cbn. rewrite app_nil_r. reflexivity.
  - cbn [make_plans] in H.
    destruct ins as [|i0 ins]; [discriminate H|].
    destruct outs as [|o0 outs]; [discriminate H|].
    destruct (check_signals _ _ _); [|discriminate H].
    cbn [indexed_plans]. unfold plan_of_group. cbn [dim_of].
    destruct (ocl_function f (size i0) (size o0)) as [code| |];
      try (destruct ocl_only; [discriminate H|]);
      apply IH in H; rewrite H, List.length_app, <- app_assoc;
      cbn [List.length app]; do 3 f_equal; lia.
Qed.

Lemma make_plans_fallback d : forall acc,
  Forall (fun g : group =>
            fst (snd g) <> [] /\ snd (snd g) <> [] /\
            check_signals (dim_of (fst (snd g))) (dim_of (snd (snd g)))
                          (combine (fst (snd g)) (snd (snd g))) = true) d ->
  make_plans false d acc
  = inr (acc ++ indexed_plans (List.length acc) d)%list.
Proof.
  induction d as [|[f [ins outs]] d IH]; intros acc Hd.
  - cbn. rewrite app_nil_r. reflexivity.
  - inversion Hd as [|? ? (Hi & Ho & Hc) Hd']; subst. cbn [fst snd] in *.
    cbn [make_plans].
    destruct ins as [|i0 ins]; [contradiction|].
    destruct outs as [|o0 outs]; [contradiction|].
    cbn [dim_of] in Hc. rewrite Hc.
    cbn [indexed_plans]. unfold plan_of_group. cbn [dim_of].
    destruct (ocl_function f (size i0) (size o0)) as [code| |];
      rewrite (IH _ Hd'), List.length_app, <- app_assoc;
      cbn [List.length app];
      replace (List.length acc + 1) with (S (List.length acc)) by lia;
      reflexivity.
Qed.

Lemma make_plans_error d : forall acc e,
  Forall (fun g : group => fst (snd g) <> [] /\ snd (snd g) <> []) d ->
  make_plans false d acc = inl e -> e = AssertionError.
Proof.
  induction d as [|[f [ins outs]] d IH]; intros acc e Hd H.
  - discriminate H.
  - inversion Hd as [|? ? (Hi & Ho) Hd']; subst. cbn [fst snd] in *.
    cbn [make_plans] in H.
    destruct ins as [|i0 ins]; [contradiction|].
    destruct outs as [|o0 outs]; [contradiction|].
    destruct (check_signals _ _ _); [|injection H as <-; reflexivity].
    destruct (ocl_function f (size i0) (size o0));
      exact (IH _ _ Hd' H).
Qed.

Lemma make_plans_refuses f d : forall acc,
  In f (map fst d) ->
  (forall a b code, ocl_function f a b <> Converted code) ->
  exists e, make_plans true d acc = inl e /\ e <> IndexError \/
            make_plans true d acc = inl IndexError /\
            exists g ins outs, In (g, (ins, outs)) d /\ (ins = [] \/ outs = []).
Proof.
  induction d as [|[g [ins outs]] d IH]; intros acc Hf Hno; [contradiction|].
  cbn [make_plans].
  destruct ins as [|i0 ins].
  { exists IndexError. right. split; [reflexivity|].
    exists g, [], outs. split; [left; reflexivity|left; reflexivity]. }
  destruct outs as [|o0 outs].
  { exists IndexError. right. split; [reflexivity|].
    exists g, (i0 :: ins), []. split; [left; reflexivity|right; reflexivity]. }
  destruct (check_signals _ _ _).
  - destruct (ocl_function g (size i0) (size o0)) as [code| |] eqn:Hg.
    + destruct Hf as [Hf|Hf].
      * cbn [fst] in Hf. subst g. exfalso. exact (Hno _ _ _ Hg).
      * destruct (IH (acc ++ [OclPlan (tag_of g (List.length acc)) code
                                      (i0 :: ins) (o0 :: outs)])%list Hf Hno)
          as (e & [He | (He & g' & ins' & outs' & Hin & Hemp)]).
        -- exists e. left. exact He.
        -- exists e. right. split; [exact He|].
           exists g', ins', outs'. split; [right; exact Hin|exact Hemp].
    + exists NotImplementedError. left. split; [reflexivity|discriminate].
    + exists AssertionError. left. split; [reflexivity|discriminate].
  - exists AssertionError. left. split; [reflexivity|discriminate].
Qed.

Lemma groups_nonempty ops :
  Forall (fun g : group => fst (snd g) <> [] /\ snd (snd g) <> [])
         (unique_ops ops).
Proof.
  rewrite unique_ops_groups. apply Forall_forall. intros g Hg.
  apply in_map_iff in Hg. destruct Hg as (f & <- & Hf).
  pose proof (@group_nonempty ops f Hf) as Hne. cbn [group_of fst snd].
  destruct (filter (same_fn f) ops); [contradiction|].
  split; discriminate.
Qed.

Lemma combine_maps (l : list (op F)) :
  combine (map (@J F) l) (map (@output F) l)
  = map (fun o => (J o, output o)) l.
Proof.
  induction l as [|o l IH]; [reflexivity|]. cbn [map combine].
  rewrite IH. reflexivity.
Qed.

Lemma check_vectors d1 d2 (l : list (op F)) :
  Forall (fun o => size (J o) = d1 /\ size (output o) = d2 /\
                   is_vector (J o) /\ is_vector (output o)) l ->
  check_signals d1 d2 (map (fun o => (J o, output o)) l) = true.
Proof.
  induction 1 as [|o l (H1 & H2 & (Hs1 & He1) & (Hs2 & He2)) _ IH];
    [reflexivity|].
  cbn [map check_signals]. rewrite IH, Hs1, He1, Hs2, He2.
  cbn [vector_dims unit_stride]. rewrite H1, H2, !Nat.eqb_refl. reflexivity.
Qed.

Lemma append_cancel (a b c : string) : (a ++ b = a ++ c)%string -> b = c.
Proof.
  induction a as [|x a IH]; cbn [append]; intros H; [exact H|].
  injection H as H. exact (IH H).
Qed.

Lemma dec_injective a b : PlanBuild.dec a = PlanBuild.dec b -> a = b.
Proof.
  unfold PlanBuild.dec. intros H.
  apply (f_equal DecimalString.NilEmpty.uint_of_string) in H.
  rewrite !DecimalString.NilEmpty.usu in H. injection H as H.
  apply DecimalNat.Unsigned.to_uint_inj. exact H.
Qed.

(** X24.  Without [ocl_only], operators whose signals are vectors of unit
    stride, of one input and one output dimension per function, always get
    their plans: one plan per function, in the order in which the functions
    first occur, over the inputs and outputs of all the operators of the
    function; the plan runs on the device exactly when the function could
    be converted, and is the Python wrapper otherwise. *)
Theorem fallback_gives_one_plan_per_function (ops : list (op F)) :
  Forall (fun o => is_vector (J o) /\ is_vector (output o)) ops ->
  (forall o1 o2, In o1 ops -> In o2 ops -> fn o1 = fn o2 ->
                 size (J o1) = size (J o2) /\
                 size (output o1) = size (output o2)) ->
  exists plans,
    plan_SimDirect false ops = inr plans /\
    List.length plans = List.length (first_fns ops) /\
    forall i f,
      nth_error (first_fns ops) i = Some f ->
      exists p,
        nth_error plans i = Some p /\
        plan_tag p = tag_of f i /\
        plan_signals p = snd (group_of ops f) /\
        (on_device p = true <->
         exists code,
           ocl_function f (dim_of (fst (snd (group_of ops f))))
                        (dim_of (snd (snd (group_of ops f))))
           = Converted code).
Proof.
  intros Hvec Hdim. unfold plan_SimDirect.
  rewrite make_plans_fallback.
  - eexists. split; [reflexivity|]. cbn [app List.length].
    rewrite unique_ops_groups, length_indexed, List.length_map.
    split; [reflexivity|]. intros i f Hi.
    rewrite nth_error_indexed, nth_error_map, Hi. cbn [option_map Nat.add].
    eexists. split; [reflexivity|]. unfold group_of. cbn [fst snd].
    split; [apply plan_of_group_tag|].
    split; [apply plan_of_group_signals|apply plan_of_group_device].
  - rewrite unique_ops_groups. apply Forall_forall. intros g Hg.
    apply in_map_iff in Hg. destruct Hg as (f & <- & Hf).
    pose proof (@group_nonempty ops f Hf) as Hne. cbn [group_of fst snd].
    rewrite combine_maps.
    destruct (filter (same_fn f) ops) as [|o0 l] eqn:El; [contradiction|].
    split; [discriminate|]. split; [discriminate|].
    cbn [map dim_of]. rewrite <- (map_cons (fun o => (J o, output o)) o0 l).
    apply check_vectors. apply Forall_forall. intros o Ho.
    assert (H0 : In o0 (filter (same_fn f) ops)) by (rewrite El; left; reflexivity).
    rewrite <- El in Ho. apply filter_In in Ho. apply filter_In in H0.
    destruct Ho as [Ho Hfo]. destruct H0 as [H0 Hf0].
    apply same_fn_true in Hfo. apply same_fn_true in Hf0.
    destruct (Hdim o o0 Ho H0 ltac:(congruence)) as [E1 E2].
    pose proof (proj1 (Forall_forall _ _) Hvec o Ho) as [V1 V2].
    split; [exact E1|]. split; [exact E2|]. split; assumption.
Qed.

(** X25.  With [ocl_only] a function that cannot be converted makes
    [plan_SimDirect] raise: no plan is returned, not for the other
    functions either, and the exception is one of the conversion or of the
    assertions, never an indexing error. *)
Theorem ocl_only_refuses_python (ops : list (op F)) (o : op F) :
  In o ops ->
  (forall a b code, ocl_function (fn o) a b <> Converted code) ->
  exists e, plan_SimDirect true ops = inl e /\ e <> IndexError.
Proof.
  intros Ho Hno. unfold plan_SimDirect.
  assert (Hf : In (fn o) (map fst (unique_ops ops))).
  { rewrite unique_ops_groups, map_map. cbn [group_of fst]. rewrite map_id.
    apply in_first_fns. exists o. split; [exact Ho|reflexivity]. }
  destruct (@make_plans_refuses (fn o) (unique_ops ops) [] Hf Hno)
    as (e & [He | (_ & g & ins & outs & Hin & Hemp)]).
  - exists e. exact He.
  - exfalso.
    pose proof (proj1 (Forall_forall _ _) (groups_nonempty ops) _ Hin)
      as [Hi Ho']. cbn [fst snd] in *.
    destruct Hemp; contradiction.
Qed.

(** X26.  Without [ocl_only] the only exception of [plan_SimDirect] is
    the [AssertionError] of the checks on the signals: a function that
    cannot be converted never aborts the planning. *)
Theorem fallback_raises_assertions_only (ops : list (op F)) (e : error) :
  plan_SimDirect false ops = inl e -> e = AssertionError.
Proof.
  unfold plan_SimDirect. intros H.
  exact (@make_plans_error (unique_ops ops) [] e (groups_nonempty ops) H).
Qed.

(** X27.  The plans of two different lambdas never share a tag: the tag
    of the plan of a lambda is ["<lambda>"] followed by the number of plans
    made before it. *)
Theorem lambda_tags_differ (ocl_only : bool) (ops : list (op F))
    (plans : list (plan F C)) (i k : nat) (f g : F) (p q : plan F C) :
  plan_SimDirect ocl_only ops = inr plans ->
  nth_error (first_fns ops) i = Some f ->
  nth_error (first_fns ops) k = Some g ->
  nth_error plans i = Some p ->
  nth_error plans k = Some q ->
  fn_name f = lambda -> fn_name g = lambda ->
  i <> k ->
  plan_tag p = (lambda ++ PlanBuild.dec i)%string /\
  plan_tag q = (lambda ++ PlanBuild.dec k)%string /\
  plan_tag p <> plan_tag q.
Proof.
  intros Hrun Hf Hg Hp Hq Nf Ng Hik.
  apply make_plans_inr in Hrun. cbn [app List.length] in Hrun. subst plans.
  rewrite unique_ops_groups in Hp, Hq.
  rewrite nth_error_indexed, nth_error_map in Hp, Hq.
  rewrite Hf in Hp. rewrite Hg in Hq.
  assert (Tp : plan_tag p = tag_of f i)
    by (injection Hp as <-; exact (plan_of_group_tag i f _ _)).
  assert (Tq : plan_tag q = tag_of g k)
    by (injection Hq as <-; exact (plan_of_group_tag k g _ _)).
  rewrite Tp, Tq. unfold tag_of. rewrite Nf, Ng, String.eqb_refl.
  split; [reflexivity|]. split; [reflexivity|].
  intros H. apply append_cancel in H. apply dec_injective in H. contradiction.
Qed.

End Plans.

(** Three operators: two of a lambda, number 0, one of a function that is
    not converted, number 1; and a second lambda, number 2. *)
Definition vec (n : nat) : signal := Signal n [n] [1].

Definition name_ex (f : nat) : string :=
  if (f =? 1)%nat then "square"%string else lambda.

Definition ocl_ex (f a b : nat) : attempt nat :=
  if (f =? 1)%nat then NotImplemented else Converted (f + a + b).

Definition ops_ex : list (op nat) :=
  [Op 0 (vec 2) (vec 3); Op 1 (vec 1) (vec 1); Op 0 (vec 2) (vec 3);
   Op 2 (vec 4) (vec 4)].

Lemma ops_ex_vectors :
  Forall (fun o => is_vector (J o) /\ is_vector (output o)) ops_ex.
Proof. repeat constructor. Qed.

Lemma ops_ex_dims o1 o2 :
  In o1 ops_ex -> In o2 ops_ex -> fn o1 = fn o2 ->
  size (J o1) = size (J o2) /\ size (output o1) = size (output o2).
Proof.
  cbn [ops_ex In].
  intros [<-|[<-|[<-|[<-|[]]]]] [<-|[<-|[<-|[<-|[]]]]]; cbn;
    intros H; try discriminate H; split; reflexivity.
Qed.

Lemma fallback_gives_one_plan_per_function_witness :
  exists plans,
    plan_SimDirect Nat.eq_dec name_ex ocl_ex false ops_ex = inr plans /\
    List.length plans = List.length (first_fns Nat.eq_dec ops_ex) /\
    forall i f,
      nth_error (first_fns Nat.eq_dec ops_ex) i = Some f ->
      exists p,
        nth_error plans i = Some p /\
        plan_tag p = tag_of name_ex f i /\
        plan_signals p = snd (group_of Nat.eq_dec ops_ex f) /\
        (on_device p = true <->
         exists code,
           ocl_ex f (dim_of (fst (snd (group_of Nat.eq_dec ops_ex f))))
                  (dim_of (snd (snd (group_of Nat.eq_dec ops_ex f))))
           = Converted code).
Proof.
  exact (@fallback_gives_one_plan_per_function nat Nat.eq_dec name_ex nat
           ocl_ex ops_ex ops_ex_vectors ops_ex_dims).
Defined.

Lemma ocl_only_refuses_python_witness :
  exists e,
    plan_SimDirect Nat.eq_dec name_ex ocl_ex true ops_ex = inl e /\
    e <> IndexError.
Proof.
  apply (@ocl_only_refuses_python nat Nat.eq_dec name_ex nat ocl_ex ops_ex
           (Op 1 (vec 1) (vec 1))).
  - right. left. reflexivity.
  - intros a b code. discriminate.
Defined.

(** An operator whose input is a matrix. *)
Definition ops_bad : list (op nat) :=
  [Op 0 (Signal 4 [2; 2] [2; 1]) (vec 4)].

Lemma fallback_raises_assertions_only_witness :
  plan_SimDirect Nat.eq_dec name_ex ocl_ex false ops_bad = inl AssertionError.
Proof.
  assert (H : exists e, plan_SimDirect Nat.eq_dec name_ex ocl_ex false ops_bad
                        = inl e) by (eexists; reflexivity).
  destruct H as (e & H).
  rewrite H. f_equal.
  exact (@fallback_raises_assertions_only nat Nat.eq_dec name_ex nat ocl_ex
           ops_bad e H).
Defined.

Definition plans_ex : list (plan nat nat) :=
  [OclPlan "<lambda>0"%string 5 [vec 2; vec 2] [vec 3; vec 3];
   PythonPlan "square"%string 1 [vec 1] [vec 1];
   OclPlan "<lambda>2"%string 10 [vec 4] [vec 4]].

Lemma lambda_tags_differ_witness :
  let p : plan nat nat :=
    OclPlan "<lambda>0"%string 5 [vec 2; vec 2] [vec 3; vec 3] in
  let q : plan nat nat := OclPlan "<lambda>2"%string 10 [vec 4] [vec 4] in
  plan_tag p = (lambda ++ PlanBuild.dec 0)%string /\
  plan_tag q = (lambda ++ PlanBuild.dec 2)%string /\
  plan_tag p <> plan_tag q.
Proof.
  apply (@lambda_tags_differ nat Nat.eq_dec name_ex nat ocl_ex false ops_ex
           plans_ex 0 2 0 2); try reflexivity.
  discriminate.
Defined.

(** The plans of the example: the lambdas on the device, tagged by their
    plan numbers, the other function in Python. *)
Example plan_SimDirect_example :
  plan_SimDirect Nat.eq_dec name_ex ocl_ex false ops_ex = inr plans_ex.
Proof. reflexivity. Qed.

End SimDirect.

(** * The dependencies of the plans ([__init__], [plandict_op_group]) *)

Module PlanDict.

Section Dag.

(** Plans, compared as dictionary keys are, operator types and
    operators. *)
Variables P T O : Type.

Variable P_eq_dec : forall a b : P, {a = b} + {a <> b}.

(** [getattr(self, 'plan_' + op_type.__name__)(op_list)]; [None] is an
    exception of the planner. *)
Variable planner : T -> list O -> option (list P).

(** [self._plandict]: an ordered dictionary from a plan to the plans it
    waits for. *)
Definition plandict : Type := list (P * list P).

(** [self._plandict[p] = deps]: a key the dictionary has keeps its
    place. *)
Fixpoint assign (d : plandict) (p : P) (deps : list P) : plandict :=
  match d with
  | [] => [(p, deps)]
  | (q, x) :: d' =>
      if P_eq_dec q p then (q, deps) :: d' else (q, x) :: assign d' p deps
  end.

(** [for p in plans: self._plandict[p] = deps] *)
Definition assign_all (d : plandict) (plans deps : list P) : plandict :=
  fold_left (fun d' p => assign d' p deps) plans d.

(** [for op_type, op_list in self.op_groups:
        deps = self.plandict_op_group(op_type, op_list, deps)],
    where [plandict_op_group] returns the plans it made. *)
Fixpoint op_groups_loop (groups : list (T * list O)) (d : plandict)
    (deps : list P) : option (plandict * list P) :=
  match groups with
  | [] => Some (d, deps)
  | (op_type, op_list) :: rest =>
      match planner op_type op_list with
      | None => None
      | Some plans => op_groups_loop rest (assign_all d plans deps) plans
      end
  end.

(** The dictionary [__init__] hands to the DAG: the operator groups in
    order, starting from [deps = []], then the probe plans. *)
Definition init (groups : list (T * list O)) (probe_plans : list P)
  : option plandict :=
  match op_groups_loop groups [] [] with
  | None => None
  | Some (d, deps) => Some (assign_all d probe_plans deps)
  end.

(** Every plan of a list waits for the plans of the list before. *)
Fixpoint chain (deps : list P) (Ls : list (list P)) : plandict :=
  match Ls with
  | [] => []
  | L :: rest => map (fun p => (p, deps)) L ++ chain L rest
  end.

(** *** Assignments to new keys *)

Lemma assign_fresh d p deps :
  ~ In p (map fst d) -> assign d p deps = d ++ [(p, deps)].
Proof.
  induction d as [|[q x] d IH]; intros H; [reflexivity|].
  cbn [assign]. destruct (P_eq_dec q p) as [->|_].
  - exfalso. apply H. left. reflexivity.
  - rewrite IH; [reflexivity|]. intros H'. apply H. right. exact H'.
Qed.

Lemma assign_all_fresh plans deps : forall d,
  NoDup (map fst d ++ plans) ->
  assign_all d plans deps = d ++ map (fun p => (p, deps)) plans.
Proof.
  induction plans as [|p plans IH]; intros d Hnd.
  - cbn. rewrite app_nil_r. reflexivity.
  - unfold assign_all in *. cbn [fold_left map].
    pose proof (NoDup_remove_2 _ _ _ Hnd) as Hp.
    rewrite assign_fresh by (intros H; apply Hp; apply in_or_app; left; exact H).
    rewrite IH.
    + rewrite <- app_assoc. reflexivity.
    + rewrite map_app. cbn [map fst]. rewrite <- app_assoc. exact Hnd.
Qed.

Lemma keys_chain Ls : forall deps, map fst (chain deps Ls) = concat Ls.
Proof.
  induction Ls as [|L Ls IH]; intros deps; [reflexivity|].
  cbn [chain concat]. rewrite map_app, map_map, IH. cbn [fst].
  rewrite map_id. reflexivity.
Qed.

Lemma last_app_one (A : Type) (Ls : list A) (L x : A) :
  last (Ls ++ [L]) x = L.
Proof.
  induction Ls as [|a Ls IH]; [reflexivity|].
  cbn [app]. destruct (Ls ++ [L]) eqn:E; [destruct Ls; discriminate E|].
  exact IH.
Qed.

Lemma last_default (A : Type) (l : list A) : forall (a x y : A),
  last (a :: l) x = last (a :: l) y.
Proof.
  induction l as [|b l IH]; intros a x y; [reflexivity|].
  change (last (a :: b :: l) x) with (last (b :: l) x).
  change (last (a :: b :: l) y) with (last (b :: l) y).
  apply IH.
Qed.

Lemma last_cons (A : Type) (a : A) (l : list A) (x : A) :
  last (a :: l) x = last l a.
Proof.
  destruct l as [|b l]; [reflexivity|].
  change (last (a :: b :: l) x) with (last (b :: l) x).
  apply last_default.
Qed.

Lemma chain_app Ls : forall deps Ms,
  chain deps (Ls ++ Ms) = chain deps Ls ++ chain (last Ls deps) Ms.
Proof.
  induction Ls as [|L Ls IH]; intros deps Ms; [reflexivity|].
  cbn [app chain]. rewrite IH, <- app_assoc. do 3 f_equal.
  symmetry. apply last_cons.
Qed.

Lemma op_groups_loop_chain groups : forall Ps d deps,
  Forall2 (fun g L => planner (fst g) (snd g) = Some L) groups Ps ->
  NoDup (map fst d ++ concat Ps) ->
  op_groups_loop groups d deps = Some (d ++ chain deps Ps, last Ps deps).
Proof.
  induction groups as [|[t ops] groups IH]; intros Ps d deps HF Hnd;
    inversion HF as [|? L ? Ps' Hp HF']; subst.
  - cbn. rewrite app_nil_r. reflexivity.
  - cbn [fst snd] in Hp. cbn [op_groups_loop]. rewrite Hp.
    cbn [concat] in Hnd. rewrite app_assoc in Hnd.
    rewrite assign_all_fresh by (apply NoDup_app_remove_r in Hnd; exact Hnd).
    rewrite IH with (Ps := Ps').
    + cbn [chain]. rewrite <- app_assoc. do 2 f_equal.
      symmetry. apply last_cons.
    + exact HF'.
    + rewrite map_app, map_map. cbn [fst]. rewrite map_id. exact Hnd.
Qed.

Lemma chain_before Ls : forall deps0 d1 p deps d2,
  chain deps0 Ls = d1 ++ (p, deps) :: d2 ->
  incl deps (deps0 ++ map fst d1).
Proof.
  induction Ls as [|L Ls IH]; intros deps0 d1 p deps d2 H.
  - destruct d1; discriminate H.
  - cbn [chain] in H. apply app_eq_app in H.
    destruct H as (l & [(H1 & H2) | (H1 & H2)]).
    + destruct l as [|e l].
      * cbn [app] in H2. rewrite app_nil_r in H1. symmetry in H2.
        apply (IH L [] p deps d2) in H2.
        rewrite app_nil_r in H2. intros q Hq. apply in_or_app. right.
        rewrite <- H1, map_map. cbn [fst]. rewrite map_id. apply H2. exact Hq.
      * cbn [app] in H2. injection H2 as <- _.
        assert (Hin : In (p, deps) (map (fun p0 => (p0, deps0)) L))
          by (rewrite H1; apply in_or_app; right; left; reflexivity).
        apply in_map_iff in Hin. destruct Hin as (p0 & Heq & _).
        injection Heq as _ <-. apply incl_appl. apply incl_refl.
    + apply IH in H2. subst d1.
      rewrite map_app, map_map. cbn [fst]. rewrite map_id.
      intros q Hq. apply in_or_app. right. apply H2. exact Hq.
Qed.

Lemma init_chain groups Ps Q :
  Forall2 (fun g L => planner (fst g) (snd g) = Some L) groups Ps ->
  NoDup (concat Ps ++ Q) ->
  init groups Q = Some (chain [] (Ps ++ [Q])).
Proof.
  intros HF Hnd. unfold init.
  rewrite (@op_groups_loop_chain groups Ps [] [] HF)
    by (apply NoDup_app_remove_r in Hnd; exact Hnd).
  cbn [app]. rewrite assign_all_fresh by (rewrite keys_chain; exact Hnd).
  rewrite chain_app. cbn [chain]. rewrite app_nil_r. reflexivity.
Qed.

(** X28.  When every planner returns and no plan is returned twice, the
    dictionary [__init__] builds lists the plans group by group, the probe
    plans last; every plan of a group waits for exactly the plans of the
    group before it, the plans of the first group for nothing and the probe
    plans for the plans of the last group; so every plan waits only for
    plans that come before it in the dictionary. *)
Theorem plans_wait_for_previous_group (groups : list (T * list O))
    (Ps : list (list P)) (Q : list P) :
  Forall2 (fun g L => planner (fst g) (snd g) = Some L) groups Ps ->
  NoDup (concat Ps ++ Q) ->
  exists d,
    init groups Q = Some d /\
    d = chain [] (Ps ++ [Q]) /\
    map fst d = concat Ps ++ Q /\
    (forall q, In q Q -> In (q, last Ps []) d) /\
    (forall d1 p deps d2,
        d = d1 ++ (p, deps) :: d2 -> incl deps (map fst d1)).
Proof.
  intros HF Hnd. exists (chain [] (Ps ++ [Q])).
  split; [apply init_chain; assumption|]. split; [reflexivity|].
  split; [|split].
  - rewrite keys_chain, concat_app. cbn [concat]. rewrite app_nil_r.
    reflexivity.
  - intros q Hq. rewrite chain_app. apply in_or_app. right.
    cbn [chain]. rewrite app_nil_r. apply in_map_iff.
    exists q. split; [reflexivity|exact Hq].
  - intros d1 p deps d2 H. apply chain_before in H. exact H.
Qed.

(** X29.  A group for which the planner returns no plan cuts the chain:
    the plans of the next group wait for nothing, so nothing orders them
    after the plans of the groups before. *)
Theorem empty_group_cuts_chain (groups : list (T * list O))
    (A B : list (list P)) (L Q : list P) (p : P) :
  Forall2 (fun g L' => planner (fst g) (snd g) = Some L')
          groups (A ++ [] :: L :: B) ->
  NoDup (concat (A ++ [] :: L :: B) ++ Q) ->
  In p L ->
  exists d,
    init groups Q = Some d /\ In (p, []) d /\
    forall deps, In (p, deps) d -> deps = [].
Proof.
  intros HF Hnd Hp. exists (chain [] ((A ++ [] :: L :: B) ++ [Q])).
  split; [apply init_chain; assumption|].
  assert (Hin : In (p, []) (chain [] ((A ++ [] :: L :: B) ++ [Q]))).
  { rewrite <- app_assoc, chain_app. apply in_or_app. right.
    cbn [app chain].
    change (map (fun p0 => (p0, last A [])) []) with (@nil (P * list P)).
    cbn [app]. apply in_or_app. left. apply in_map_iff.
    exists p. split; [reflexivity|exact Hp]. }
  split; [exact Hin|]. intros deps Hd.
  assert (Hk : NoDup (map fst (chain [] ((A ++ [] :: L :: B) ++ [Q])))).
  { rewrite keys_chain, concat_app. cbn [concat]. rewrite app_nil_r.
    exact Hnd. }
  revert Hk Hin Hd. generalize (chain [] ((A ++ [] :: L :: B) ++ [Q])).
  intros d. induction d as [|[q x] d IH]; intros Hk Hin Hd; [contradiction|].
  cbn [map fst] in Hk. inversion Hk as [|? ? Hq Hk']; subst.
  destruct Hin as [Hin|Hin]; destruct Hd as [Hd|Hd].
  - congruence.
  - injection Hin as -> _. exfalso. apply Hq.
    apply in_map_iff. exists (p, deps). split; [reflexivity|exact Hd].
  - injection Hd as -> _. exfalso. apply Hq.
    apply in_map_iff. exists (p, []). split; [reflexivity|exact Hin].
  - exact (IH Hk' Hin Hd).
Qed.

End Dag.

(** Three operator groups planned as [[1; 2]], [[]] and [[3]], and one
    probe plan, 4. *)
Definition planner_ex (t : nat) (ops : list nat) : option (list nat) :=
  match t with
  | 0 => Some [1; 2]
  | 1 => Some []
  | _ => Some [3]
  end.

Definition groups_ex : list (nat * list nat) := [(0, []); (1, []); (2, [])].

Lemma plans_wait_for_previous_group_witness :
  exists d,
    init Nat.eq_dec planner_ex groups_ex [4] = Some d /\
    d = chain [] ([[1; 2]; []; [3]] ++ [[4]]) /\
    map fst d = concat [[1; 2]; []; [3]] ++ [4] /\
    (forall q, In q [4] -> In (q, last [[1; 2]; []; [3]] []) d) /\
    (forall d1 p deps d2,
        d = d1 ++ (p, deps) :: d2 -> incl deps (map fst d1)).
Proof.
  apply (@plans_wait_for_previous_group nat nat nat Nat.eq_dec planner_ex
           groups_ex [[1; 2]; []; [3]] [4]).
  - repeat constructor.
  - cbn. repeat constructor; cbn; intuition lia.
Defined.

Lemma empty_group_cuts_chain_witness :
  exists d,
    init Nat.eq_dec planner_ex groups_ex [4] = Some d /\ In (3, []) d /\
    forall deps, In (3, deps) d -> deps = [].
Proof.
  apply (@empty_group_cuts_chain nat nat nat Nat.eq_dec planner_ex
           groups_ex [[1; 2]] [] [3] [4] 3).
  - repeat constructor.
  - cbn. repeat constructor; cbn; intuition lia.
  - left. reflexivity.
Defined.

(** The dictionary of the example: plan 3 waits for nothing. *)
Example init_example :
  init Nat.eq_dec planner_ex groups_ex [4]
  = Some [(1, []); (2, []); (3, []); (4, [3])].
Proof. reflexivity. Qed.

End PlanDict.
